(** * MazeLock: the maze generator and the depth-first path finder

    A shallow embedding of [mazelock.c].  The global [char **matrix] is a
    list of rows, each a list of characters; the globals [ROWS], [COLS]
    and [density] and the implementation constant [RAND_MAX] are section
    variables.  C [int]s are mathematical integers: the dimensions are
    taken small enough that no [int] computation of the program overflows.
    [rand()] pops the next number of a finite tape of draws; a run that
    asks for more draws than the tape holds has no result ([None]).  The
    quotient [(double)rand() / (double)RAND_MAX] is the exact rational. *)

From Stdlib Require Import ZArith QArith Ascii List Lia.
From Stdlib Require String.
From stdpp Require Import base tactics option list list_numbers.

Import String.StringSyntax.
Delimit Scope string_scope with string.
Local Open Scope Z_scope.

(** ** Cell glyphs (the [#define]s of the source) *)

Definition ENTRY : ascii := "S"%char.
Definition EXIT : ascii := "E"%char.
Definition OPEN : ascii := " "%char.
Definition CLOSED : ascii := "X"%char.
Definition VISITED : ascii := "."%char.
Definition PATH : ascii := "P"%char.

(** ** The matrix *)

Abbreviation matrix := (list (list ascii)).

(** [matrix[row][col]]; the source reads a cell only behind a bounds test,
    so the value given here to an index outside the matrix is never used. *)
Definition get (m : matrix) (row col : Z) : ascii :=
  if (0 <=? row) && (0 <=? col) then
    match m !! Z.to_nat row with
    | Some line => match line !! Z.to_nat col with
                   | Some ch => ch
                   | None => "000"%char
                   end
    | None => "000"%char
    end
  else "000"%char.

(** [matrix[row][col] = ch]; the source writes only inside the matrix. *)
Definition set (m : matrix) (row col : Z) (ch : ascii) : matrix :=
  if (0 <=? row) && (0 <=? col) then
    match m !! Z.to_nat row with
    | Some line => <[Z.to_nat row := <[Z.to_nat col := ch]> line]> m
    | None => m
    end
  else m.

(** The random tape consumed by [rand()]. *)
Abbreviation tape := (list Z).

(** [for (int i = 0; i < n; i++) body] over a state. *)
Definition for_loop {S : Type} (n : Z) (body : Z -> S -> S) (s : S) : S :=
  foldl (fun s i => body i s) s (seqZ 0 n).

(** The same loop when the body may fail to produce a state. *)
Fixpoint for_each_opt {S : Type} (body : Z -> S -> option S)
    (l : list Z) (s : S) : option S :=
  match l with
  | [] => Some s
  | i :: l' => match body i s with
               | Some s' => for_each_opt body l' s'
               | None => None
               end
  end.

Definition for_loop_opt {S : Type} (n : Z) (body : Z -> S -> option S)
    (s : S) : option S :=
  for_each_opt body (seqZ 0 n) s.

(** The result record of the search. *)
Record Path : Type := mkPath {
  start_x : Z; start_y : Z;
  end_x : Z; end_y : Z;
  found : bool
}.

(** What [find_path] prints. *)
Inductive report : Type :=
  | PartialPathFound (sx sy ex ey : Z)
  | NoPathFound
  | EntryPointNotFound.

Section Model.

Variables ROWS COLS : Z.
Variable RAND_MAX : positive.
Variable density : Q.

(** The nested [row]/[col] loops of the source. *)
Definition for_cells {S : Type} (body : Z -> Z -> S -> S) (s : S) : S :=
  for_loop ROWS (fun row => for_loop COLS (fun col => body row col)) s.

Definition for_cells_opt {S : Type} (body : Z -> Z -> S -> option S)
    (s : S) : option S :=
  for_loop_opt ROWS (fun row => for_loop_opt COLS (fun col => body row col)) s.

(** [row == 0 || row == ROWS - 1 || col == 0 || col == COLS - 1] *)
Definition on_edge (row col : Z) : bool :=
  (row =? 0) || (row =? ROWS - 1) || (col =? 0) || (col =? COLS - 1).

(** *** place_entry_exit_points *)

(** The [do ... while (exit_position == entry_position)] loop. *)
Fixpoint draw_exit_position (edge_length entry_position : Z) (t : tape)
    : option (Z * tape) :=
  match t with
  | [] => None
  | r :: t' =>
      let exit_position := Z.rem r edge_length in
      if exit_position =? entry_position
      then draw_exit_position edge_length entry_position t'
      else Some (exit_position, t')
  end.

(** The state of the placement scan:
    matrix, [counter], [entry_placed], [exit_placed]. *)
Definition place_state : Type := (matrix * Z * bool * bool)%type.

Definition place_step (entry_position exit_position : Z) (row col : Z)
    (s : place_state) : place_state :=
  let '(m, counter, entry_placed, exit_placed) := s in
  if on_edge row col then
    if (counter =? entry_position) && negb entry_placed then
      (set m row col ENTRY, counter + 1, true, exit_placed)
    else if (counter =? exit_position) && negb exit_placed then
      (set m row col EXIT, counter + 1, entry_placed, true)
    else (m, counter + 1, entry_placed, exit_placed)
  else s.

Definition place_entry_exit_points (t : tape) (m : matrix)
    : option (matrix * tape) :=
  let edge_length := 2 * (ROWS + COLS) - 4 in
  match t with
  | [] => None
  | r :: t1 =>
      let entry_position := Z.rem r edge_length in
      match draw_exit_position edge_length entry_position t1 with
      | None => None
      | Some (exit_position, t2) =>
          let '(m', _, _, _) :=
            for_cells (place_step entry_position exit_position)
                      (m, 0, false, false) in
          Some (m', t2)
      end
  end.

(** *** count_adjacent_open_cells *)

Definition count_adjacent_open_cells (m : matrix) (row col : Z) : Z :=
  let count := 0 in
  let count := if (0 <? row) && (get m (row - 1) col =? OPEN)%char
               then count + 1 else count in
  let count := if (row <? ROWS - 1) && (get m (row + 1) col =? OPEN)%char
               then count + 1 else count in
  let count := if (0 <? col) && (get m row (col - 1) =? OPEN)%char
               then count + 1 else count in
  let count := if (col <? COLS - 1) && (get m row (col + 1) =? OPEN)%char
               then count + 1 else count in
  count.

(** *** is_valid_open_cell_placement *)

Definition is_valid_open_cell_placement (m : matrix) (row col : Z) : bool :=
  if (get m row col =? ENTRY)%char || (get m row col =? EXIT)%char then false
  else
    let adjacent_open_cells := count_adjacent_open_cells m row col in
    if 1 <? adjacent_open_cells then false
    else if
      ((0 <? row) && (row <? ROWS - 1)
         && (get m (row - 1) col =? OPEN)%char
         && (get m (row + 1) col =? OPEN)%char)
      || ((0 <? col) && (col <? COLS - 1)
         && (get m row (col - 1) =? OPEN)%char
         && (get m row (col + 1) =? OPEN)%char)
      || ((0 <? row) && (row <? ROWS - 1) && (0 <? col) && (col <? COLS - 1)
         && (get m (row - 1) (col - 1) =? OPEN)%char
         && (get m (row + 1) (col + 1) =? OPEN)%char)
      || ((0 <? row) && (row <? ROWS - 1) && (0 <? col) && (col <? COLS - 1)
         && (get m (row - 1) (col + 1) =? OPEN)%char
         && (get m (row + 1) (col - 1) =? OPEN)%char)
    then false
    else if (1 <? row) && (get m (row - 2) col =? OPEN)%char
              && (get m (row - 1) col =? OPEN)%char then false
    else if (row <? ROWS - 2) && (get m (row + 2) col =? OPEN)%char
              && (get m (row + 1) col =? OPEN)%char then false
    else if (1 <? col) && (get m row (col - 2) =? OPEN)%char
              && (get m row (col - 1) =? OPEN)%char then false
    else if (col <? COLS - 2) && (get m row (col + 2) =? OPEN)%char
              && (get m row (col + 1) =? OPEN)%char then false
    else true.

(** *** randomize_matrix *)

(** [(double)rand() / (double)RAND_MAX] *)
Definition random_value (r : Z) : Q := r # RAND_MAX.

(** One iteration of the fill loop. *)
Definition fill_cell (row col : Z) (s : matrix * tape)
    : option (matrix * tape) :=
  let '(m, t) := s in
  if on_edge row col
     && ((get m row col =? ENTRY)%char || (get m row col =? EXIT)%char)
  then Some (m, t)
  else
    match t with
    | [] => None
    | r :: t' =>
        if Qle_bool (random_value r) density
           && is_valid_open_cell_placement m row col
        then Some (set m row col OPEN, t')
        else Some (set m row col CLOSED, t')
    end.

(** One iteration of the scan for the previous markers; the state is
    [entry_row, entry_col, exit_row, exit_col]. *)
Definition find_markers_step (m : matrix) (row col : Z)
    (s : Z * Z * Z * Z) : Z * Z * Z * Z :=
  let '(entry_row, entry_col, exit_row, exit_col) := s in
  if (get m row col =? ENTRY)%char then (row, col, exit_row, exit_col)
  else if (get m row col =? EXIT)%char then (entry_row, entry_col, row, col)
  else s.

(** The two conditional erasures that follow the scan. *)
Definition remove_markers (m : matrix) (s : Z * Z * Z * Z) : matrix :=
  let '(entry_row, entry_col, exit_row, exit_col) := s in
  let m := if negb (entry_row =? -1) && negb (entry_col =? -1)
           then set m entry_row entry_col CLOSED else m in
  let m := if negb (exit_row =? -1) && negb (exit_col =? -1)
           then set m exit_row exit_col CLOSED else m in
  m.

Definition randomize_matrix (t : tape) (m : matrix) : option (matrix * tape) :=
  match for_cells_opt fill_cell (m, t) with
  | None => None
  | Some (m1, t1) =>
      let marks := for_cells (find_markers_step m1) (-1, -1, -1, -1) in
      let m2 := remove_markers m1 marks in
      place_entry_exit_points t1 m2
  end.

(** *** generate_matrix *)

Definition reset_matrix (m : matrix) : matrix :=
  for_cells (fun row col m => set m row col CLOSED) m.

Definition generate_matrix (t : tape) (m : matrix) : option (matrix * tape) :=
  randomize_matrix t (reset_matrix m).

(** *** dfs *)

(** [Path path = {.found = false}]: the other fields are zero. *)
Definition no_path : Path := mkPath 0 0 0 0 false.

(** The [for (i = 0; i < 4; i++)] loop over [directions], with its [break]. *)
Definition first_found (row col : Z) (directions : list Path) : Path :=
  match List.find found directions with
  | Some d => mkPath row col (end_x d) (end_y d) true
  | None => no_path
  end.

(** [dfs] returns the path record and the matrix it leaves behind.  The
    third component is a log, absent from the source, of the cells at which
    the assignment [matrix[row][col] = VISITED] was executed, in order.
    The four recursive calls of the initialiser of [directions] are made
    in the order they are written.  [fuel] bounds the recursion depth. *)
Fixpoint dfs (fuel : nat) (m : matrix) (row col : Z)
    : option (Path * matrix * list (Z * Z)) :=
  match fuel with
  | O => None
  | S fuel' =>
      if (row <? 0) || (ROWS <=? row) || (col <? 0) || (COLS <=? col)
      then Some (no_path, m, [])
      else if (get m row col =? EXIT)%char
      then Some (mkPath row col row col true, m, [])
      else if (get m row col =? CLOSED)%char || (get m row col =? VISITED)%char
      then Some (no_path, m, [])
      else
        let m0 := set m row col VISITED in
        match dfs fuel' m0 (row - 1) col with
        | None => None
        | Some (d0, m1, v0) =>
        match dfs fuel' m1 (row + 1) col with
        | None => None
        | Some (d1, m2, v1) =>
        match dfs fuel' m2 row (col - 1) with
        | None => None
        | Some (d2, m3, v2) =>
        match dfs fuel' m3 row (col + 1) with
        | None => None
        | Some (d3, m4, v3) =>
            Some (first_found row col [d0; d1; d2; d3], m4,
                  (row, col) :: v0 ++ v1 ++ v2 ++ v3)
        end end end end
  end.

(** Recursion depth that always suffices: one level per cell, plus the
    level that rejects. *)
Definition dfs_fuel : nat := S (Z.to_nat (ROWS * COLS)).

(** *** find_path *)

(** One iteration of the scan for the entry; once [entry_found] is set the
    two [break]s leave the loops, so later iterations change nothing. *)
Definition find_entry_step (m : matrix) (row col : Z)
    (s : Z * Z * bool) : Z * Z * bool :=
  let '(entry_row, entry_col, entry_found) := s in
  if entry_found then s
  else if on_edge row col && (get m row col =? ENTRY)%char
  then (row, col, true)
  else s.

Definition find_entry (m : matrix) : Z * Z * bool :=
  for_cells (find_entry_step m) (-1, -1, false).

(** [find_path] returns what it prints and the matrix after the search. *)
Definition find_path (m : matrix) : option (report * matrix) :=
  let '(entry_row, entry_col, _) := find_entry m in
  if negb (entry_row =? -1) && negb (entry_col =? -1) then
    match dfs dfs_fuel m entry_row entry_col with
    | None => None
    | Some (path, m', _) =>
        if found path
        then Some (PartialPathFound (start_x path) (start_y path)
                                    (end_x path) (end_y path), m')
        else Some (NoPathFound, m')
    end
  else Some (EntryPointNotFound, m).

End Model.

(** ** Predicates used to state the properties *)

Section Shape.

Variables ROWS COLS : Z.

(** The matrix has [ROWS] rows of [COLS] cells, as [allocate_matrix]
    makes it. *)
Definition well_formed (m : matrix) : bool :=
  (length m =? Z.to_nat ROWS)%nat
  && forallb (fun line => (length line =? Z.to_nat COLS)%nat) m.

Definition in_bounds (row col : Z) : Prop :=
  0 <= row < ROWS /\ 0 <= col < COLS.

(** Row-major scan order: [(r, c)] is reached before [(row, col)]. *)
Definition scanned_before (r c row col : Z) : Prop :=
  r < row \/ (r = row /\ c < col).

End Shape.

(** A cell the search expands: neither the exit, nor closed, nor visited. *)
Definition expandable (ch : ascii) : Prop :=
  ch <> EXIT /\ ch <> CLOSED /\ ch <> VISITED.

(** The cells of a [ROWS] by [COLS] matrix, in row-major order. *)
Definition all_cells (ROWS COLS : Z) : list (Z * Z) :=
  list_prod (seqZ 0 ROWS) (seqZ 0 COLS).

(** What one call of [dfs] does to the matrix: [log] lists, without
    repetition, the cells it turned to [VISITED]; each of them was an
    expandable cell inside the matrix, and no other cell changed. *)
Definition marks (ROWS COLS : Z) (m m' : matrix) (log : list (Z * Z)) : Prop :=
  well_formed ROWS COLS m' = true
  /\ NoDup log
  /\ (forall row col, (row, col) ∈ log ->
        in_bounds ROWS COLS row col
        /\ expandable (get m row col)
        /\ get m' row col = VISITED)
  /\ (forall row col, (row, col) ∉ log -> get m' row col = get m row col).

(** ** Predicates on generated matrices *)

(** What the placement test leaves true of an open cell with respect to
    the cells scanned before it: its upper and left neighbours are not
    both open, and it does not end a run of three open cells going down
    or going right. *)
Definition placement_ok (m : matrix) (row col : Z) : Prop :=
  ~ (get m (row - 1) col = OPEN /\ get m row (col - 1) = OPEN)
  /\ ~ (get m (row - 1) col = OPEN /\ get m (row - 2) col = OPEN)
  /\ ~ (get m row (col - 1) = OPEN /\ get m row (col - 2) = OPEN).

(** The number of cells of the matrix selected by [which]. *)
Definition count_cells (ROWS COLS : Z) (which : Z -> Z -> bool) : Z :=
  for_cells ROWS COLS (fun row col n => if which row col then n + 1 else n) 0.

(** At most one entry marker and at most one exit marker on the edge. *)
Definition single_markers (ROWS COLS : Z) (m : matrix) : bool :=
  (count_cells ROWS COLS
     (fun row col => on_edge ROWS COLS row col
                     && (get m row col =? ENTRY)%char) <=? 1)
  && (count_cells ROWS COLS
        (fun row col => on_edge ROWS COLS row col
                        && (get m row col =? EXIT)%char) <=? 1).

(** Exactly one entry and exactly one exit, on the edge, in two cells. *)
Definition one_entry_one_exit (ROWS COLS : Z) (m : matrix) : Prop :=
  exists er ec xr xc,
    in_bounds ROWS COLS er ec /\ in_bounds ROWS COLS xr xc
    /\ on_edge ROWS COLS er ec = true /\ on_edge ROWS COLS xr xc = true
    /\ (er, ec) <> (xr, xc)
    /\ (forall r c, in_bounds ROWS COLS r c ->
          get m r c = ENTRY <-> (r, c) = (er, ec))
    /\ (forall r c, in_bounds ROWS COLS r c ->
          get m r c = EXIT <-> (r, c) = (xr, xc)).

(** Consecutive draws of the tape differ modulo [n]: the rejection loop
    of [place_entry_exit_points] then stops at its first draw. *)
Fixpoint alternating (n : Z) (t : tape) : Prop :=
  match t with
  | a :: (b :: _) as t' => Z.rem a n <> Z.rem b n /\ alternating n t'
  | _ => True
  end.

(** The invariant of the fill loop of [randomize_matrix], started on
    matrix [m] with tape [t], when the scan is about to process
    [(row, col)] with matrix [m'] and tape [t']: the cells not yet scanned
    are as in [m]; a scanned cell is open (then it satisfies
    [placement_ok] and some draw passed the density test), or closed, or
    an edge marker that was skipped. *)
Definition fill_inv (ROWS COLS : Z) (RAND_MAX : positive) (density : Q)
    (m : matrix) (t : tape) (row col : Z) (m' : matrix) (t' : tape) : Prop :=
  well_formed ROWS COLS m' = true
  /\ t' `suffix_of` t
  /\ (forall r c, ~ scanned_before r c row col -> get m' r c = get m r c)
  /\ (forall r c, in_bounds ROWS COLS r c -> scanned_before r c row col ->
        (get m' r c = OPEN /\ placement_ok m' r c
         /\ exists r0, r0 ∈ t
              /\ Qle_bool (random_value RAND_MAX r0) density = true)
        \/ get m' r c = CLOSED
        \/ (on_edge ROWS COLS r c = true /\ get m' r c = get m r c
            /\ (get m r c = ENTRY \/ get m r c = EXIT))).

(** The value of [counter] in [place_entry_exit_points] when the scan is
    about to process [(row, col)]: the number of edge cells before it. *)
Definition edges_before (ROWS COLS : Z) (row col : Z) : Z :=
  (if row =? 0 then 0
   else if row <? ROWS then COLS + 2 * (row - 1)
   else 2 * COLS + 2 * (ROWS - 2))
  + (if (row =? 0) || (row =? ROWS - 1) then col
     else if col =? 0 then 0
     else if col <? COLS then 1
     else 2).

(** The marker [ch] during the placement scan: once its flag is set it
    sits in exactly one cell, an edge cell already scanned; before that
    it is nowhere. *)
Definition placed (ROWS COLS : Z) (ch : ascii) (flag : bool) (row col : Z)
    (m : matrix) : Prop :=
  if flag then
    exists r c,
      in_bounds ROWS COLS r c /\ on_edge ROWS COLS r c = true
      /\ scanned_before r c row col
      /\ forall r' c', in_bounds ROWS COLS r' c' ->
           get m r' c' = ch <-> (r', c') = (r, c)
  else forall r c, in_bounds ROWS COLS r c -> get m r c <> ch.

(** The invariant of the placement scan started on matrix [m0] with the
    drawn positions [e] and [x]. *)
Definition place_inv (ROWS COLS : Z) (m0 : matrix) (e x : Z) (row col : Z)
    (s : place_state) : Prop :=
  well_formed ROWS COLS s.1.1.1 = true
  /\ s.1.1.2 = edges_before ROWS COLS row col
  /\ s.1.2 = (e <? s.1.1.2)
  /\ s.2 = (x <? s.1.1.2)
  /\ (forall r c, get s.1.1.1 r c = get m0 r c
                  \/ get s.1.1.1 r c = ENTRY \/ get s.1.1.1 r c = EXIT)
  /\ placed ROWS COLS ENTRY s.1.2 row col s.1.1.1
  /\ placed ROWS COLS EXIT s.2 row col s.1.1.1.

(** ** The two workers

    The thread functions as a step relation.  A step of a worker executes
    the statement at its program point; a worker waiting for the mutex has
    no step.  A whole pass ([generate_matrix], [randomize_matrix],
    [find_path]) is one step, taken while the mutex is held;
    [display_matrix], which the generation worker calls after unlocking,
    reads the matrix one row per step.  [sleep] is a program point of its
    own. *)

Inductive worker : Type :=
  | generation_worker
  | path_finding_worker.

(** Program points of [matrix_generation_thread_func]. *)
Inductive generation_pc : Type :=
  | gen_lock_first
  | gen_generate
  | gen_unlock_first
  | gen_lock
  | gen_randomize
  | gen_unlock
  | gen_display (row : Z)
  | gen_sleep.

(** Program points of [path_finding_thread_func]. *)
Inductive path_finding_pc : Type :=
  | pf_lock
  | pf_find_path
  | pf_unlock
  | pf_sleep.

Record system : Type := mkSystem {
  shared_matrix : matrix;
  rand_tape : tape;
  matrix_mutex : option worker;
  gen_at : generation_pc;
  pf_at : path_finding_pc;
  displayed : list (list ascii);
  reported : list report
}.

(** The program points between a worker's lock and its unlock. *)
Definition gen_holds (pc : generation_pc) : bool :=
  match pc with
  | gen_generate | gen_unlock_first | gen_randomize | gen_unlock => true
  | _ => false
  end.

Definition pf_holds (pc : path_finding_pc) : bool :=
  match pc with
  | pf_find_path | pf_unlock => true
  | _ => false
  end.

(** The generation worker is inside [display_matrix], reading the matrix. *)
Definition gen_reads (pc : generation_pc) : bool :=
  match pc with
  | gen_display _ => true
  | _ => false
  end.

Section Workers.

Variables ROWS COLS : Z.
Variable RAND_MAX : positive.
Variable density : Q.

(** The cells read by one iteration of the row loop of [display_matrix]. *)
Definition display_row (m : matrix) (row : Z) : list ascii :=
  map (get m row) (seqZ 0 COLS).

Definition generation_step (s : system) : option system :=
  let '(mkSystem m t mu g p d r) := s in
  match g with
  | gen_lock_first =>
      match mu with
      | None => Some (mkSystem m t (Some generation_worker) gen_generate p d r)
      | Some _ => None
      end
  | gen_generate =>
      match generate_matrix ROWS COLS RAND_MAX density t m with
      | Some (m', t') => Some (mkSystem m' t' mu gen_unlock_first p d r)
      | None => None
      end
  | gen_unlock_first => Some (mkSystem m t None gen_lock p d r)
  | gen_lock =>
      match mu with
      | None => Some (mkSystem m t (Some generation_worker) gen_randomize p d r)
      | Some _ => None
      end
  | gen_randomize =>
      match randomize_matrix ROWS COLS RAND_MAX density t m with
      | Some (m', t') => Some (mkSystem m' t' mu gen_unlock p d r)
      | None => None
      end
  | gen_unlock => Some (mkSystem m t None (gen_display 0) p [] r)
  | gen_display row =>
      if row <? ROWS
      then Some (mkSystem m t mu (gen_display (row + 1)) p
                          (d ++ [display_row m row]) r)
      else Some (mkSystem m t mu gen_sleep p d r)
  | gen_sleep => Some (mkSystem m t mu gen_lock p d r)
  end.

Definition path_finding_step (s : system) : option system :=
  let '(mkSystem m t mu g p d r) := s in
  match p with
  | pf_lock =>
      match mu with
      | None => Some (mkSystem m t (Some path_finding_worker) g pf_find_path d r)
      | Some _ => None
      end
  | pf_find_path =>
      match find_path ROWS COLS m with
      | Some (rep, m') => Some (mkSystem m' t mu g pf_unlock d (r ++ [rep]))
      | None => None
      end
  | pf_unlock => Some (mkSystem m t None g pf_sleep d r)
  | pf_sleep => Some (mkSystem m t mu g pf_lock d r)
  end.

Definition step (w : worker) (s : system) : option system :=
  match w with
  | generation_worker => generation_step s
  | path_finding_worker => path_finding_step s
  end.

(** The system after the workers have moved in the order [schedule]. *)
Fixpoint run (schedule : list worker) (s : system) : option system :=
  match schedule with
  | [] => Some s
  | w :: schedule' =>
      match step w s with
      | Some s' => run schedule' s'
      | None => None
      end
  end.

(** Both threads created, the mutex free, the matrix as allocated. *)
Definition initial (m : matrix) (t : tape) : system :=
  mkSystem m t None gen_lock_first pf_lock [] [].

End Workers.

(** The lock discipline: the mutex is held by the worker that is between
    its lock and its unlock, and the two workers are never both there. *)
Definition lock_discipline (s : system) : Prop :=
  matrix_mutex s
    = (if gen_holds (gen_at s) then Some generation_worker
       else if pf_holds (pf_at s) then Some path_finding_worker
       else None)
  /\ gen_holds (gen_at s) && pf_holds (pf_at s) = false.

(** What the generation worker maintains: the matrix keeps its shape and
    the tape its range; once the first pass is done the matrix holds at
    most one marker of each kind on its edge, and when a pass has just been
    made (the worker is about to unlock) it holds exactly one of each. *)
Definition generation_invariant (ROWS COLS : Z) (s : system) : Prop :=
  well_formed ROWS COLS (shared_matrix s) = true
  /\ Forall (fun r => 0 <= r) (rand_tape s)
  /\ match gen_at s with
     | gen_lock_first | gen_generate => True
     | gen_unlock_first | gen_unlock =>
         one_entry_one_exit ROWS COLS (shared_matrix s)
     | _ => single_markers ROWS COLS (shared_matrix s) = true
     end.

(** ** Sample matrices, tapes and schedules *)

(** The [RAND_MAX] of the GNU C library, and three draws above half of
    it; the last two are 6 and 7 modulo 8. *)
Definition RAND_MAX_31 : positive := 2147483647.
Definition high : Z := 2000000000.
Definition high6 : Z := 2000000006.
Definition high7 : Z := 2000000007.

Definition rows_of (lines : list String.string) : matrix :=
  map String.list_ascii_of_string lines.

(** A matrix of closed cells. *)
Definition closed_matrix (rows cols : nat) : matrix :=
  replicate rows (replicate cols CLOSED).

(** A 3 by 3 matrix with two entry markers on its edge. *)
Definition two_entries : matrix := rows_of ["SXS"; "XXX"; "XXE"]%string.
Definition two_entries_tape : tape :=
  [high; high; high; high; high; high; 6; 7].

(** A 3 by 3 pass from closed cells. *)
Definition small_tape : tape :=
  [high; 1; high; 1; high; high; high; high; high; high6; high7].
Definition small_result : matrix := rows_of ["X X"; " XX"; "XSE"]%string.

(** The tape of a second pass over [small_result]. *)
Definition second_tape : tape :=
  [1; high; high; high; high; high; high; high6; high7; high6; high7].

(** A 5 by 5 pass in which the cells (1,1), (2,1), (2,2) and (3,3) pass
    the density test. *)
Definition corner_tape : tape :=
  [high; high; high; high; high;  high; 1; high; high; high;
   high; 1; 1; high; high;  high; high; high; 1; high;
   high; high; high; high; high;  0; 1].
Definition corner_result : matrix :=
  rows_of ["SEXXX"; "X XXX"; "X  XX"; "XXX X"; "XXXXX"]%string.

(** 5 by 5 tapes for density 0: one with a zero draw at cell (2,2), one
    with positive draws only. *)
Definition zero_draw_tape : tape :=
  [high; high; high; high; high;  high; high; high; high; high;
   high; high; 0; high; high;  high; high; high; high; high;
   high; high; high; high; high;  8; 9].
Definition positive_tape : tape :=
  [high; high; high; high; high;  high; high; high; high; high;
   high; high; high; high; high;  high; high; high; high; high;
   high; high; high; high; high;  8; 9].

(** A corridor from the entry to the exit. *)
Definition corridor : matrix := rows_of ["S E"; "XXX"; "XXX"]%string.

(** The exit to the left of the entry, an open cell to its right. *)
Definition exit_on_the_left : matrix :=
  rows_of ["ES X"; "XXXX"; "XXXX"]%string.

(** A dead end. *)
Definition dead_end : matrix := rows_of ["S X"; "X X"; "XXE"]%string.

(** A run of the two workers: the first pass, a second pass, the first row
    of [display_matrix], then a whole search pass before the display goes
    on. *)
Definition torn_tape : tape :=
  [high; high; high; high; high; high; high; high; high; 0; 1;
   high; 1; high; high; high; high; high; 0; 5].
Definition search_during_display : list worker :=
  [generation_worker; generation_worker; generation_worker;
   generation_worker; generation_worker; generation_worker;
   generation_worker; path_finding_worker].
Definition torn_display : list worker :=
  search_during_display
  ++ [path_finding_worker; generation_worker; path_finding_worker;
      generation_worker; generation_worker].

(** ** Reachability in the matrix *)

(** [(r', c')] is one step up, down, left or right of [(r, c)]. *)
Definition adjacent (r c r' c' : Z) : Prop :=
  (r' = r - 1 /\ c' = c) \/ (r' = r + 1 /\ c' = c)
  \/ (r' = r /\ c' = c - 1) \/ (r' = r /\ c' = c + 1).

(** [(r2, c2)] is joined to [(r, c)] by a chain of neighbouring cells of
    the matrix, all of them expandable, both ends included. *)
Inductive connected (ROWS COLS : Z) (m : matrix) : Z -> Z -> Z -> Z -> Prop :=
  | connected_here (r c : Z) :
      in_bounds ROWS COLS r c -> expandable (get m r c) ->
      connected ROWS COLS m r c r c
  | connected_step (r c r1 c1 r2 c2 : Z) :
      in_bounds ROWS COLS r c -> expandable (get m r c) ->
      adjacent r c r1 c1 ->
      connected ROWS COLS m r1 c1 r2 c2 ->
      connected ROWS COLS m r c r2 c2.

(** The exit cell [(er, ec)] is [(r, c)] itself or a neighbour of a cell
    connected to [(r, c)]. *)
Definition reaches_exit (ROWS COLS : Z) (m : matrix) (r c er ec : Z) : Prop :=
  in_bounds ROWS COLS er ec /\ get m er ec = EXIT
  /\ ((r, c) = (er, ec)
      \/ exists r1 c1, connected ROWS COLS m r c r1 c1
                       /\ adjacent r1 c1 er ec).

(** ** display_matrix *)

(** The colour escapes of the source. *)
Inductive colour : Type :=
  | ANSI_BRIGHT_WHITE
  | ANSI_BRIGHT_BLACK
  | ANSI_GREEN
  | ANSI_RED
  | ANSI_RESET.

(** The [switch] of [display_matrix]: the colour in which the square of a
    cell is printed.  The [switch] has no [default]: for a character that
    is none of the six no square is printed. *)
Definition cell_colour (ch : ascii) : option colour :=
  if (ch =? OPEN)%char then Some ANSI_BRIGHT_WHITE
  else if (ch =? CLOSED)%char then Some ANSI_BRIGHT_BLACK
  else if (ch =? ENTRY)%char || (ch =? EXIT)%char then Some ANSI_GREEN
  else if (ch =? PATH)%char then Some ANSI_RED
  else if (ch =? VISITED)%char then Some ANSI_RESET
  else None.

(** The characters a generation pass writes, and those a search adds. *)
Definition generated_cell (ch : ascii) : Prop :=
  ch = OPEN \/ ch = CLOSED \/ ch = ENTRY \/ ch = EXIT.

Definition searched_cell (ch : ascii) : Prop :=
  generated_cell ch \/ ch = VISITED.

(** What the two workers maintain about the characters: once the first
    pass is done every cell of the matrix holds one of the five characters
    the passes write, and so does every cell [display_matrix] has read. *)
Definition cells_invariant (ROWS COLS : Z) (s : system) : Prop :=
  match gen_at s with
  | gen_lock_first | gen_generate => True
  | gen_display row =>
      0 <= row
      /\ forall r c, in_bounds ROWS COLS r c ->
           searched_cell (get (shared_matrix s) r c)
  | _ => forall r c, in_bounds ROWS COLS r c ->
           searched_cell (get (shared_matrix s) r c)
  end
  /\ Forall (Forall searched_cell) (displayed s).

(** A 1 by 4 matrix, and a tape whose first draw is 4 modulo the
    perimeter length 6. *)
Definition single_row : matrix := rows_of ["XXXX"]%string.
Definition single_row_tape : tape := [4; 1].

(** A 3 by 3 matrix as a search and an earlier pass can leave it, and the
    tape of a pass over it. *)
Definition searched : matrix := rows_of [".. "; "XSP"; "E.X"]%string.
Definition searched_tape : tape :=
  [1; high; high; high; high; high; high; 1; 1; 0].
Definition searched_result : matrix := rows_of ["ESX"; "XXX"; "XX "]%string.

(** The states reached after the first pass of the generation worker and
    at the end of [torn_display]. *)
Definition first_pass : list worker := [generation_worker; generation_worker].
Definition after_first_pass : system :=
  mkSystem (rows_of ["SEX"; "XXX"; "XXX"]%string)
           [high; 1; high; high; high; high; high; 0; 5]
           (Some generation_worker) gen_unlock_first pf_lock [] [].
Definition second_pass : list worker :=
  first_pass ++ [generation_worker; generation_worker; generation_worker].
Definition after_second_pass : system :=
  mkSystem (rows_of ["SXX"; " XX"; "EXX"]%string) []
           (Some generation_worker) gen_unlock pf_lock [] [].
Definition display_and_search : list worker :=
  [generation_worker; generation_worker; path_finding_worker;
   path_finding_worker; generation_worker; path_finding_worker;
   generation_worker; generation_worker].
Definition after_torn_display : system :=
  mkSystem (rows_of [".XX"; ".XX"; "EXX"]%string) [] None gen_sleep pf_sleep
           (rows_of ["SXX"; ".XX"; "EXX"]%string) [PartialPathFound 0 0 2 0].

(** The rank of a cell among the edge cells: the number of edge cells
    scanned before it, which is the value of [counter] in
    [place_entry_exit_points] when the scan reaches it. *)
Definition scanned_before_b (r c row col : Z) : bool :=
  (r <? row) || ((r =? row) && (c <? col)).

Definition edge_rank (ROWS COLS row col : Z) : Z :=
  count_cells ROWS COLS
    (fun r c => on_edge ROWS COLS r c && scanned_before_b r c row col).

(** The number of steps the generation worker takes in a schedule. *)
Fixpoint generation_steps (schedule : list worker) : nat :=
  match schedule with
  | [] => O
  | generation_worker :: schedule' => S (generation_steps schedule')
  | path_finding_worker :: schedule' => generation_steps schedule'
  end.

(** Every cell [display_matrix] has read is the cell of [m0] at the same
    place, or a visited mark. *)
Definition shows (m0 : matrix) (d : list (list ascii)) : Prop :=
  forall (i : nat) (line : list ascii), d !! i = Some line ->
    forall (c : nat) (ch : ascii), line !! c = Some ch ->
      ch = get m0 (Z.of_nat i) (Z.of_nat c) \/ ch = VISITED.

(** The generation worker from its unlock to its next lock, with [k] of
    its steps still to come: the matrix is [m0], the matrix it unlocked,
    up to visited marks, and so is what it has displayed. *)
Definition display_invariant (ROWS COLS : Z) (m0 : matrix) (k : nat)
    (s : system) : Prop :=
  well_formed ROWS COLS (shared_matrix s) = true
  /\ (forall r c, in_bounds ROWS COLS r c ->
        get (shared_matrix s) r c = get m0 r c
        \/ get (shared_matrix s) r c = VISITED)
  /\ match gen_at s with
     | gen_unlock => Z.of_nat k <= ROWS + 3
     | gen_display row =>
         0 <= row <= ROWS /\ Z.of_nat k <= ROWS - row + 2
         /\ length (displayed s) = Z.to_nat row /\ shows m0 (displayed s)
     | gen_sleep =>
         Z.of_nat k <= 1
         /\ length (displayed s) = Z.to_nat ROWS /\ shows m0 (displayed s)
     | gen_lock =>
         k = O
         /\ length (displayed s) = Z.to_nat ROWS /\ shows m0 (displayed s)
     | _ => False
     end.

(** * Properties *)

(** ** Reading and writing cells *)

Section MatrixFacts.

Variables ROWS COLS : Z.

Local Abbreviation wf := (well_formed ROWS COLS).
Local Abbreviation inb := (in_bounds ROWS COLS).

Lemma well_formed_length (m : matrix) :
  wf m = true -> length m = Z.to_nat ROWS.
Proof.
  unfold well_formed. intros [H _]%andb_prop.
  by apply Nat.eqb_eq in H.
Qed.

Lemma well_formed_line (m : matrix) (i : nat) (line : list ascii) :
  wf m = true -> m !! i = Some line -> length line = Z.to_nat COLS.
Proof.
  unfold well_formed. intros [_ H]%andb_prop Hi.
  rewrite forallb_forall in H.
  apply Nat.eqb_eq, H, list_elem_of_In. by eapply list_elem_of_lookup_2.
Qed.

Lemma well_formed_intro (m : matrix) :
  length m = Z.to_nat ROWS ->
  (forall i line, m !! i = Some line -> length line = Z.to_nat COLS) ->
  wf m = true.
Proof.
  intros Hlen Hline. unfold well_formed.
  apply andb_true_intro. split; [by apply Nat.eqb_eq|].
  apply forallb_forall. intros line Hin%list_elem_of_In.
  apply list_elem_of_lookup_1 in Hin as [i Hi].
  apply Nat.eqb_eq. by eapply Hline.
Qed.

Lemma get_set_same (m : matrix) (row col : Z) (ch : ascii) :
  wf m = true -> inb row col ->
  get (set m row col ch) row col = ch.
Proof.
  intros Hwf [Hr Hc]. unfold get, set.
  replace ((0 <=? row) && (0 <=? col)) with true
    by (symmetry; apply andb_true_intro; split; lia).
  destruct (m !! Z.to_nat row) as [line|] eqn:Hline; cbv iota.
  - rewrite list_lookup_insert_eq
      by (apply lookup_lt_Some in Hline; lia).
    rewrite list_lookup_insert_eq; [done|].
    rewrite (well_formed_line m _ line Hwf Hline). lia.
  - apply lookup_ge_None in Hline.
    rewrite (well_formed_length m Hwf) in Hline. lia.
Qed.

Lemma get_set_other (m : matrix) (row col r c : Z) (ch : ascii) :
  (r, c) <> (row, col) ->
  get (set m row col ch) r c = get m r c.
Proof.
  intros Hne. unfold get, set.
  destruct ((0 <=? row) && (0 <=? col)) eqn:Hrc; [|done].
  destruct ((0 <=? r) && (0 <=? c)) eqn:Hrc'; [|done].
  apply andb_prop in Hrc as [? ?], Hrc' as [? ?].
  destruct (m !! Z.to_nat row) as [line|] eqn:Hline; [|done].
  destruct (decide (Z.to_nat r = Z.to_nat row)) as [Heq|Hneq].
  - rewrite Heq, Hline.
    rewrite list_lookup_insert_eq by (apply lookup_lt_Some in Hline; lia).
    rewrite list_lookup_insert_ne; [done|].
    intros Hcol. apply Hne. f_equal; lia.
  - by rewrite list_lookup_insert_ne.
Qed.

Lemma get_set (m : matrix) (row col r c : Z) (ch : ascii) :
  wf m = true -> inb row col ->
  get (set m row col ch) r c =
    if decide ((r, c) = (row, col)) then ch else get m r c.
Proof.
  intros Hwf Hin. destruct (decide _) as [[= -> ->]|Hne].
  - by apply get_set_same.
  - by apply get_set_other.
Qed.

Lemma well_formed_set (m : matrix) (row col : Z) (ch : ascii) :
  wf m = true -> wf (set m row col ch) = true.
Proof.
  intros Hwf. unfold set.
  destruct ((0 <=? row) && (0 <=? col)); [|done].
  destruct (m !! Z.to_nat row) as [line|] eqn:Hline; [|done].
  apply well_formed_intro.
  - rewrite length_insert. by apply well_formed_length.
  - intros i line' Hi.
    destruct (decide (i = Z.to_nat row)) as [->|Hneq].
    + rewrite list_lookup_insert_eq in Hi
        by (apply lookup_lt_Some in Hline; lia).
      injection Hi as <-. rewrite length_insert.
      by eapply well_formed_line.
    + rewrite list_lookup_insert_ne in Hi by done.
      by eapply well_formed_line.
Qed.

Lemma get_outside (m : matrix) (row col : Z) :
  wf m = true -> ~ inb row col -> get m row col = "000"%char.
Proof.
  intros Hwf Hout. unfold get.
  destruct ((0 <=? row) && (0 <=? col)) eqn:Hrc; [|done].
  apply andb_prop in Hrc as [? ?].
  destruct (m !! Z.to_nat row) as [line|] eqn:Hline; [|done].
  destruct (line !! Z.to_nat col) as [ch|] eqn:Hch; [|done].
  exfalso. apply Hout.
  apply lookup_lt_Some in Hch.
  rewrite (well_formed_line m _ line Hwf Hline) in Hch.
  apply lookup_lt_Some in Hline.
  rewrite (well_formed_length m Hwf) in Hline.
  unfold in_bounds. lia.
Qed.

Lemma matrix_ext (m1 m2 : matrix) :
  wf m1 = true -> wf m2 = true ->
  (forall row col, inb row col -> get m1 row col = get m2 row col) ->
  m1 = m2.
Proof.
  intros Hwf1 Hwf2 Hget.
  pose proof (well_formed_length _ Hwf1) as Hl1.
  pose proof (well_formed_length _ Hwf2) as Hl2.
  apply (list_eq_same_length _ _ (Z.to_nat ROWS)); [done..|].
  intros i line1 line2 Hi H1 H2.
  pose proof (well_formed_line _ _ _ Hwf1 H1) as Hc1.
  pose proof (well_formed_line _ _ _ Hwf2 H2) as Hc2.
  apply (list_eq_same_length _ _ (Z.to_nat COLS)); [done..|].
  intros j ch1 ch2 Hj Hch1 Hch2.
  specialize (Hget (Z.of_nat i) (Z.of_nat j)).
  unfold get in Hget. simpl in Hget.
  replace ((0 <=? Z.of_nat i) && (0 <=? Z.of_nat j)) with true in Hget
    by (symmetry; apply andb_true_intro; split; lia).
  rewrite !Nat2Z.id, H1, H2, Hch1, Hch2 in Hget.
  apply Hget. unfold in_bounds. lia.
Qed.

End MatrixFacts.

(** ** Invariant rules for the loops *)

Section Loops.

Context {S : Type}.

Lemma foldl_seqZ_ind (I : Z -> S -> Prop) (body : Z -> S -> S) (len : nat) :
  forall (k : Z) (s : S),
    I k s ->
    (forall i s, k <= i < k + Z.of_nat len -> I i s -> I (i + 1) (body i s)) ->
    I (k + Z.of_nat len) (foldl (fun s i => body i s) s (seqZ k (Z.of_nat len))).
Proof.
  induction len as [|len IH]; intros k s Hk Hstep.
  - rewrite seqZ_nil by lia. simpl. by rewrite Z.add_0_r.
  - rewrite seqZ_cons by lia. simpl.
    replace (Z.pred (Z.of_nat (Datatypes.S len))) with (Z.of_nat len) by lia.
    replace (k + Z.of_nat (Datatypes.S len)) with (Z.succ k + Z.of_nat len) by lia.
    apply IH.
    + replace (Z.succ k) with (k + 1) by lia. apply Hstep; [lia|done].
    + intros i s' Hi. apply Hstep. lia.
Qed.

Lemma for_loop_ind (I : Z -> S -> Prop) (n : Z) (body : Z -> S -> S) (s : S) :
  0 <= n ->
  I 0 s ->
  (forall i s, 0 <= i < n -> I i s -> I (i + 1) (body i s)) ->
  I n (for_loop n body s).
Proof.
  intros Hn H0 Hstep. unfold for_loop.
  pose proof (foldl_seqZ_ind I body (Z.to_nat n) 0 s) as H.
  rewrite Z2Nat.id in H by done. simpl in H.
  apply H; [done|]. intros i s' Hi. apply Hstep. lia.
Qed.

Lemma for_each_opt_seqZ_ind (I : Z -> S -> Prop) (body : Z -> S -> option S)
    (len : nat) :
  forall (k : Z) (s s' : S),
    I k s ->
    (forall i s s', k <= i < k + Z.of_nat len ->
       I i s -> body i s = Some s' -> I (i + 1) s') ->
    for_each_opt body (seqZ k (Z.of_nat len)) s = Some s' ->
    I (k + Z.of_nat len) s'.
Proof.
  induction len as [|len IH]; intros k s s' Hk Hstep Hrun.
  - rewrite seqZ_nil in Hrun by lia. simpl in Hrun.
    injection Hrun as <-. simpl. by rewrite Z.add_0_r.
  - rewrite seqZ_cons in Hrun by lia. simpl in Hrun.
    replace (Z.pred (Z.of_nat (Datatypes.S len))) with (Z.of_nat len) in Hrun by lia.
    replace (k + Z.of_nat (Datatypes.S len)) with (Z.succ k + Z.of_nat len) by lia.
    destruct (body k s) as [s1|] eqn:Hbody; [|done].
    apply (IH (Z.succ k) s1 s'); [| |done].
    + replace (Z.succ k) with (k + 1) by lia. by apply (Hstep k s); [lia|..].
    + intros i s0 s0' Hi. apply Hstep. lia.
Qed.

Lemma for_loop_opt_ind (I : Z -> S -> Prop) (n : Z) (body : Z -> S -> option S)
    (s s' : S) :
  0 <= n ->
  I 0 s ->
  (forall i s s', 0 <= i < n -> I i s -> body i s = Some s' -> I (i + 1) s') ->
  for_loop_opt n body s = Some s' ->
  I n s'.
Proof.
  intros Hn H0 Hstep. unfold for_loop_opt.
  pose proof (for_each_opt_seqZ_ind I body (Z.to_nat n) 0 s s') as H.
  rewrite Z2Nat.id in H by done. simpl in H.
  intros Hrun. apply H; [done| |done]. intros i s0 s0' Hi. apply Hstep. lia.
Qed.

Lemma for_each_opt_seqZ_total (I : Z -> S -> Prop) (body : Z -> S -> option S)
    (len : nat) :
  forall (k : Z) (s : S),
    I k s ->
    (forall i s, k <= i < k + Z.of_nat len -> I i s ->
       exists s', body i s = Some s' /\ I (i + 1) s') ->
    exists s', for_each_opt body (seqZ k (Z.of_nat len)) s = Some s'
               /\ I (k + Z.of_nat len) s'.
Proof.
  induction len as [|len IH]; intros k s Hk Hstep.
  - rewrite seqZ_nil by lia. simpl. exists s. by rewrite Z.add_0_r.
  - rewrite seqZ_cons by lia. simpl.
    replace (Z.pred (Z.of_nat (Datatypes.S len))) with (Z.of_nat len) by lia.
    replace (k + Z.of_nat (Datatypes.S len)) with (Z.succ k + Z.of_nat len) by lia.
    destruct (Hstep k s) as (s1 & -> & H1); [lia|done|].
    apply IH.
    + by replace (Z.succ k) with (k + 1) by lia.
    + intros i s0 Hi. apply Hstep. lia.
Qed.

Lemma for_loop_opt_total (I : Z -> S -> Prop) (n : Z) (body : Z -> S -> option S)
    (s : S) :
  0 <= n ->
  I 0 s ->
  (forall i s, 0 <= i < n -> I i s ->
     exists s', body i s = Some s' /\ I (i + 1) s') ->
  exists s', for_loop_opt n body s = Some s' /\ I n s'.
Proof.
  intros Hn H0 Hstep. unfold for_loop_opt.
  pose proof (for_each_opt_seqZ_total I body (Z.to_nat n) 0 s) as H.
  rewrite Z2Nat.id in H by done. simpl in H.
  apply H; [done|]. intros i s0 Hi. apply Hstep. lia.
Qed.

Variables ROWS COLS : Z.
Hypothesis ROWS_nonneg : 0 <= ROWS.
Hypothesis COLS_nonneg : 0 <= COLS.

(** The invariant [I row col s] is stated at the scan position that is
    about to be processed. *)
Lemma for_cells_ind (I : Z -> Z -> S -> Prop) (body : Z -> Z -> S -> S) (s : S) :
  I 0 0 s ->
  (forall row col s, 0 <= row < ROWS -> 0 <= col < COLS ->
     I row col s -> I row (col + 1) (body row col s)) ->
  (forall row s, 0 <= row < ROWS -> I row COLS s -> I (row + 1) 0 s) ->
  I ROWS 0 (for_cells ROWS COLS body s).
Proof.
  intros H0 Hcell Hrow. unfold for_cells.
  apply (for_loop_ind (fun row s => I row 0 s)); [done..|].
  intros row s0 Hr Hs0. apply Hrow; [done|].
  apply (for_loop_ind (fun col s => I row col s)); [done..|].
  intros col s1 Hc Hs1. by apply Hcell.
Qed.

Lemma for_cells_opt_ind (I : Z -> Z -> S -> Prop)
    (body : Z -> Z -> S -> option S) (s s' : S) :
  I 0 0 s ->
  (forall row col s s', 0 <= row < ROWS -> 0 <= col < COLS ->
     I row col s -> body row col s = Some s' -> I row (col + 1) s') ->
  (forall row s, 0 <= row < ROWS -> I row COLS s -> I (row + 1) 0 s) ->
  for_cells_opt ROWS COLS body s = Some s' ->
  I ROWS 0 s'.
Proof.
  intros H0 Hcell Hrow. unfold for_cells_opt.
  apply (for_loop_opt_ind (fun row s => I row 0 s)); [done..|].
  intros row s0 s0' Hr Hs0 Hrun. apply Hrow; [done|].
  revert Hrun.
  apply (for_loop_opt_ind (fun col s => I row col s)); [done..|].
  intros col s1 s1' Hc Hs1. by apply Hcell.
Qed.

Lemma for_cells_opt_total (I : Z -> Z -> S -> Prop)
    (body : Z -> Z -> S -> option S) (s : S) :
  I 0 0 s ->
  (forall row col s, 0 <= row < ROWS -> 0 <= col < COLS -> I row col s ->
     exists s', body row col s = Some s' /\ I row (col + 1) s') ->
  (forall row s, 0 <= row < ROWS -> I row COLS s -> I (row + 1) 0 s) ->
  exists s', for_cells_opt ROWS COLS body s = Some s' /\ I ROWS 0 s'.
Proof.
  intros H0 Hcell Hrow. unfold for_cells_opt.
  apply (for_loop_opt_total (fun row s => I row 0 s)); [done..|].
  intros row s0 Hr Hs0.
  destruct (for_loop_opt_total (fun col s => I row col s) COLS
              (fun col => body row col) s0) as (s1 & Hrun & Hs1); [done..| |].
  - intros col s1 Hc Hs1. by apply Hcell.
  - exists s1. split; [done|]. by apply Hrow.
Qed.

End Loops.

(** ** The depth-first search *)

Section Search.

Variables ROWS COLS : Z.
Hypothesis ROWS_pos : 1 <= ROWS.
Hypothesis COLS_pos : 1 <= COLS.

Local Abbreviation wf := (well_formed ROWS COLS).
Local Abbreviation inb := (in_bounds ROWS COLS).

Lemma ascii_eqb_false (a b : ascii) : (a =? b)%char = false <-> a <> b.
Proof. apply Ascii.eqb_neq. Qed.

Lemma marks_refl (m : matrix) : wf m = true -> marks ROWS COLS m m [].
Proof.
  intros Hwf. split; [done|]. split; [constructor|].
  split; [by intros r c ?%elem_of_nil|done].
Qed.

Lemma marks_set (m : matrix) (row col : Z) :
  wf m = true -> inb row col -> expandable (get m row col) ->
  marks ROWS COLS m (set m row col VISITED) [(row, col)].
Proof.
  intros Hwf Hin Hexp. split; [by apply well_formed_set|].
  split; [apply NoDup_singleton|]. split.
  - intros r c [= -> ->]%list_elem_of_singleton.
    split; [done|]. split; [done|]. by eapply get_set_same.
  - intros r c Hnot. apply get_set_other.
    intros Heq. apply Hnot. rewrite Heq. by apply list_elem_of_singleton.
Qed.

Lemma marks_visited_stays (m m' : matrix) (log : list (Z * Z)) (row col : Z) :
  marks ROWS COLS m m' log ->
  get m row col = VISITED -> get m' row col = VISITED.
Proof.
  intros (_ & _ & Hin & Hout) Hv.
  destruct (decide ((row, col) ∈ log)) as [Hl|Hl].
  - by apply Hin.
  - by rewrite Hout.
Qed.

Lemma marks_not_expandable_stays (m m' : matrix) (log : list (Z * Z))
    (row col : Z) :
  marks ROWS COLS m m' log ->
  ~ expandable (get m row col) -> get m' row col = get m row col.
Proof.
  intros (_ & _ & Hin & Hout) Hne.
  destruct (decide ((row, col) ∈ log)) as [Hl|Hl].
  - destruct (Hin _ _ Hl) as (_ & Hexp & _). by destruct Hne.
  - by apply Hout.
Qed.

Lemma marks_expandable_back (m m' : matrix) (log : list (Z * Z))
    (row col : Z) :
  marks ROWS COLS m m' log ->
  expandable (get m' row col) -> expandable (get m row col).
Proof.
  intros (_ & _ & Hin & Hout) Hexp.
  destruct (decide ((row, col) ∈ log)) as [Hl|Hl].
  - destruct (Hin _ _ Hl) as (_ & _ & Hv). rewrite Hv in Hexp.
    by destruct Hexp as (_ & _ & ?).
  - by rewrite <- Hout.
Qed.

Lemma marks_trans (m1 m2 m3 : matrix) (log1 log2 : list (Z * Z)) :
  marks ROWS COLS m1 m2 log1 -> marks ROWS COLS m2 m3 log2 ->
  marks ROWS COLS m1 m3 (log1 ++ log2).
Proof.
  intros H12 H23.
  pose proof H12 as (Hwf2 & Hnd1 & Hin1 & Hout1).
  pose proof H23 as (Hwf3 & Hnd2 & Hin2 & Hout2).
  split; [done|]. split; [|split].
  - apply NoDup_app. split; [done|]. split; [|done].
    intros [r c] Hl1 Hl2.
    destruct (Hin1 _ _ Hl1) as (_ & _ & Hv).
    destruct (Hin2 _ _ Hl2) as (_ & (_ & _ & Hnv) & _). done.
  - intros r c [Hl|Hl]%elem_of_app.
    + destruct (Hin1 _ _ Hl) as (Hb & Hexp & Hv).
      split; [done|]. split; [done|]. by eapply marks_visited_stays.
    + destruct (Hin2 _ _ Hl) as (Hb & Hexp & Hv).
      split; [done|]. split; [|done]. by eapply marks_expandable_back.
  - intros r c Hnot. rewrite Hout2, Hout1; [done|..].
    + intros ?. apply Hnot, elem_of_app. by left.
    + intros ?. apply Hnot, elem_of_app. by right.
Qed.

Lemma marks_wf (m m' : matrix) (log : list (Z * Z)) :
  marks ROWS COLS m m' log -> wf m' = true.
Proof. by intros (? & _). Qed.

(** The conditions tested at the top of [dfs]. *)
Lemma outside_test (row col : Z) :
  (row <? 0) || (ROWS <=? row) || (col <? 0) || (COLS <=? col) = false
  <-> inb row col.
Proof.
  unfold in_bounds. rewrite !orb_false_iff.
  rewrite !Z.ltb_ge, !Z.leb_gt. lia.
Qed.

Lemma outside_test_false (row col : Z) :
  ~ inb row col ->
  (row <? 0) || (ROWS <=? row) || (col <? 0) || (COLS <=? col) = true.
Proof.
  intros Hout.
  destruct ((row <? 0) || (ROWS <=? row) || (col <? 0) || (COLS <=? col))
    eqn:Htest; [done|].
  by apply outside_test in Htest.
Qed.

Lemma expandable_test (ch : ascii) :
  (ch =? EXIT)%char = false ->
  (ch =? CLOSED)%char || (ch =? VISITED)%char = false ->
  expandable ch.
Proof.
  intros H1 [H2 H3]%orb_false_iff.
  by apply ascii_eqb_false in H1, H2, H3.
Qed.

(** Whatever [dfs] returns, the matrix it leaves differs from the one it
    was given exactly on the cells of its log. *)
Lemma dfs_marks (fuel : nat) :
  forall (m : matrix) (row col : Z) (p : Path) (m' : matrix)
         (log : list (Z * Z)),
    wf m = true ->
    dfs ROWS COLS fuel m row col = Some (p, m', log) ->
    marks ROWS COLS m m' log.
Proof.
  induction fuel as [|fuel IH]; intros m row col p m' log Hwf Hrun; [done|].
  simpl in Hrun.
  destruct ((row <? 0) || (ROWS <=? row) || (col <? 0) || (COLS <=? col))
    eqn:Hout.
  { injection Hrun as <- <- <-. by apply marks_refl. }
  apply outside_test in Hout.
  destruct (get m row col =? EXIT)%char eqn:Hexit.
  { injection Hrun as <- <- <-. by apply marks_refl. }
  destruct ((get m row col =? CLOSED)%char || (get m row col =? VISITED)%char)
    eqn:Hrej.
  { injection Hrun as <- <- <-. by apply marks_refl. }
  pose proof (expandable_test _ Hexit Hrej) as Hexp.
  pose proof (marks_set m row col Hwf Hout Hexp) as H0.
  destruct (dfs ROWS COLS fuel _ (row - 1) col)
    as [[[d0 m1] v0]|] eqn:E0; [|done].
  apply IH in E0; [|by eapply marks_wf].
  destruct (dfs ROWS COLS fuel m1 (row + 1) col)
    as [[[d1 m2] v1]|] eqn:E1; [|done].
  apply IH in E1; [|by eapply marks_wf].
  destruct (dfs ROWS COLS fuel m2 row (col - 1))
    as [[[d2 m3] v2]|] eqn:E2; [|done].
  apply IH in E2; [|by eapply marks_wf].
  destruct (dfs ROWS COLS fuel m3 row (col + 1))
    as [[[d3 m4] v3]|] eqn:E3; [|done].
  apply IH in E3; [|by eapply marks_wf].
  injection Hrun as <- <- <-.
  change ((row, col) :: v0 ++ v1 ++ v2 ++ v3)
    with ([(row, col)] ++ v0 ++ v1 ++ v2 ++ v3).
  eapply marks_trans; [exact H0|].
  eapply marks_trans; [exact E0|].
  eapply marks_trans; [exact E1|].
  eapply marks_trans; [exact E2|exact E3].
Qed.

(** The four ways a call of [dfs] that has fuel left can go. *)
Lemma dfs_inv (fuel : nat) (m : matrix) (row col : Z)
    (res : Path * matrix * list (Z * Z)) :
  dfs ROWS COLS (S fuel) m row col = Some res ->
  (~ inb row col /\ res = (no_path, m, []))
  \/ (inb row col /\ get m row col = EXIT
      /\ res = (mkPath row col row col true, m, []))
  \/ (inb row col /\ (get m row col = CLOSED \/ get m row col = VISITED)
      /\ res = (no_path, m, []))
  \/ (inb row col /\ expandable (get m row col)
      /\ exists d0 m1 v0 d1 m2 v1 d2 m3 v2 d3 m4 v3,
           dfs ROWS COLS fuel (set m row col VISITED) (row - 1) col
             = Some (d0, m1, v0)
           /\ dfs ROWS COLS fuel m1 (row + 1) col = Some (d1, m2, v1)
           /\ dfs ROWS COLS fuel m2 row (col - 1) = Some (d2, m3, v2)
           /\ dfs ROWS COLS fuel m3 row (col + 1) = Some (d3, m4, v3)
           /\ res = (first_found row col [d0; d1; d2; d3], m4,
                     (row, col) :: v0 ++ v1 ++ v2 ++ v3)).
Proof.
  intros Hrun. simpl in Hrun.
  destruct ((row <? 0) || (ROWS <=? row) || (col <? 0) || (COLS <=? col))
    eqn:Hout.
  { left. split; [|congruence].
    intros Hin%outside_test. congruence. }
  apply outside_test in Hout. right.
  destruct (get m row col =? EXIT)%char eqn:Hexit.
  { left. apply Ascii.eqb_eq in Hexit. split; [done|]. split; congruence. }
  right.
  destruct ((get m row col =? CLOSED)%char || (get m row col =? VISITED)%char)
    eqn:Hrej.
  { left. split; [done|]. split; [|congruence].
    apply orb_prop in Hrej as [H|H]; apply Ascii.eqb_eq in H; auto. }
  right. split; [done|]. split; [by apply expandable_test|].
  destruct (dfs ROWS COLS fuel _ (row - 1) col)
    as [[[d0 m1] v0]|] eqn:E0; [|done].
  destruct (dfs ROWS COLS fuel m1 (row + 1) col)
    as [[[d1 m2] v1]|] eqn:E1; [|done].
  destruct (dfs ROWS COLS fuel m2 row (col - 1))
    as [[[d2 m3] v2]|] eqn:E2; [|done].
  destruct (dfs ROWS COLS fuel m3 row (col + 1))
    as [[[d3 m4] v3]|] eqn:E3; [|done].
  exists d0, m1, v0, d1, m2, v1, d2, m3, v2, d3, m4, v3.
  repeat (split; [done|]). congruence.
Qed.

Lemma marks_back (m m' : matrix) (log : list (Z * Z)) (row col : Z) :
  marks ROWS COLS m m' log ->
  get m' row col <> VISITED -> get m row col = get m' row col.
Proof.
  intros (_ & _ & Hin & Hout) Hnv.
  destruct (decide ((row, col) ∈ log)) as [Hl|Hl].
  - by destruct (Hin _ _ Hl) as (_ & _ & ?).
  - by rewrite Hout.
Qed.

Lemma first_found_inv (row col : Z) (ds : list Path) :
  (found (first_found row col ds) = true ->
     exists d, d ∈ ds /\ found d = true
               /\ first_found row col ds
                  = mkPath row col (end_x d) (end_y d) true)
  /\ (found (first_found row col ds) = false ->
        first_found row col ds = no_path).
Proof.
  unfold first_found.
  destruct (find found ds) as [d|] eqn:Hfind.
  - apply find_some in Hfind as [Hd%list_elem_of_In Hf]. split; [|done].
    intros _. by exists d.
  - split; done.
Qed.

(** A successful call reports its own cell as the start and an exit cell
    as the end; an unsuccessful one returns the zeroed record. *)
Lemma dfs_path (fuel : nat) :
  forall (m : matrix) (row col : Z) (p : Path) (m' : matrix)
         (log : list (Z * Z)),
    wf m = true ->
    dfs ROWS COLS fuel m row col = Some (p, m', log) ->
    (found p = true ->
       start_x p = row /\ start_y p = col
       /\ inb (end_x p) (end_y p)
       /\ get m (end_x p) (end_y p) = EXIT)
    /\ (found p = false -> p = no_path).
Proof.
  induction fuel as [|fuel IH]; intros m row col p m' log Hwf Hrun; [done|].
  apply dfs_inv in Hrun
    as [(_ & [= -> -> ->])|[(Hin & Hex & [= -> -> ->])
       |[(_ & _ & [= -> -> ->])|(Hin & Hexp & Hrec)]]];
    [done|by simpl|done|].
  destruct Hrec as (d0 & m1 & v0 & d1 & m2 & v1 & d2 & m3 & v2 & d3 & m4 & v3
                    & E0 & E1 & E2 & E3 & [= -> -> ->]).
  pose proof (marks_set m row col Hwf Hin Hexp) as K.
  pose proof (dfs_marks fuel _ _ _ _ _ _ (marks_wf _ _ _ K) E0) as K0.
  pose proof (dfs_marks fuel _ _ _ _ _ _ (marks_wf _ _ _ K0) E1) as K1.
  pose proof (dfs_marks fuel _ _ _ _ _ _ (marks_wf _ _ _ K1) E2) as K2.
  pose proof (marks_trans _ _ _ _ _ K K0) as T0.
  pose proof (marks_trans _ _ _ _ _ T0 K1) as T1.
  pose proof (marks_trans _ _ _ _ _ T1 K2) as T2.
  destruct (first_found_inv row col [d0; d1; d2; d3]) as [Hyes Hno].
  split; [|done].
  intros Hf. destruct (Hyes Hf) as (d & Hd & Hfd & ->). simpl.
  split; [done|]. split; [done|].
  assert (Hexit_back : forall mi logi,
            marks ROWS COLS m mi logi ->
            get mi (end_x d) (end_y d) = EXIT ->
            get m (end_x d) (end_y d) = EXIT).
  { intros mi logi Hm He. erewrite marks_back; [done..|]. by rewrite He. }
  repeat (apply elem_of_cons in Hd as [->|Hd]).
  - destruct (IH _ _ _ _ _ _ (marks_wf _ _ _ K) E0) as [H _].
    destruct (H Hfd) as (_ & _ & Hb & He). eauto.
  - destruct (IH _ _ _ _ _ _ (marks_wf _ _ _ K0) E1) as [H _].
    destruct (H Hfd) as (_ & _ & Hb & He). eauto.
  - destruct (IH _ _ _ _ _ _ (marks_wf _ _ _ K1) E2) as [H _].
    destruct (H Hfd) as (_ & _ & Hb & He). eauto.
  - destruct (IH _ _ _ _ _ _ (marks_wf _ _ _ K2) E3) as [H _].
    destruct (H Hfd) as (_ & _ & Hb & He). eauto.
  - by apply elem_of_nil in Hd.
Qed.

(** After a call on a cell of the matrix, that cell is the exit, closed or
    visited. *)
Lemma dfs_settles (fuel : nat) (m : matrix) (row col : Z) (p : Path)
    (m' : matrix) (log : list (Z * Z)) :
  wf m = true -> inb row col ->
  dfs ROWS COLS fuel m row col = Some (p, m', log) ->
  ~ expandable (get m' row col).
Proof.
  intros Hwf Hin Hrun. pose proof (dfs_marks _ _ _ _ _ _ _ Hwf Hrun) as Hm.
  destruct fuel as [|fuel]; [done|].
  apply dfs_inv in Hrun
    as [(Hout & _)|[(_ & Hex & [= -> -> ->])
       |[(_ & Hcv & [= -> -> ->])|(_ & Hexp & Hrec)]]].
  - done.
  - rewrite Hex. by intros (? & _).
  - destruct Hcv as [-> | ->]; intros (? & ? & ?); done.
  - destruct Hm as (_ & _ & Hl & _).
    destruct Hrec as (d0 & m1 & v0 & d1 & m2 & v1 & d2 & m3 & v2 & d3 & m4 & v3
                    & _ & _ & _ & _ & [= -> -> ->]).
    destruct (Hl row col) as (_ & _ & Hv); [by left|].
    rewrite Hv. by intros (_ & _ & ?).
Qed.

(** With more fuel than there are expandable cells, [dfs] returns. *)
Lemma dfs_total (fuel : nat) :
  forall (m : matrix) (row col : Z) (pending : list (Z * Z)),
    wf m = true ->
    (forall r c, inb r c -> expandable (get m r c) -> (r, c) ∈ pending) ->
    (length pending < fuel)%nat ->
    exists res, dfs ROWS COLS fuel m row col = Some res.
Proof.
  induction fuel as [|fuel IH]; intros m row col pending Hwf Hcov Hlen; [lia|].
  simpl.
  destruct ((row <? 0) || (ROWS <=? row) || (col <? 0) || (COLS <=? col))
    eqn:Hout; [by eexists|].
  apply outside_test in Hout.
  destruct (get m row col =? EXIT)%char eqn:Hexit; [by eexists|].
  destruct ((get m row col =? CLOSED)%char || (get m row col =? VISITED)%char)
    eqn:Hrej; [by eexists|].
  pose proof (expandable_test _ Hexit Hrej) as Hexp.
  pose proof (marks_set m row col Hwf Hout Hexp) as K.
  destruct (list_elem_of_split pending (row, col)) as (l1 & l2 & ->);
    [by apply Hcov|].
  rewrite length_app in Hlen. simpl in Hlen.
  assert (Hcov0 : forall r c, inb r c ->
            expandable (get (set m row col VISITED) r c) ->
            (r, c) ∈ l1 ++ l2).
  { intros r c Hb He.
    destruct (decide ((r, c) = (row, col))) as [[= -> ->]|Hne].
    - rewrite (get_set_same ROWS COLS) in He by done. by destruct He as (_ & _ & ?).
    - rewrite get_set_other in He by done.
      specialize (Hcov r c Hb He).
      apply elem_of_app in Hcov as [?|Hcov]; [apply elem_of_app; by left|].
      apply elem_of_cons in Hcov as [?|?]; [done|].
      apply elem_of_app; by right. }
  assert (Hlen0 : (length (l1 ++ l2) < fuel)%nat)
    by (rewrite length_app; lia).
  destruct (IH _ (row - 1) col _ (marks_wf _ _ _ K) Hcov0 Hlen0)
    as ([[d0 m1] v0] & E0).
  pose proof (dfs_marks fuel _ _ _ _ _ _ (marks_wf _ _ _ K) E0) as K0.
  destruct (IH m1 (row + 1) col (l1 ++ l2) (marks_wf _ _ _ K0))
    as ([[d1 m2] v1] & E1); [|done|].
  { intros r c Hb He. apply Hcov0; [done|]. by eapply marks_expandable_back. }
  pose proof (dfs_marks fuel _ _ _ _ _ _ (marks_wf _ _ _ K0) E1) as K1.
  pose proof (marks_trans _ _ _ _ _ K0 K1) as T1.
  destruct (IH m2 row (col - 1) (l1 ++ l2) (marks_wf _ _ _ K1))
    as ([[d2 m3] v2] & E2); [|done|].
  { intros r c Hb He. apply Hcov0; [done|]. by eapply marks_expandable_back. }
  pose proof (dfs_marks fuel _ _ _ _ _ _ (marks_wf _ _ _ K1) E2) as K2.
  pose proof (marks_trans _ _ _ _ _ T1 K2) as T2.
  destruct (IH m3 row (col + 1) (l1 ++ l2) (marks_wf _ _ _ K2))
    as ([[d3 m4] v3] & E3); [|done|].
  { intros r c Hb He. apply Hcov0; [done|]. by eapply marks_expandable_back. }
  rewrite E0, E1, E2, E3. by eexists.
Qed.

(** More fuel does not change what [dfs] returns. *)
Lemma dfs_more_fuel (fuel : nat) :
  forall (m : matrix) (row col : Z) (res : Path * matrix * list (Z * Z)),
    dfs ROWS COLS fuel m row col = Some res ->
    dfs ROWS COLS (S fuel) m row col = Some res.
Proof.
  induction fuel as [|fuel IH]; intros m row col res Hrun; [done|].
  apply dfs_inv in Hrun
    as [(Hout & ->)|[(Hin & Hex & ->)|[(Hin & Hcv & ->)|(Hin & Hexp & Hrec)]]].
  - simpl. apply outside_test_false in Hout. by rewrite Hout.
  - simpl. apply outside_test in Hin. rewrite Hin, Hex.
    by rewrite Ascii.eqb_refl.
  - simpl. apply outside_test in Hin. rewrite Hin.
    destruct Hcv as [-> | ->]; done.
  - destruct Hrec as (d0 & m1 & v0 & d1 & m2 & v1 & d2 & m3 & v2 & d3 & m4 & v3
                      & E0 & E1 & E2 & E3 & ->).
    apply IH in E0, E1, E2, E3.
    destruct Hexp as (He & Hc & Hv).
    apply Ascii.eqb_neq in He, Hc, Hv. apply outside_test in Hin.
    change (dfs ROWS COLS (S (S fuel)) m row col) with
      (if (row <? 0) || (ROWS <=? row) || (col <? 0) || (COLS <=? col)
       then Some (no_path, m, [])
       else if (get m row col =? EXIT)%char
       then Some (mkPath row col row col true, m, [])
       else if (get m row col =? CLOSED)%char || (get m row col =? VISITED)%char
       then Some (no_path, m, [])
       else
         match dfs ROWS COLS (S fuel) (set m row col VISITED) (row - 1) col with
         | None => None
         | Some (d0, m1, v0) =>
         match dfs ROWS COLS (S fuel) m1 (row + 1) col with
         | None => None
         | Some (d1, m2, v1) =>
         match dfs ROWS COLS (S fuel) m2 row (col - 1) with
         | None => None
         | Some (d2, m3, v2) =>
         match dfs ROWS COLS (S fuel) m3 row (col + 1) with
         | None => None
         | Some (d3, m4, v3) =>
             Some (first_found row col [d0; d1; d2; d3], m4,
                   (row, col) :: v0 ++ v1 ++ v2 ++ v3)
         end end end end).
    by rewrite Hin, He, Hc, Hv, E0, E1, E2, E3.
Qed.

Lemma dfs_fuel_enough (fuel fuel' : nat) (m : matrix) (row col : Z)
    (res : Path * matrix * list (Z * Z)) :
  (fuel <= fuel')%nat ->
  dfs ROWS COLS fuel m row col = Some res ->
  dfs ROWS COLS fuel' m row col = Some res.
Proof.
  induction 1 as [|fuel' Hle IH]; [done|].
  intros Hrun. by apply dfs_more_fuel, IH.
Qed.

Lemma all_cells_spec (row col : Z) :
  (row, col) ∈ all_cells ROWS COLS <-> inb row col.
Proof.
  unfold all_cells, in_bounds.
  rewrite list_elem_of_In, in_prod_iff, <- !list_elem_of_In, !elem_of_seqZ.
  lia.
Qed.

Lemma all_cells_length :
  length (all_cells ROWS COLS) = Z.to_nat (ROWS * COLS).
Proof.
  unfold all_cells. rewrite length_prod, !length_seqZ, Z2Nat.inj_mul; lia.
Qed.

Lemma dfs_terminates (m : matrix) (row col : Z) :
  wf m = true ->
  exists p m' log, dfs ROWS COLS (dfs_fuel ROWS COLS) m row col
                   = Some (p, m', log).
Proof.
  intros Hwf.
  destruct (dfs_total (dfs_fuel ROWS COLS) m row col (all_cells ROWS COLS))
    as ([[p m'] log] & Hrun); [done| | |by eauto].
  - intros r c Hb _. by apply all_cells_spec.
  - rewrite all_cells_length. unfold dfs_fuel. lia.
Qed.

(** *** Locating the entry *)

Lemma find_entry_spec (m : matrix) :
  (find_entry ROWS COLS m = (-1, -1, false)
   /\ forall r c, inb r c -> on_edge ROWS COLS r c = true ->
                  get m r c <> ENTRY)
  \/ (exists er ec,
        find_entry ROWS COLS m = (er, ec, true)
        /\ inb er ec /\ on_edge ROWS COLS er ec = true
        /\ get m er ec = ENTRY).
Proof.
  unfold find_entry.
  pose (I := fun (row col : Z) (s : Z * Z * bool) =>
    (s = (-1, -1, false)
     /\ forall r c, inb r c -> scanned_before r c row col ->
                    on_edge ROWS COLS r c = true -> get m r c <> ENTRY)
    \/ (exists er ec, s = (er, ec, true)
          /\ inb er ec /\ on_edge ROWS COLS er ec = true
          /\ get m er ec = ENTRY)).
  assert (Hend : I ROWS 0 (for_cells ROWS COLS (find_entry_step ROWS COLS m)
                                     (-1, -1, false))).
  { apply for_cells_ind; [lia..| | |].
    - left. split; [done|]. intros r c [? ?] [?|[? ?]]; lia.
    - intros row col s Hr Hc [[-> Hnone]|(er & ec & -> & ?)].
      + unfold find_entry_step.
        destruct (on_edge ROWS COLS row col && (get m row col =? ENTRY)%char)
          eqn:Htest.
        * right. exists row, col.
          apply andb_prop in Htest as [He Hg]. apply Ascii.eqb_eq in Hg.
          split; [done|]. split; [by split|]. by split.
        * left. split; [done|]. intros r c Hb Hbefore Hedge Hg.
          destruct (decide ((r, c) = (row, col))) as [[= -> ->]|Hne].
          -- rewrite Hedge in Htest. simpl in Htest.
             apply Ascii.eqb_neq in Htest. done.
          -- apply (Hnone r c); [done| |done..].
             destruct Hbefore as [?|[-> ?]]; [by left|].
             right. split; [done|].
             assert (c <> col) by (intros ->; done). lia.
      + right. by exists er, ec.
    - intros row s Hr [[-> Hnone]|?]; [|by right].
      left. split; [done|]. intros r c [? ?] Hbefore. apply Hnone; [done|].
      destruct Hbefore as [?|[? ?]]; [|lia].
      destruct (decide (r = row)) as [->|?]; [right; lia|left; lia]. }
  destruct Hend as [[-> Hnone]|?]; [|by right].
  left. split; [done|]. intros r c Hb. apply Hnone; [done|].
  left. apply Hb.
Qed.

Lemma find_path_without_entry (m : matrix) :
  (forall r c, inb r c -> on_edge ROWS COLS r c = true -> get m r c <> ENTRY) ->
  find_path ROWS COLS m = Some (EntryPointNotFound, m).
Proof.
  intros Hnone. unfold find_path.
  destruct (find_entry_spec m) as [[-> _]|(er & ec & _ & Hb & He & Hg)].
  - done.
  - by destruct (Hnone er ec).
Qed.

Lemma find_path_with_entry (m : matrix) (er ec : Z) :
  wf m = true ->
  find_entry ROWS COLS m = (er, ec, true) ->
  inb er ec /\ on_edge ROWS COLS er ec = true /\ get m er ec = ENTRY
  /\ exists p m' log,
       dfs ROWS COLS (dfs_fuel ROWS COLS) m er ec = Some (p, m', log)
       /\ find_path ROWS COLS m
          = Some (if found p
                  then PartialPathFound (start_x p) (start_y p)
                                        (end_x p) (end_y p)
                  else NoPathFound, m').
Proof.
  intros Hwf Hfind.
  destruct (find_entry_spec m) as [[Hno _]|(er' & ec' & Hf & Hb & He & Hg)];
    [congruence|].
  rewrite Hfind in Hf. injection Hf as <- <-.
  repeat (split; [done|]).
  destruct (dfs_terminates m er ec Hwf) as (p & m' & log & Hrun).
  exists p, m', log. split; [done|].
  unfold find_path. rewrite Hfind.
  replace (negb (er =? -1) && negb (ec =? -1)) with true.
  - rewrite Hrun. by destruct (found p).
  - destruct Hb as [? ?]. symmetry. apply andb_true_intro.
    split; apply negb_true_iff, Z.eqb_neq; lia.
Qed.

Lemma entry_expandable : expandable ENTRY.
Proof. by repeat split. Qed.

(** *** Main results on the search *)

(** C6.  The search never revisits a cell: started on any cell of any
    matrix, [dfs] returns (with recursion depth [ROWS * COLS + 1] or any
    larger one, and the same result), the cells it expanded are pairwise
    distinct, there are at most [ROWS * COLS] of them, and each was not yet
    visited when it was expanded and is marked visited afterwards. *)
Theorem dfs_never_revisits (m : matrix) (row col : Z) :
  wf m = true ->
  exists p m' log,
    (forall fuel, (dfs_fuel ROWS COLS <= fuel)%nat ->
       dfs ROWS COLS fuel m row col = Some (p, m', log))
    /\ NoDup log
    /\ (length log <= Z.to_nat (ROWS * COLS))%nat
    /\ forall r c, (r, c) ∈ log ->
         inb r c /\ get m r c <> VISITED /\ get m' r c = VISITED.
Proof.
  intros Hwf.
  destruct (dfs_terminates m row col Hwf) as (p & m' & log & Hrun).
  exists p, m', log.
  split; [intros fuel Hle; by eapply dfs_fuel_enough|].
  destruct (dfs_marks _ _ _ _ _ _ _ Hwf Hrun) as (_ & Hnd & Hin & _).
  split; [done|]. split.
  - rewrite <- all_cells_length. apply submseteq_length.
    apply NoDup_submseteq; [done|].
    intros [r c] Hl. apply all_cells_spec. by apply Hin.
  - intros r c Hl. destruct (Hin r c Hl) as (? & (_ & _ & ?) & ?). done.
Qed.

(** C7.  On a matrix without any entry marker the search pass reports
    "Entry point not found" and leaves the matrix as it is; on a matrix
    with an entry marker on its edge the report is a different one
    ("No path found" or a path). *)
Theorem find_path_entry_not_found (m : matrix) :
  wf m = true ->
  ((forall r c, inb r c -> get m r c <> ENTRY) ->
     find_path ROWS COLS m = Some (EntryPointNotFound, m))
  /\ (forall er ec, inb er ec -> on_edge ROWS COLS er ec = true ->
        get m er ec = ENTRY ->
        exists rep m', find_path ROWS COLS m = Some (rep, m')
          /\ (rep = NoPathFound
              \/ exists sx sy ex ey, rep = PartialPathFound sx sy ex ey)
          /\ rep <> EntryPointNotFound).
Proof.
  intros Hwf. split.
  - intros Hnone. apply find_path_without_entry. auto.
  - intros er ec Hb He Hg.
    destruct (find_entry_spec m) as [[_ Hno]|(er' & ec' & Hf & _)].
    { by destruct (Hno er ec). }
    destruct (find_path_with_entry m er' ec' Hwf Hf)
      as (_ & _ & _ & p & m' & log & _ & ->).
    destruct (found p); eexists _, _; (split; [done|]); split; try done.
    + right. by eexists _, _, _, _.
    + by left.
Qed.

(** C4, as the code has it.  Every call of [dfs] that succeeds returns
    its own cell as the start and an exit cell as the end; the call made by
    [find_path] runs on the entry cell and writes last, so that when the
    search pass reports a path, the reported start is the entry cell
    located by the scan. *)
Theorem find_path_start_is_entry (m : matrix) :
  wf m = true ->
  (forall fuel row col p m' log,
     dfs ROWS COLS fuel m row col = Some (p, m', log) ->
     found p = true ->
     start_x p = row /\ start_y p = col
     /\ get m (end_x p) (end_y p) = EXIT)
  /\ (forall sx sy ex ey m',
        find_path ROWS COLS m = Some (PartialPathFound sx sy ex ey, m') ->
        find_entry ROWS COLS m = (sx, sy, true)
        /\ get m sx sy = ENTRY
        /\ get m ex ey = EXIT).
Proof.
  intros Hwf. split.
  - intros fuel row col p m' log Hrun Hfound.
    destruct (dfs_path _ _ _ _ _ _ _ Hwf Hrun) as [Hyes _].
    by destruct (Hyes Hfound) as (? & ? & _ & ?).
  - intros sx sy ex ey m' Hrep.
    destruct (find_entry_spec m) as [[_ Hno]|(er & ec & Hf & _)].
    { rewrite find_path_without_entry in Hrep by done. done. }
    destruct (find_path_with_entry m er ec Hwf Hf)
      as (_ & _ & Hg & p & m1 & log & Hrun & Hfp).
    rewrite Hfp in Hrep.
    destruct (found p) eqn:Hfound; [|done].
    injection Hrep as <- <- <- <- <-.
    destruct (dfs_path _ _ _ _ _ _ _ Hwf Hrun) as [Hyes _].
    destruct (Hyes Hfound) as (-> & -> & _ & Hexit). done.
Qed.

(** C5, as the code has it.  A call that expands a cell makes all four
    recursive calls, up, down, left, right in this order, each on the
    matrix the previous one left, whether or not an earlier one succeeded;
    its result is taken from the first of them that succeeded.  Afterwards
    no neighbour of the cell is left unexplored. *)
Theorem dfs_explores_all_directions (fuel : nat) (m : matrix) (row col : Z)
    (p : Path) (m' : matrix) (log : list (Z * Z)) :
  wf m = true -> inb row col -> expandable (get m row col) ->
  dfs ROWS COLS (S fuel) m row col = Some (p, m', log) ->
  (exists d0 m1 v0 d1 m2 v1 d2 m3 v2 d3 v3,
     dfs ROWS COLS fuel (set m row col VISITED) (row - 1) col
       = Some (d0, m1, v0)
     /\ dfs ROWS COLS fuel m1 (row + 1) col = Some (d1, m2, v1)
     /\ dfs ROWS COLS fuel m2 row (col - 1) = Some (d2, m3, v2)
     /\ dfs ROWS COLS fuel m3 row (col + 1) = Some (d3, m', v3)
     /\ p = first_found row col [d0; d1; d2; d3]
     /\ log = (row, col) :: v0 ++ v1 ++ v2 ++ v3)
  /\ (forall r c, inb r c ->
        (r, c) ∈ [(row - 1, col); (row + 1, col); (row, col - 1); (row, col + 1)] ->
        ~ expandable (get m' r c)).
Proof.
  intros Hwf Hin Hexp Hrun.
  apply dfs_inv in Hrun
    as [(Hout & _)|[(_ & Hex & _)|[(_ & Hcv & _)|(_ & _ & Hrec)]]].
  { done. }
  { rewrite Hex in Hexp. by destruct Hexp as (? & _). }
  { destruct Hexp as (_ & ? & ?). by destruct Hcv. }
  destruct Hrec as (d0 & m1 & v0 & d1 & m2 & v1 & d2 & m3 & v2 & d3 & m4 & v3
                    & E0 & E1 & E2 & E3 & [= -> -> ->]).
  split; [by exists d0, m1, v0, d1, m2, v1, d2, m3, v2, d3, v3|].
  pose proof (marks_set m row col Hwf Hin Hexp) as K.
  pose proof (dfs_marks fuel _ _ _ _ _ _ (marks_wf _ _ _ K) E0) as K0.
  pose proof (dfs_marks fuel _ _ _ _ _ _ (marks_wf _ _ _ K0) E1) as K1.
  pose proof (dfs_marks fuel _ _ _ _ _ _ (marks_wf _ _ _ K1) E2) as K2.
  pose proof (dfs_marks fuel _ _ _ _ _ _ (marks_wf _ _ _ K2) E3) as K3.
  assert (Hkeep : forall (ma mb : matrix) lg r c,
            marks ROWS COLS ma mb lg ->
            ~ expandable (get ma r c) -> ~ expandable (get mb r c)).
  { intros ma mb lg r c Hm Hne. by erewrite marks_not_expandable_stays. }
  intros r c Hb Hnb.
  repeat (apply elem_of_cons in Hnb as [[= -> ->]|Hnb]).
  - apply (Hkeep _ _ _ _ _ K3), (Hkeep _ _ _ _ _ K2), (Hkeep _ _ _ _ _ K1).
    apply (dfs_settles fuel _ _ _ _ _ _ (marks_wf _ _ _ K) Hb E0).
  - apply (Hkeep _ _ _ _ _ K3), (Hkeep _ _ _ _ _ K2).
    apply (dfs_settles fuel _ _ _ _ _ _ (marks_wf _ _ _ K0) Hb E1).
  - apply (Hkeep _ _ _ _ _ K3).
    apply (dfs_settles fuel _ _ _ _ _ _ (marks_wf _ _ _ K1) Hb E2).
  - apply (dfs_settles fuel _ _ _ _ _ _ (marks_wf _ _ _ K2) Hb E3).
  - by apply elem_of_nil in Hnb.
Qed.

(** C10, as the code has it.  A search pass that locates the entry turns
    that cell to visited and leaves every exit marker in place; when the
    located entry is the only entry marker of the matrix, no entry marker
    is left and a second search pass reports "Entry point not found". *)
Theorem search_consumes_entry (m : matrix) (er ec : Z) :
  wf m = true ->
  find_entry ROWS COLS m = (er, ec, true) ->
  exists rep m',
    find_path ROWS COLS m = Some (rep, m')
    /\ rep <> EntryPointNotFound
    /\ get m' er ec = VISITED
    /\ (forall r c, get m r c = EXIT <-> get m' r c = EXIT)
    /\ ((forall r c, inb r c -> get m r c = ENTRY -> (r, c) = (er, ec)) ->
        (forall r c, inb r c -> get m' r c <> ENTRY)
        /\ find_path ROWS COLS m' = Some (EntryPointNotFound, m')).
Proof.
  intros Hwf Hf.
  destruct (find_path_with_entry m er ec Hwf Hf)
    as (Hb & _ & Hg & p & m' & log & Hrun & Hfp).
  pose proof (dfs_marks _ _ _ _ _ _ _ Hwf Hrun) as K.
  assert (Hv : get m' er ec = VISITED).
  { pose proof (dfs_settles _ _ _ _ _ _ _ Hwf Hb Hrun) as Hs.
    pose proof K as (_ & _ & Hin & Hout).
    destruct (decide ((er, ec) ∈ log)) as [Hl|Hl].
    - by destruct (Hin _ _ Hl) as (_ & _ & ?).
    - exfalso. apply Hs. rewrite Hout, Hg by done. apply entry_expandable. }
  exists (if found p
          then PartialPathFound (start_x p) (start_y p) (end_x p) (end_y p)
          else NoPathFound), m'.
  split; [done|]. split; [by destruct (found p)|]. split; [done|].
  split.
  - intros r c. split.
    + intros He. erewrite marks_not_expandable_stays; [done..|].
      rewrite He. by intros (? & _).
    + intros He. erewrite marks_back; [done..|]. by rewrite He.
  - intros Huniq.
    assert (Hnone : forall r c, inb r c -> get m' r c <> ENTRY).
    { intros r c Hrc He.
      assert (get m r c = ENTRY) as Hm
        by (erewrite marks_back; [done..|]; by rewrite He).
      apply Huniq in Hm; [|done]. injection Hm as -> ->.
      rewrite Hv in He. done. }
    split; [done|]. apply find_path_without_entry. auto.
Qed.

End Search.

(** ** The generator *)

Section Generator.

Variables ROWS COLS : Z.
Variable RAND_MAX : positive.
Variable density : Q.
Hypothesis ROWS_nonneg : 0 <= ROWS.
Hypothesis COLS_nonneg : 0 <= COLS.

Local Abbreviation wf := (well_formed ROWS COLS).
Local Abbreviation inb := (in_bounds ROWS COLS).
Local Abbreviation edge := (on_edge ROWS COLS).

Lemma get_negative (m : matrix) (row col : Z) :
  row < 0 \/ col < 0 -> get m row col = "000"%char.
Proof.
  intros H. unfold get.
  replace ((0 <=? row) && (0 <=? col)) with false; [done|].
  symmetry. apply andb_false_iff. rewrite !Z.leb_gt. lia.
Qed.

Lemma get_negative_not_open (m : matrix) (row col : Z) :
  get m row col = OPEN -> 0 <= row /\ 0 <= col.
Proof.
  intros H.
  destruct (decide (row < 0 \/ col < 0)) as [Hn|Hn]; [|lia].
  by rewrite get_negative in H.
Qed.

Lemma count_adjacent_up_left (m : matrix) (row col : Z) :
  get m (row - 1) col = OPEN -> get m row (col - 1) = OPEN ->
  1 < count_adjacent_open_cells ROWS COLS m row col.
Proof.
  intros Hup Hleft.
  destruct (get_negative_not_open _ _ _ Hup) as [? _].
  destruct (get_negative_not_open _ _ _ Hleft) as [_ ?].
  unfold count_adjacent_open_cells. rewrite Hup, Hleft.
  replace (0 <? row) with true by (symmetry; apply Z.ltb_lt; lia).
  replace (0 <? col) with true by (symmetry; apply Z.ltb_lt; lia).
  rewrite Ascii.eqb_refl. cbn [andb].
  repeat match goal with |- context [if ?b then _ else _] =>
    destruct b end; lia.
Qed.

(** A cell accepted by the placement test satisfies [placement_ok]. *)
Lemma valid_placement_ok (m : matrix) (row col : Z) :
  is_valid_open_cell_placement ROWS COLS m row col = true ->
  placement_ok m row col.
Proof.
  unfold is_valid_open_cell_placement. intros Hvalid.
  destruct ((get m row col =? ENTRY)%char || (get m row col =? EXIT)%char);
    [done|].
  destruct (1 <? count_adjacent_open_cells ROWS COLS m row col) eqn:Hcount;
    [done|].
  apply Z.ltb_ge in Hcount.
  match type of Hvalid with (if ?b then _ else _) = _ =>
    destruct b; [done|] end.
  destruct ((1 <? row) && (get m (row - 2) col =? OPEN)%char
              && (get m (row - 1) col =? OPEN)%char) eqn:Hup2; [done|].
  match type of Hvalid with (if ?b then _ else _) = _ =>
    destruct b; [done|] end.
  destruct ((1 <? col) && (get m row (col - 2) =? OPEN)%char
              && (get m row (col - 1) =? OPEN)%char) eqn:Hleft2; [done|].
  split; [|split].
  - intros [Hup Hleft].
    pose proof (count_adjacent_up_left m row col Hup Hleft). lia.
  - intros [H1 H2].
    destruct (get_negative_not_open _ _ _ H2) as [? _].
    rewrite H1, H2, Ascii.eqb_refl in Hup2.
    replace (1 <? row) with true in Hup2
      by (symmetry; apply Z.ltb_lt; lia). done.
  - intros [H1 H2].
    destruct (get_negative_not_open _ _ _ H2) as [_ ?].
    rewrite H1, H2, Ascii.eqb_refl in Hleft2.
    replace (1 <? col) with true in Hleft2
      by (symmetry; apply Z.ltb_lt; lia). done.
Qed.

Lemma placement_ok_set (m : matrix) (row col r c : Z) (ch : ascii) :
  scanned_before r c row col \/ (r, c) = (row, col) ->
  placement_ok (set m row col ch) r c <-> placement_ok m r c.
Proof.
  intros Hpos. unfold placement_ok.
  by rewrite !(get_set_other m row col) by
    (intros [= ? ?]; destruct Hpos as [[?|[? ?]]|[= ? ?]]; lia).
Qed.

(** *** The fill loop *)

Local Abbreviation finv := (fill_inv ROWS COLS RAND_MAX density).
Local Abbreviation fill := (fill_cell ROWS COLS RAND_MAX density).

Lemma fill_inv_start (m : matrix) (t : tape) :
  wf m = true -> finv m t 0 0 m t.
Proof.
  intros Hwf. split; [done|]. split; [done|]. split; [done|].
  intros r c [? ?] [?|[? ?]]; lia.
Qed.

Lemma fill_inv_next_row (m : matrix) (t : tape) (row : Z) (m' : matrix)
    (t' : tape) :
  finv m t row COLS m' t' -> finv m t (row + 1) 0 m' t'.
Proof.
  intros (Hwf & Hsuf & Hframe & Hdone).
  split; [done|]. split; [done|]. split.
  - intros r c Hnot. apply Hframe. intros [?|[? ?]]; apply Hnot; left; lia.
  - intros r c Hb Hbefore. apply Hdone; [done|].
    destruct Hb as [_ ?]. destruct Hbefore as [?|[? ?]]; [|lia].
    destruct (decide (r = row)) as [->|?]; [right; lia|left; lia].
Qed.

Lemma fill_inv_step (m : matrix) (t : tape) (row col : Z)
    (m1 : matrix) (t1 : tape) (m2 : matrix) (t2 : tape) :
  0 <= row < ROWS -> 0 <= col < COLS ->
  finv m t row col m1 t1 ->
  fill row col (m1, t1) = Some (m2, t2) ->
  finv m t row (col + 1) m2 t2.
Proof.
  intros Hr Hc (Hwf & Hsuf & Hframe & Hdone) Hstep.
  assert (Hcase : forall r c, inb r c -> scanned_before r c row (col + 1) ->
            (r, c) = (row, col) \/ scanned_before r c row col).
  { intros r c _ [?|[-> ?]]; [right; by left|].
    destruct (decide (c = col)) as [->|?]; [by left|right; right; lia]. }
  assert (Hself : ~ scanned_before row col row col)
    by (intros [?|[? ?]]; lia).
  assert (Hhere : inb row col) by done.
  unfold fill_cell in Hstep.
  destruct (on_edge ROWS COLS row col
            && ((get m1 row col =? ENTRY)%char || (get m1 row col =? EXIT)%char))
    eqn:Hskip.
  { (* the marker on the edge is skipped *)
    injection Hstep as <- <-.
    split; [done|]. split; [done|]. split.
    - intros r c Hnot. apply Hframe. intros Hs. apply Hnot.
      destruct Hs as [?|[? ?]]; [by left|right; lia].
    - intros r c Hb Hbefore.
      destruct (Hcase r c Hb Hbefore) as [[= -> ->]|Hold]; [|by apply Hdone].
      right. right. apply andb_prop in Hskip as [He Hm].
      rewrite <- (Hframe row col Hself).
      split; [done|]. split; [done|].
      apply orb_prop in Hm as [Hm|Hm]; apply Ascii.eqb_eq in Hm; auto. }
  destruct t1 as [|r0 t1']; [done|].
  assert (Hsuf' : t2 `suffix_of` t /\ r0 ∈ t /\ t2 = t1'
                  /\ exists ch, m2 = set m1 row col ch
                       /\ (ch = CLOSED
                           \/ ch = OPEN
                              /\ Qle_bool (random_value RAND_MAX r0) density = true
                              /\ is_valid_open_cell_placement ROWS COLS m1 row col
                                 = true)).
  { destruct Hsuf as [used ->].
    assert (r0 ∈ used ++ r0 :: t1') by (apply elem_of_app; right; by left).
    destruct (Qle_bool (random_value RAND_MAX r0) density) eqn:Hq;
      [destruct (is_valid_open_cell_placement ROWS COLS m1 row col) eqn:Hv|];
      simpl in Hstep; injection Hstep as <- <-;
      (split; [exists (used ++ [r0]); by rewrite <- app_assoc|]);
      (split; [done|]); (split; [done|]); eexists; (split; [done|]); auto. }
  destruct Hsuf' as (Hsuf2 & Hr0 & -> & ch & -> & Hch). clear Hstep.
  split; [by apply well_formed_set|]. split; [done|]. split.
  - intros r c Hnot. rewrite get_set_other.
    + apply Hframe. intros Hs. apply Hnot.
      destruct Hs as [?|[? ?]]; [by left|right; lia].
    + intros [= -> ->]. apply Hnot. right. lia.
  - intros r c Hb Hbefore.
    destruct (Hcase r c Hb Hbefore) as [[= -> ->]|Hold].
    + rewrite (get_set_same ROWS COLS) by done.
      destruct Hch as [->|(-> & Hq & Hv)]; [by right; left|].
      left. split; [done|]. split; [|by exists r0].
      apply placement_ok_set; [by right|]. by apply valid_placement_ok.
    + assert ((r, c) <> (row, col)) by (intros [= -> ->]; done).
      rewrite get_set_other by done.
      destruct (Hdone r c Hb Hold) as [(Ho & Hok & Hd)|[Hcl|Hmk]].
      * left. split; [done|]. split; [|done].
        apply placement_ok_set; [by left|done].
      * by right; left.
      * by right; right.
Qed.

Lemma fill_spec (m : matrix) (t : tape) (m1 : matrix) (t1 : tape) :
  wf m = true ->
  for_cells_opt ROWS COLS fill (m, t) = Some (m1, t1) ->
  finv m t ROWS 0 m1 t1.
Proof.
  intros Hwf Hrun.
  apply (for_cells_opt_ind ROWS COLS ROWS_nonneg COLS_nonneg
           (fun row col s => finv m t row col s.1 s.2) fill (m, t) (m1, t1));
    [by apply fill_inv_start| | |done].
  - intros row col [ma ta] [mb tb] Hr Hc. simpl. by apply fill_inv_step.
  - intros row [ma ta] Hr. simpl. apply fill_inv_next_row.
Qed.

(** The fill loop returns when the tape holds a draw for every cell. *)
Lemma fill_total (m : matrix) (t : tape) (extra : Z) :
  wf m = true -> 0 <= extra ->
  ROWS * COLS + extra <= Z.of_nat (length t) ->
  exists m1 t1,
    for_cells_opt ROWS COLS fill (m, t) = Some (m1, t1)
    /\ extra <= Z.of_nat (length t1).
Proof.
  intros Hwf Hextra Hlen.
  destruct (for_cells_opt_total ROWS COLS ROWS_nonneg COLS_nonneg
              (fun row col s =>
                 ROWS * COLS + extra
                 <= Z.of_nat (length s.2) + row * COLS + col)
              fill (m, t)) as ([m1 t1] & Hrun & Hfin).
  - simpl. lia.
  - intros row col [ma ta] Hr Hc Hta. simpl in Hta. unfold fill_cell.
    destruct (on_edge ROWS COLS row col && _).
    { eexists. split; [done|]. simpl. lia. }
    destruct ta as [|r0 ta'].
    { simpl in Hta. nia. }
    simpl in Hta.
    destruct (Qle_bool _ _ && _); eexists; (split; [done|]); simpl; lia.
  - intros row [ma ta] Hr. simpl. lia.
  - exists m1, t1. split; [done|]. simpl in Hfin. lia.
Qed.

(** *** Counting and the scan for the previous markers *)

Lemma scanned_step (row col r c : Z) :
  scanned_before r c row (col + 1) ->
  (r, c) = (row, col) \/ scanned_before r c row col.
Proof.
  intros [?|[-> ?]]; [right; by left|].
  destruct (decide (c = col)) as [->|?]; [by left|right; right; lia].
Qed.

Lemma scanned_skip (row col r c : Z) :
  scanned_before r c row col -> scanned_before r c row (col + 1).
Proof. intros [?|[? ?]]; [by left|right; lia]. Qed.

Lemma scanned_next_row (row r c : Z) :
  inb r c -> scanned_before r c (row + 1) 0 -> scanned_before r c row COLS.
Proof.
  intros [_ ?] [?|[? ?]]; [|lia].
  destruct (decide (r = row)) as [->|?]; [right; lia|left; lia].
Qed.

Lemma scanned_end (r c : Z) : inb r c -> scanned_before r c ROWS 0.
Proof. intros [? _]. left. lia. Qed.

Lemma count_cells_unique (which : Z -> Z -> bool) :
  count_cells ROWS COLS which <= 1 ->
  forall r c r' c', inb r c -> inb r' c' ->
    which r c = true -> which r' c' = true -> (r, c) = (r', c').
Proof.
  unfold count_cells.
  pose (I := fun (row col : Z) (n : Z) =>
    0 <= n
    /\ (forall r c, inb r c -> scanned_before r c row col ->
          which r c = true -> 1 <= n)
    /\ (forall r c r' c', inb r c -> inb r' c' ->
          scanned_before r c row col -> scanned_before r' c' row col ->
          which r c = true -> which r' c' = true ->
          (r, c) <> (r', c') -> 2 <= n)).
  assert (Hend : I ROWS 0 (for_cells ROWS COLS
                   (fun row col n => if which row col then n + 1 else n) 0)).
  { apply for_cells_ind; [done..| | |].
    - split; [done|]. split.
      + intros r c [? ?] [?|[? ?]]; lia.
      + intros r c r' c' [? ?] _ [?|[? ?]]; lia.
    - intros row col n Hr Hc (H0 & H1 & H2). split; [|split].
      + destruct (which row col); lia.
      + intros r c Hb Hbefore Hw.
        destruct (scanned_step _ _ _ _ Hbefore) as [[= -> ->]|Hold].
        * rewrite Hw. lia.
        * specialize (H1 r c Hb Hold Hw). destruct (which row col); lia.
      + intros r c r' c' Hb Hb' Hbefore Hbefore' Hw Hw' Hne.
        destruct (scanned_step _ _ _ _ Hbefore) as [[= -> ->]|Hold];
          destruct (scanned_step _ _ _ _ Hbefore') as [[= -> ->]|Hold'].
        * done.
        * rewrite Hw. specialize (H1 r' c' Hb' Hold' Hw'). lia.
        * rewrite Hw'. specialize (H1 r c Hb Hold Hw). lia.
        * specialize (H2 r c r' c' Hb Hb' Hold Hold' Hw Hw' Hne).
          destruct (which row col); lia.
    - intros row n Hr (H0 & H1 & H2). split; [done|]. split.
      + intros r c Hb Hbefore. apply H1; [done|]. by apply scanned_next_row.
      + intros r c r' c' Hb Hb' Hbefore Hbefore'.
        apply H2; [done|done| |]; by apply scanned_next_row. }
  intros Hle r c r' c' Hb Hb' Hw Hw'.
  destruct Hend as (_ & _ & H2).
  destruct (decide ((r, c) = (r', c'))) as [|Hne]; [done|].
  specialize (H2 r c r' c' Hb Hb' (scanned_end _ _ Hb) (scanned_end _ _ Hb')
                 Hw Hw' Hne). lia.
Qed.

(** The scan for the previous markers returns a cell holding the marker
    whenever there is one. *)
Lemma find_markers_spec (m : matrix) :
  let '(er, ec, xr, xc) :=
    for_cells ROWS COLS (find_markers_step m) (-1, -1, -1, -1) in
  ((er = -1 /\ ec = -1 /\ forall r c, inb r c -> get m r c <> ENTRY)
   \/ (inb er ec /\ get m er ec = ENTRY))
  /\ ((xr = -1 /\ xc = -1 /\ forall r c, inb r c -> get m r c <> EXIT)
      \/ (inb xr xc /\ get m xr xc = EXIT)).
Proof.
  pose (I := fun (row col : Z) (s : Z * Z * Z * Z) =>
    ((s.1.1.1 = -1 /\ s.1.1.2 = -1
      /\ forall r c, inb r c -> scanned_before r c row col ->
                     get m r c <> ENTRY)
     \/ (inb s.1.1.1 s.1.1.2 /\ get m s.1.1.1 s.1.1.2 = ENTRY))
    /\ ((s.1.2 = -1 /\ s.2 = -1
         /\ forall r c, inb r c -> scanned_before r c row col ->
                        get m r c <> EXIT)
        \/ (inb s.1.2 s.2 /\ get m s.1.2 s.2 = EXIT))).
  assert (Hend : I ROWS 0 (for_cells ROWS COLS (find_markers_step m)
                                     (-1, -1, -1, -1))).
  { apply for_cells_ind; [done..| | |].
    - split; left; (split; [done|]); (split; [done|]);
        intros r c [? ?] [?|[? ?]]; lia.
    - intros row col [[[er ec] xr] xc] Hr Hc [He Hx]. simpl in He, Hx.
      unfold find_markers_step.
      destruct (get m row col =? ENTRY)%char eqn:Hen.
      { apply Ascii.eqb_eq in Hen. split; simpl.
        - right. by split.
        - destruct Hx as [(-> & -> & Hx)|Hx]; [left|by right].
          split; [done|]. split; [done|]. intros r c Hb Hbefore.
          destruct (scanned_step _ _ _ _ Hbefore) as [[= -> ->]|Hold];
            [by rewrite Hen|by apply Hx]. }
      apply Ascii.eqb_neq in Hen.
      destruct (get m row col =? EXIT)%char eqn:Hex.
      { apply Ascii.eqb_eq in Hex. split; simpl.
        - destruct He as [(-> & -> & He)|He]; [left|by right].
          split; [done|]. split; [done|]. intros r c Hb Hbefore.
          destruct (scanned_step _ _ _ _ Hbefore) as [[= -> ->]|Hold];
            [done|by apply He].
        - right. by split. }
      apply Ascii.eqb_neq in Hex. split; simpl.
      + destruct He as [(-> & -> & He)|He]; [left|by right].
        split; [done|]. split; [done|]. intros r c Hb Hbefore.
        destruct (scanned_step _ _ _ _ Hbefore) as [[= -> ->]|Hold];
          [done|by apply He].
      + destruct Hx as [(-> & -> & Hx)|Hx]; [left|by right].
        split; [done|]. split; [done|]. intros r c Hb Hbefore.
        destruct (scanned_step _ _ _ _ Hbefore) as [[= -> ->]|Hold];
          [done|by apply Hx].
    - intros row [[[er ec] xr] xc] Hr [He Hx]. simpl in He, Hx.
      split; simpl.
      + destruct He as [(-> & -> & He)|He]; [left|by right].
        split; [done|]. split; [done|]. intros r c Hb Hbefore.
        apply He; [done|]. by apply scanned_next_row.
      + destruct Hx as [(-> & -> & Hx)|Hx]; [left|by right].
        split; [done|]. split; [done|]. intros r c Hb Hbefore.
        apply Hx; [done|]. by apply scanned_next_row. }
  destruct (for_cells ROWS COLS (find_markers_step m) (-1, -1, -1, -1))
    as [[[er ec] xr] xc].
  destruct Hend as [He Hx]. simpl in He, Hx. split.
  - destruct He as [(-> & -> & He)|He]; [left|by right].
    split; [done|]. split; [done|]. intros r c Hb.
    apply He; [done|]. by apply scanned_end.
  - destruct Hx as [(-> & -> & Hx)|Hx]; [left|by right].
    split; [done|]. split; [done|]. intros r c Hb.
    apply Hx; [done|]. by apply scanned_end.
Qed.

(** After the two erasures nothing but [CLOSED] has been written, and a
    matrix that held each marker at most once holds none. *)
Lemma remove_markers_spec (m : matrix) :
  wf m = true ->
  let m2 := remove_markers m
              (for_cells ROWS COLS (find_markers_step m) (-1, -1, -1, -1)) in
  wf m2 = true
  /\ (forall r c, get m2 r c = get m r c
                  \/ get m2 r c = CLOSED
                     /\ (get m r c = ENTRY \/ get m r c = EXIT))
  /\ ((forall r c r' c', inb r c -> inb r' c' ->
         get m r c = ENTRY -> get m r' c' = ENTRY -> (r, c) = (r', c')) ->
      forall r c, inb r c -> get m2 r c <> ENTRY)
  /\ ((forall r c r' c', inb r c -> inb r' c' ->
         get m r c = EXIT -> get m r' c' = EXIT -> (r, c) = (r', c')) ->
      forall r c, inb r c -> get m2 r c <> EXIT).
Proof.
  intros Hwf. pose proof (find_markers_spec m) as Hscan.
  destruct (for_cells ROWS COLS (find_markers_step m) (-1, -1, -1, -1))
    as [[[er ec] xr] xc].
  destruct Hscan as [He Hx]. unfold remove_markers.
  set (m1 := if negb (er =? -1) && negb (ec =? -1)
             then set m er ec CLOSED else m).
  assert (H1 : wf m1 = true
               /\ (forall r c, get m1 r c = get m r c
                     \/ get m1 r c = CLOSED /\ get m r c = ENTRY)
               /\ ((forall r c r' c', inb r c -> inb r' c' ->
                      get m r c = ENTRY -> get m r' c' = ENTRY ->
                      (r, c) = (r', c')) ->
                   forall r c, inb r c -> get m1 r c <> ENTRY)).
  { destruct He as [(-> & -> & He)|[Hb Hg]].
    - subst m1. simpl. split; [done|]. split; [by left|]. auto.
    - assert (m1 = set m er ec CLOSED) as ->.
      { subst m1. destruct Hb as [? ?].
        replace (er =? -1) with false by (symmetry; apply Z.eqb_neq; lia).
        by replace (ec =? -1) with false by (symmetry; apply Z.eqb_neq; lia). }
      split; [by apply well_formed_set|]. split.
      + intros r c. rewrite (get_set ROWS COLS) by done.
        destruct (decide _) as [[= -> ->]|?]; [by right|by left].
      + intros Huniq r c Hrc. rewrite (get_set ROWS COLS) by done.
        destruct (decide _) as [[= -> ->]|Hne]; [done|].
        intros Hg'. apply Hne. by apply Huniq. }
  destruct H1 as (Hwf1 & Hsame1 & Hno1).
  set (m2 := if negb (xr =? -1) && negb (xc =? -1)
             then set m1 xr xc CLOSED else m1).
  assert (Hm2 : m2 = m1 /\ (forall r c, inb r c -> get m r c <> EXIT)
                \/ m2 = set m1 xr xc CLOSED /\ inb xr xc
                   /\ get m xr xc = EXIT).
  { destruct Hx as [(-> & -> & Hx)|[Hb Hg]]; [by left|right].
    split; [|done]. subst m2. destruct Hb as [? ?].
    replace (xr =? -1) with false by (symmetry; apply Z.eqb_neq; lia).
    by replace (xc =? -1) with false by (symmetry; apply Z.eqb_neq; lia). }
  clearbody m2 m1.
  destruct Hm2 as [[-> Hnox]|(-> & Hb & Hg)].
  - split; [done|]. split; [|split; [done|]].
    + intros r c. destruct (Hsame1 r c) as [?|[? ?]]; auto.
    + intros _ r c Hrc. destruct (Hsame1 r c) as [->|[-> ?]]; [auto|done].
  - split; [by apply well_formed_set|]. split; [|split].
    + intros r c. rewrite (get_set ROWS COLS) by done.
      destruct (decide _) as [[= -> ->]|?]; [by right; auto|].
      destruct (Hsame1 r c) as [?|[? ?]]; auto.
    + intros Huniq r c Hrc. rewrite (get_set ROWS COLS) by done.
      destruct (decide _) as [[= -> ->]|Hne]; [done|]. by apply Hno1.
    + intros Huniq r c Hrc. rewrite (get_set ROWS COLS) by done.
      destruct (decide _) as [[= -> ->]|Hne]; [done|].
      destruct (Hsame1 r c) as [->|[-> ?]]; [|done].
      intros Hg'. apply Hne. by apply Huniq.
Qed.

(** *** The placement scan *)

Hypothesis ROWS_two : 2 <= ROWS.
Hypothesis COLS_two : 2 <= COLS.

Lemma edges_before_edge (row col : Z) :
  0 <= row < ROWS -> 0 <= col < COLS -> edge row col = true ->
  edges_before ROWS COLS row (col + 1) = edges_before ROWS COLS row col + 1.
Proof.
  intros Hr Hc. unfold on_edge, edges_before.
  repeat match goal with
         | |- context [?a =? ?b] => destruct (Z.eqb_spec a b)
         | |- context [?a <? ?b] => destruct (Z.ltb_spec a b)
         end; simpl; intros; try lia; done.
Qed.

Lemma edges_before_inner (row col : Z) :
  0 <= row < ROWS -> 0 <= col < COLS -> edge row col = false ->
  edges_before ROWS COLS row (col + 1) = edges_before ROWS COLS row col.
Proof.
  intros Hr Hc. unfold on_edge, edges_before.
  repeat match goal with
         | |- context [?a =? ?b] => destruct (Z.eqb_spec a b)
         | |- context [?a <? ?b] => destruct (Z.ltb_spec a b)
         end; simpl; intros; try lia; done.
Qed.

Lemma edges_before_next_row (row : Z) :
  0 <= row < ROWS ->
  edges_before ROWS COLS (row + 1) 0 = edges_before ROWS COLS row COLS.
Proof.
  intros Hr. unfold edges_before.
  repeat match goal with
         | |- context [?a =? ?b] => destruct (Z.eqb_spec a b)
         | |- context [?a <? ?b] => destruct (Z.ltb_spec a b)
         end; simpl; lia.
Qed.

Lemma edges_before_end :
  edges_before ROWS COLS ROWS 0 = 2 * (ROWS + COLS) - 4.
Proof.
  unfold edges_before.
  repeat match goal with
         | |- context [?a =? ?b] => destruct (Z.eqb_spec a b)
         | |- context [?a <? ?b] => destruct (Z.ltb_spec a b)
         end; simpl; lia.
Qed.

Lemma placed_skip (ch : ascii) (flag : bool) (row col : Z) (m : matrix) :
  placed ROWS COLS ch flag row col m ->
  placed ROWS COLS ch flag row (col + 1) m.
Proof.
  unfold placed. destruct flag; [|done].
  intros (r & c & Hb & He & Hs & Hu). exists r, c.
  repeat (split; [done|]). split; [by apply scanned_skip|done].
Qed.

Lemma placed_next_row (ch : ascii) (flag : bool) (row : Z) (m : matrix) :
  placed ROWS COLS ch flag row COLS m ->
  placed ROWS COLS ch flag (row + 1) 0 m.
Proof.
  unfold placed. destruct flag; [|done].
  intros (r & c & Hb & He & Hs & Hu). exists r, c.
  repeat (split; [done|]). split; [|done].
  destruct Hb as [_ ?]. destruct Hs as [?|[? ?]]; left; lia.
Qed.

Lemma placed_set_self (ch : ascii) (row col : Z) (m : matrix) :
  wf m = true -> inb row col -> edge row col = true ->
  placed ROWS COLS ch false row col m ->
  placed ROWS COLS ch true row (col + 1) (set m row col ch).
Proof.
  unfold placed. intros Hwf Hb He Hnone. exists row, col.
  repeat (split; [done|]). split; [right; lia|].
  intros r c Hrc. rewrite (get_set ROWS COLS) by done.
  destruct (decide _) as [?|Hne]; [done|].
  split; [|done]. intros ?. by destruct (Hnone r c).
Qed.

Lemma placed_set_other (ch ch' : ascii) (flag : bool) (row col : Z)
    (m : matrix) :
  wf m = true -> inb row col -> ch' <> ch ->
  placed ROWS COLS ch flag row col m ->
  placed ROWS COLS ch flag row (col + 1) (set m row col ch').
Proof.
  unfold placed. intros Hwf Hb Hch. destruct flag.
  - intros (r & c & Hrc & He & Hs & Hu). exists r, c.
    repeat (split; [done|]). split; [by apply scanned_skip|].
    intros r' c' Hrc'. rewrite (get_set ROWS COLS) by done.
    destruct (decide _) as [[= -> ->]|Hne]; [|by apply Hu].
    split; [done|]. intros [= -> ->]. destruct Hs as [?|[? ?]]; lia.
  - intros Hnone r c Hrc. rewrite (get_set ROWS COLS) by done.
    destruct (decide _) as [?|Hne]; [done|by apply Hnone].
Qed.

Lemma place_inv_next_row (m0 : matrix) (e x row : Z) (s : place_state) :
  0 <= row < ROWS ->
  place_inv ROWS COLS m0 e x row COLS s ->
  place_inv ROWS COLS m0 e x (row + 1) 0 s.
Proof.
  intros Hr (Hwf & Hcnt & Hep & Hxp & Hsame & Hpe & Hpx).
  split; [done|]. split; [by rewrite edges_before_next_row|].
  repeat (split; [done|]). split; by apply placed_next_row.
Qed.

Lemma place_inv_step (m0 : matrix) (e x row col : Z) (s : place_state) :
  e <> x ->
  0 <= row < ROWS -> 0 <= col < COLS ->
  place_inv ROWS COLS m0 e x row col s ->
  place_inv ROWS COLS m0 e x row (col + 1) (place_step ROWS COLS e x row col s).
Proof.
  intros Hex Hr Hc. destruct s as [[[m counter] ep] xp].
  intros (Hwf & Hcnt & Hep & Hxp & Hsame & Hpe & Hpx). simpl in *.
  assert (Hb : inb row col) by done.
  unfold place_step.
  destruct (on_edge ROWS COLS row col) eqn:Hedge.
  2: { split; [done|]. simpl.
       split; [by rewrite edges_before_inner|].
       repeat (split; [done|]). split; by apply placed_skip. }
  pose proof (edges_before_edge row col Hr Hc Hedge) as Hnext.
  destruct ((counter =? e) && negb ep) eqn:Hfirst.
  { apply andb_prop in Hfirst as [->%Z.eqb_eq ->%negb_true_iff].
    split; [by apply well_formed_set|]. simpl.
    split; [lia|]. split; [symmetry; apply Z.ltb_lt; lia|].
    split. { rewrite Hxp. destruct (Z.ltb_spec x e), (Z.ltb_spec x (e + 1)); lia || done. }
    split.
    { intros r c. rewrite (get_set ROWS COLS) by done.
      destruct (decide _); [by right; left|done]. }
    split; [by apply placed_set_self|by apply placed_set_other]. }
  assert (He : (e <? counter + 1) = ep).
  { rewrite Hep. apply andb_false_iff in Hfirst as [Hne|Hne].
    - apply Z.eqb_neq in Hne.
      destruct (Z.ltb_spec e counter), (Z.ltb_spec e (counter + 1)); lia || done.
    - apply negb_false_iff in Hne. rewrite Hne in Hep.
      symmetry in Hep. apply Z.ltb_lt in Hep.
      destruct (Z.ltb_spec e counter), (Z.ltb_spec e (counter + 1)); lia || done. }
  destruct ((counter =? x) && negb xp) eqn:Hsecond.
  { apply andb_prop in Hsecond as [->%Z.eqb_eq ->%negb_true_iff].
    split; [by apply well_formed_set|]. simpl.
    split; [lia|]. split; [done|].
    split; [symmetry; apply Z.ltb_lt; lia|]. split.
    { intros r c. rewrite (get_set ROWS COLS) by done.
      destruct (decide _); [by right; right|done]. }
    split; [by apply placed_set_other|by apply placed_set_self]. }
  assert (Hx : (x <? counter + 1) = xp).
  { rewrite Hxp. apply andb_false_iff in Hsecond as [Hne|Hne].
    - apply Z.eqb_neq in Hne.
      destruct (Z.ltb_spec x counter), (Z.ltb_spec x (counter + 1)); lia || done.
    - apply negb_false_iff in Hne. rewrite Hne in Hxp.
      symmetry in Hxp. apply Z.ltb_lt in Hxp.
      destruct (Z.ltb_spec x counter), (Z.ltb_spec x (counter + 1)); lia || done. }
  split; [done|]. simpl. split; [lia|].
  repeat (split; [done|]). split; by apply placed_skip.
Qed.

(** The placement scan on a matrix without markers, with two different
    positions on the perimeter, leaves exactly one entry and one exit. *)
Lemma place_scan_spec (m0 : matrix) (e x : Z) :
  wf m0 = true ->
  (forall r c, inb r c -> get m0 r c <> ENTRY /\ get m0 r c <> EXIT) ->
  0 <= e < 2 * (ROWS + COLS) - 4 -> 0 <= x < 2 * (ROWS + COLS) - 4 ->
  e <> x ->
  let m := (for_cells ROWS COLS (place_step ROWS COLS e x)
                      (m0, 0, false, false)).1.1.1 in
  wf m = true
  /\ one_entry_one_exit ROWS COLS m
  /\ forall r c, get m r c = get m0 r c
                 \/ get m r c = ENTRY \/ get m r c = EXIT.
Proof.
  intros Hwf Hfree He Hx Hex.
  assert (Hend : place_inv ROWS COLS m0 e x ROWS 0
                   (for_cells ROWS COLS (place_step ROWS COLS e x)
                              (m0, 0, false, false))).
  { apply (for_cells_ind ROWS COLS ROWS_nonneg COLS_nonneg
             (place_inv ROWS COLS m0 e x)).
    - split; [done|]. simpl. split; [done|].
      split; [symmetry; apply Z.ltb_ge; lia|].
      split; [symmetry; apply Z.ltb_ge; lia|].
      split; [by left|]. split; intros r c Hrc; by apply Hfree.
    - intros row col s Hr Hc. by apply place_inv_step.
    - intros row s Hr. by apply place_inv_next_row. }
  destruct (for_cells ROWS COLS (place_step ROWS COLS e x)
                      (m0, 0, false, false)) as [[[m counter] ep] xp].
  destruct Hend as (Hwfm & Hcnt & Hep & Hxp & Hsame & Hpe & Hpx).
  simpl in *. rewrite edges_before_end in Hcnt. subst counter.
  replace (e <? 2 * (ROWS + COLS) - 4) with true in Hep
    by (symmetry; apply Z.ltb_lt; lia).
  replace (x <? 2 * (ROWS + COLS) - 4) with true in Hxp
    by (symmetry; apply Z.ltb_lt; lia).
  subst ep xp. split; [done|]. split; [|done].
  destruct Hpe as (er & ec & Hbe & Hee & _ & Hue).
  destruct Hpx as (xr & xc & Hbx & Hxe & _ & Hux).
  exists er, ec, xr, xc. repeat (split; [done|]).
  split; [|done]. intros Heq.
  assert (get m er ec = ENTRY) as H1 by (by apply Hue).
  assert (get m er ec = EXIT) as H2 by (apply Hux; [done|by rewrite Heq]).
  rewrite H1 in H2. done.
Qed.

(** *** place_entry_exit_points *)

Lemma draw_exit_position_spec (n e : Z) (t : tape) (x : Z) (t2 : tape) :
  0 < n -> Forall (fun r => 0 <= r) t ->
  draw_exit_position n e t = Some (x, t2) ->
  0 <= x < n /\ x <> e /\ t2 `suffix_of` t.
Proof.
  intros Hn. induction t as [|r t IH]; intros Hpos Hdraw; [done|].
  simpl in Hdraw. apply Forall_cons in Hpos as [Hr Hpos].
  destruct (Z.rem r n =? e) eqn:Heq.
  - destruct (IH Hpos Hdraw) as (? & ? & ?).
    split; [done|]. split; [done|]. by apply suffix_cons_r.
  - injection Hdraw as <- <-. apply Z.eqb_neq in Heq.
    split; [by apply Z.rem_bound_pos|]. split; [done|].
    by apply suffix_cons_r.
Qed.

Lemma Forall_suffix_of (P : Z -> Prop) (t1 t : tape) :
  t1 `suffix_of` t -> Forall P t -> Forall P t1.
Proof. intros [used ->] H. by apply Forall_app in H as [_ ?]. Qed.

Lemma place_entry_exit_points_spec (t : tape) (m : matrix) (m' : matrix)
    (t' : tape) :
  wf m = true ->
  (forall r c, inb r c -> get m r c <> ENTRY /\ get m r c <> EXIT) ->
  Forall (fun r => 0 <= r) t ->
  place_entry_exit_points ROWS COLS t m = Some (m', t') ->
  wf m' = true
  /\ one_entry_one_exit ROWS COLS m'
  /\ (forall r c, get m' r c = get m r c
                  \/ get m' r c = ENTRY \/ get m' r c = EXIT).
Proof.
  intros Hwf Hfree Hpos Hrun. unfold place_entry_exit_points in Hrun.
  destruct t as [|r t1]; [done|].
  apply Forall_cons in Hpos as [Hr Hpos].
  destruct (draw_exit_position _ _ t1) as [[x t2]|] eqn:Hdraw; [|done].
  apply draw_exit_position_spec in Hdraw as (Hx & Hne & _); [|lia|done].
  pose proof (place_scan_spec m (Z.rem r (2 * (ROWS + COLS) - 4)) x Hwf Hfree)
    as Hscan.
  destruct (for_cells ROWS COLS
              (place_step ROWS COLS (Z.rem r (2 * (ROWS + COLS) - 4)) x)
              (m, 0, false, false))
    as [[[m1 counter] ep] xp].
  injection Hrun as <- <-. simpl in Hscan. apply Hscan; [|done|done].
  apply Z.rem_bound_pos; lia.
Qed.

Lemma place_entry_exit_points_total (t : tape) (m : matrix) (r1 r2 : Z) :
  Z.rem r1 (2 * (ROWS + COLS) - 4) <> Z.rem r2 (2 * (ROWS + COLS) - 4) ->
  exists m', place_entry_exit_points ROWS COLS (r1 :: r2 :: t) m = Some (m', t).
Proof.
  intros Hne. unfold place_entry_exit_points. simpl.
  replace (Z.rem r2 _ =? Z.rem r1 _) with false
    by (symmetry; apply Z.eqb_neq; congruence).
  destruct (for_cells ROWS COLS
              (place_step ROWS COLS (Z.rem r1 (2 * (ROWS + COLS) - 4))
                          (Z.rem r2 (2 * (ROWS + COLS) - 4)))
              (m, 0, false, false))
    as [[[m1 counter] ep] xp]. by eexists.
Qed.

(** *** randomize_matrix *)

(** An open cell of the filled matrix lies inside it and satisfies
    [placement_ok]. *)
Lemma filled_open_cells (m : matrix) (t : tape) (m1 : matrix) (t1 : tape) :
  finv m t ROWS 0 m1 t1 ->
  forall r c, get m1 r c = OPEN -> inb r c /\ placement_ok m1 r c.
Proof.
  intros (Hwf & _ & _ & Hdone) r c Hopen.
  assert (Hb : inb r c).
  { destruct (decide (inb r c)) as [|Hout]; [done|].
    rewrite (get_outside ROWS COLS) in Hopen by done. done. }
  split; [done|].
  destruct (Hdone r c Hb (scanned_end _ _ Hb))
    as [(_ & Hok & _)|[Hcl|(_ & Heq & [Hm|Hm])]]; [done|..].
  - rewrite Hcl in Hopen. done.
  - rewrite Heq, Hm in Hopen. done.
  - rewrite Heq, Hm in Hopen. done.
Qed.

(** The markers left by the fill loop are the edge markers it was given. *)
Lemma filled_markers (m : matrix) (t : tape) (m1 : matrix) (t1 : tape)
    (ch : ascii) :
  finv m t ROWS 0 m1 t1 -> ch = ENTRY \/ ch = EXIT ->
  forall r c, inb r c -> get m1 r c = ch ->
    edge r c && (get m r c =? ch)%char = true.
Proof.
  intros (_ & _ & _ & Hdone) Hch r c Hb Hg.
  destruct (Hdone r c Hb (scanned_end _ _ Hb))
    as [(Ho & _)|[Hcl|(He & Heq & _)]].
  - rewrite Ho in Hg. by destruct Hch as [-> | ->].
  - rewrite Hcl in Hg. by destruct Hch as [-> | ->].
  - rewrite He. rewrite <- Heq, Hg. by rewrite Ascii.eqb_refl.
Qed.

(** The three phases of a pass that returns. *)
Lemma randomize_matrix_phases (t : tape) (m : matrix) (m' : matrix)
    (t' : tape) :
  wf m = true ->
  randomize_matrix ROWS COLS RAND_MAX density t m = Some (m', t') ->
  exists m1 t1 m2,
    finv m t ROWS 0 m1 t1
    /\ wf m2 = true
    /\ (forall r c, get m2 r c = get m1 r c
                    \/ get m2 r c = CLOSED
                       /\ (get m1 r c = ENTRY \/ get m1 r c = EXIT))
    /\ (single_markers ROWS COLS m = true ->
        forall r c, inb r c -> get m2 r c <> ENTRY /\ get m2 r c <> EXIT)
    /\ place_entry_exit_points ROWS COLS t1 m2 = Some (m', t').
Proof.
  intros Hwf Hrun. unfold randomize_matrix in Hrun.
  destruct (for_cells_opt ROWS COLS _ (m, t)) as [[m1 t1]|] eqn:Hfill;
    [|done].
  apply fill_spec in Hfill; [|done].
  pose proof Hfill as (Hwf1 & _).
  destruct (remove_markers_spec m1 Hwf1) as (Hwf2 & Hsame & Hnoe & Hnox).
  eexists m1, t1, _. split; [done|]. split; [done|]. split; [done|].
  split; [|done].
  intros [Hce%Z.leb_le Hcx%Z.leb_le]%andb_prop.
  pose proof (count_cells_unique _ Hce) as Hue.
  pose proof (count_cells_unique _ Hcx) as Hux.
  intros r c Hb. split.
  - apply Hnoe; [|done]. intros ra ca rb cb Ha Hb' Hga Hgb.
    apply Hue; [done|done|..]; by eapply filled_markers; eauto.
  - apply Hnox; [|done]. intros ra ca rb cb Ha Hb' Hga Hgb.
    apply Hux; [done|done|..]; by eapply filled_markers; eauto.
Qed.

(** The placement scan writes nothing but the two markers. *)
Lemma place_entry_exit_points_writes (t : tape) (m : matrix) (m' : matrix)
    (t' : tape) :
  wf m = true ->
  place_entry_exit_points ROWS COLS t m = Some (m', t') ->
  forall r c, get m' r c = get m r c
              \/ get m' r c = ENTRY \/ get m' r c = EXIT.
Proof.
  intros Hwf Hrun. unfold place_entry_exit_points in Hrun.
  destruct t as [|r0 t1]; [done|].
  destruct (draw_exit_position _ _ t1) as [[x t2]|]; [|done].
  set (e := Z.rem r0 (2 * (ROWS + COLS) - 4)) in *.
  pose (I := fun (_ _ : Z) (s : place_state) =>
          wf s.1.1.1 = true
          /\ forall r c, get s.1.1.1 r c = get m r c
               \/ get s.1.1.1 r c = ENTRY \/ get s.1.1.1 r c = EXIT).
  assert (Hend : I ROWS 0 (for_cells ROWS COLS (place_step ROWS COLS e x)
                                     (m, 0, false, false))).
  { apply for_cells_ind; [done..| | |]; unfold I.
    - simpl. split; [done|]. by left.
    - intros row col [[[ma counter] ep] xp] Hr Hc [Hwfa Ha]. simpl in *.
      unfold place_step.
      destruct (on_edge ROWS COLS row col); [|done].
      destruct ((counter =? e) && negb ep).
      { simpl. split; [by apply well_formed_set|].
        intros r c. rewrite (get_set ROWS COLS) by done.
        destruct (decide _); [by right; left|done]. }
      destruct ((counter =? x) && negb xp); [|done].
      simpl. split; [by apply well_formed_set|].
      intros r c. rewrite (get_set ROWS COLS) by done.
      destruct (decide _); [by right; right|done].
    - done. }
  destruct (for_cells ROWS COLS (place_step ROWS COLS e x)
                      (m, 0, false, false)) as [[[m1 counter] ep] xp].
  injection Hrun as <- <-. apply Hend.
Qed.

Lemma alternating_suffix (n : Z) (t1 t : tape) :
  t1 `suffix_of` t -> alternating n t -> alternating n t1.
Proof.
  intros [used ->]. induction used as [|a used IH]; [done|].
  intros Halt. apply IH. simpl in Halt.
  destruct (used ++ t1); [done|]. by destruct Halt.
Qed.

(** A pass returns when the tape holds a draw per cell and two more, and
    consecutive draws differ modulo the perimeter length. *)
Lemma randomize_matrix_total (t : tape) (m : matrix) :
  wf m = true ->
  ROWS * COLS + 2 <= Z.of_nat (length t) ->
  alternating (2 * (ROWS + COLS) - 4) t ->
  exists m' t', randomize_matrix ROWS COLS RAND_MAX density t m
                = Some (m', t').
Proof.
  intros Hwf Hlen Halt.
  destruct (fill_total m t 2 Hwf) as (m1 & t1 & Hfill & Hlen1); [lia|done|].
  pose proof (fill_spec m t m1 t1 Hwf Hfill) as (_ & Hsuf & _).
  apply (alternating_suffix _ _ _ Hsuf) in Halt.
  destruct t1 as [|r1 [|r2 t2]]; [simpl in Hlen1; lia..|].
  destruct Halt as [Hne _].
  unfold randomize_matrix. rewrite Hfill.
  destruct (place_entry_exit_points_total t2
              (remove_markers m1
                 (for_cells ROWS COLS (find_markers_step m1) (-1, -1, -1, -1)))
              r1 r2 Hne) as [m' Hplace].
  by exists m', t2.
Qed.

(** *** generate_matrix *)

Lemma reset_matrix_spec (m : matrix) :
  wf m = true ->
  wf (reset_matrix ROWS COLS m) = true
  /\ forall r c, inb r c -> get (reset_matrix ROWS COLS m) r c = CLOSED.
Proof.
  intros Hwf. unfold reset_matrix.
  pose (I := fun (row col : Z) (m' : matrix) =>
          wf m' = true
          /\ forall r c, inb r c -> scanned_before r c row col ->
               get m' r c = CLOSED).
  assert (Hend : I ROWS 0 (for_cells ROWS COLS
                             (fun row col m => set m row col CLOSED) m)).
  { apply for_cells_ind; [done..| | |]; unfold I.
    - split; [done|]. intros r c [? ?] [?|[? ?]]; lia.
    - intros row col m' Hr Hc [Hwf' Hdone].
      split; [by apply well_formed_set|].
      intros r c Hb Hbefore. rewrite (get_set ROWS COLS) by done.
      destruct (decide _) as [|Hne]; [done|].
      destruct (scanned_step _ _ _ _ Hbefore); [done|by apply Hdone].
    - intros row m' Hr [Hwf' Hdone]. split; [done|].
      intros r c Hb Hbefore. apply Hdone; [done|].
      by apply scanned_next_row. }
  destruct Hend as [Hwf' Hdone]. split; [done|].
  intros r c Hb. apply Hdone; [done|]. by apply scanned_end.
Qed.

Lemma count_cells_none (which : Z -> Z -> bool) :
  (forall r c, inb r c -> which r c = false) ->
  count_cells ROWS COLS which = 0.
Proof.
  intros Hnone. unfold count_cells.
  apply (for_cells_ind ROWS COLS ROWS_nonneg COLS_nonneg
           (fun _ _ n => n = 0)); [done| |done].
  intros row col n Hr Hc ->. by rewrite Hnone.
Qed.

Lemma reset_matrix_single_markers (m : matrix) :
  wf m = true -> single_markers ROWS COLS (reset_matrix ROWS COLS m) = true.
Proof.
  intros Hwf. destruct (reset_matrix_spec m Hwf) as [_ Hcl].
  unfold single_markers.
  rewrite !count_cells_none; [done|..];
    intros r c Hb; rewrite Hcl by done; simpl; apply andb_false_r.
Qed.

Lemma generate_matrix_eq (t : tape) (m : matrix) :
  generate_matrix ROWS COLS RAND_MAX density t m
  = randomize_matrix ROWS COLS RAND_MAX density t (reset_matrix ROWS COLS m).
Proof. reflexivity. Qed.

Lemma count_cells_at_most_one (which : Z -> Z -> bool) :
  (forall r c r' c', inb r c -> inb r' c' ->
     which r c = true -> which r' c' = true -> (r, c) = (r', c')) ->
  count_cells ROWS COLS which <= 1.
Proof.
  intros Huniq. unfold count_cells.
  pose (I := fun (row col : Z) (n : Z) =>
    (n = 0 /\ forall r c, inb r c -> scanned_before r c row col ->
                          which r c = false)
    \/ (n = 1 /\ exists r c, inb r c /\ scanned_before r c row col
                             /\ which r c = true)).
  assert (Hend : I ROWS 0 (for_cells ROWS COLS
                   (fun row col n => if which row col then n + 1 else n) 0)).
  { apply for_cells_ind; [done..| | |]; unfold I.
    - left. split; [done|]. intros r c [? ?] [?|[? ?]]; lia.
    - intros row col n Hr Hc [[-> Hnone]|(-> & r & c & Hb & Hs & Hw)].
      + destruct (which row col) eqn:Hw.
        * right. split; [done|]. exists row, col.
          split; [done|]. split; [right; lia|done].
        * left. split; [done|]. intros r c Hb Hs.
          destruct (scanned_step _ _ _ _ Hs) as [[= -> ->]|Hold];
            [done|by apply Hnone].
      + destruct (which row col) eqn:Hw'.
        * assert ((r, c) = (row, col)) as [= -> ->] by (by apply Huniq).
          destruct Hs as [?|[? ?]]; lia.
        * right. split; [done|]. exists r, c.
          split; [done|]. split; [by apply scanned_skip|done].
    - intros row n Hr [[-> Hnone]|(-> & r & c & Hb & Hs & Hw)].
      + left. split; [done|]. intros r c Hb Hs.
        apply Hnone; [done|]. by apply scanned_next_row.
      + right. split; [done|]. exists r, c. split; [done|]. split; [|done].
        destruct Hb as [_ ?]. destruct Hs as [?|[? ?]]; left; lia. }
  destruct Hend as [[-> _]|[-> _]]; lia.
Qed.

Lemma single_markers_spec (m : matrix) :
  single_markers ROWS COLS m = true <->
  (forall ch, ch = ENTRY \/ ch = EXIT ->
     forall r c r' c', inb r c -> inb r' c' ->
       edge r c = true -> edge r' c' = true ->
       get m r c = ch -> get m r' c' = ch -> (r, c) = (r', c')).
Proof.
  unfold single_markers. rewrite andb_true_iff, !Z.leb_le. split.
  - intros [He Hx] ch Hch r c r' c' Hb Hb' Hedge Hedge' Hg Hg'.
    destruct Hch as [-> | ->].
    + apply (count_cells_unique _ He); [done..| |].
      * by rewrite Hedge, Hg.
      * by rewrite Hedge', Hg'.
    + apply (count_cells_unique _ Hx); [done..| |].
      * by rewrite Hedge, Hg.
      * by rewrite Hedge', Hg'.
  - intros Huniq. split; apply count_cells_at_most_one;
      intros r c r' c' Hb Hb' [He Hg]%andb_prop [He' Hg']%andb_prop;
      apply Ascii.eqb_eq in Hg, Hg'.
    + by apply (Huniq ENTRY); auto.
    + by apply (Huniq EXIT); auto.
Qed.

Lemma one_entry_one_exit_single_markers (m : matrix) :
  one_entry_one_exit ROWS COLS m -> single_markers ROWS COLS m = true.
Proof.
  intros (er & ec & xr & xc & _ & _ & _ & _ & _ & He & Hx).
  apply single_markers_spec.
  intros ch [-> | ->] r c r' c' Hb Hb' _ _ Hg Hg'.
  - apply He in Hg, Hg'; [congruence|done..].
  - apply Hx in Hg, Hg'; [congruence|done..].
Qed.

(** What a pass that returns guarantees for the pass that follows. *)
Lemma randomize_matrix_sound (t : tape) (m : matrix) (m' : matrix)
    (t' : tape) :
  wf m = true -> single_markers ROWS COLS m = true ->
  Forall (fun r => 0 <= r) t ->
  randomize_matrix ROWS COLS RAND_MAX density t m = Some (m', t') ->
  wf m' = true /\ Forall (fun r => 0 <= r) t'
  /\ one_entry_one_exit ROWS COLS m'.
Proof.
  intros Hwf Hsingle Hpos Hrun.
  destruct (randomize_matrix_phases _ _ _ _ Hwf Hrun)
    as (m1 & t1 & m2 & Hfill & Hwf2 & _ & Hfree & Hplace).
  destruct Hfill as (_ & Hsuf & _).
  pose proof (Forall_suffix_of _ _ _ Hsuf Hpos) as Hpos1.
  destruct (place_entry_exit_points_spec _ _ _ _ Hwf2 (Hfree Hsingle)
              Hpos1 Hplace) as (Hwf' & Hone & _).
  split; [done|]. split; [|done].
  unfold place_entry_exit_points in Hplace.
  destruct t1 as [|r0 t1']; [done|].
  apply Forall_cons in Hpos1 as [_ Hpos1].
  destruct (draw_exit_position _ _ t1') as [[x t2]|] eqn:Hdraw; [|done].
  apply draw_exit_position_spec in Hdraw as (_ & _ & Hsuf2); [|lia|done].
  destruct (for_cells ROWS COLS
              (place_step ROWS COLS (Z.rem r0 (2 * (ROWS + COLS) - 4)) x)
              (m2, 0, false, false)) as [[[ma counter] ep] xp].
  injection Hplace as <- <-. by eapply Forall_suffix_of.
Qed.

(** *** Main results on the generator *)

(** C2, as the code has it.  In the matrix left by a pass, an open cell
    never has both its upper and its left neighbour open, is never the
    middle of three open cells in its row or in its column, and never has
    the two next cells open in any of the four directions. *)
Theorem open_cells_after_randomize (t : tape) (m : matrix) (m' : matrix)
    (t' : tape) :
  wf m = true ->
  randomize_matrix ROWS COLS RAND_MAX density t m = Some (m', t') ->
  forall r c, inb r c -> get m' r c = OPEN ->
    ~ (get m' (r - 1) c = OPEN /\ get m' r (c - 1) = OPEN)
    /\ ~ (get m' (r - 1) c = OPEN /\ get m' (r + 1) c = OPEN)
    /\ ~ (get m' r (c - 1) = OPEN /\ get m' r (c + 1) = OPEN)
    /\ ~ (get m' (r - 1) c = OPEN /\ get m' (r - 2) c = OPEN)
    /\ ~ (get m' (r + 1) c = OPEN /\ get m' (r + 2) c = OPEN)
    /\ ~ (get m' r (c - 1) = OPEN /\ get m' r (c - 2) = OPEN)
    /\ ~ (get m' r (c + 1) = OPEN /\ get m' r (c + 2) = OPEN).
Proof.
  intros Hwf Hrun.
  destruct (randomize_matrix_phases _ _ _ _ Hwf Hrun)
    as (m1 & t1 & m2 & Hfill & Hwf2 & Hsame & _ & Hplace).
  pose proof (place_entry_exit_points_writes _ _ _ _ Hwf2 Hplace) as Hwr.
  pose proof (filled_open_cells _ _ _ _ Hfill) as Hok.
  assert (Hsub : forall r c, get m' r c = OPEN -> get m1 r c = OPEN).
  { intros r c Ho. destruct (Hwr r c) as [Heq|[Heq|Heq]];
      [|rewrite Heq in Ho; done..].
    rewrite Heq in Ho. destruct (Hsame r c) as [Heq'|[Heq' _]];
      [by rewrite <- Heq'|rewrite Heq' in Ho; done]. }
  intros r c Hb Ho.
  destruct (Hok r c (Hsub _ _ Ho)) as (_ & Hcorner & Hup & Hleft).
  repeat split; intros [H1 H2].
  - apply Hcorner. auto.
  - destruct (Hok (r + 1) c (Hsub _ _ H2)) as (_ & _ & Hd & _).
    apply Hd. replace (r + 1 - 1) with r by lia.
    replace (r + 1 - 2) with (r - 1) by lia. auto.
  - destruct (Hok r (c + 1) (Hsub _ _ H2)) as (_ & _ & _ & Hd).
    apply Hd. replace (c + 1 - 1) with c by lia.
    replace (c + 1 - 2) with (c - 1) by lia. auto.
  - apply Hup. auto.
  - destruct (Hok (r + 2) c (Hsub _ _ H2)) as (_ & _ & Hd & _).
    apply Hd. replace (r + 2 - 1) with (r + 1) by lia.
    replace (r + 2 - 2) with r by lia. auto.
  - apply Hleft. auto.
  - destruct (Hok r (c + 2) (Hsub _ _ H2)) as (_ & _ & _ & Hd).
    apply Hd. replace (c + 2 - 1) with (c + 1) by lia.
    replace (c + 2 - 2) with c by lia. auto.
Qed.

(** C3, as the code has it.  The pass that starts with the reset is
    [generate_matrix], the first pass of the generation worker: after its
    reset every cell is closed, and what it produces does not depend on
    the cells the matrix held before. *)
Theorem generate_matrix_ignores_previous_cells (t : tape) (m1 m2 : matrix) :
  wf m1 = true -> wf m2 = true ->
  (forall r c, inb r c -> get (reset_matrix ROWS COLS m1) r c = CLOSED)
  /\ generate_matrix ROWS COLS RAND_MAX density t m1
     = generate_matrix ROWS COLS RAND_MAX density t m2.
Proof.
  intros Hwf1 Hwf2.
  destruct (reset_matrix_spec m1 Hwf1) as [Hr1 Hc1].
  destruct (reset_matrix_spec m2 Hwf2) as [Hr2 Hc2].
  split; [done|]. unfold generate_matrix. f_equal.
  apply (matrix_ext ROWS COLS); [done..|].
  intros r c Hb. by rewrite Hc1, Hc2.
Qed.

(** When no draw of the tape passes the density test, a pass leaves only
    closed cells around its two markers. *)
Lemma randomize_matrix_all_closed (t : tape) (m : matrix) (m' : matrix)
    (t' : tape) :
  wf m = true ->
  single_markers ROWS COLS m = true ->
  Forall (fun r => 0 <= r) t ->
  Forall (fun r => Qle_bool (random_value RAND_MAX r) density = false) t ->
  randomize_matrix ROWS COLS RAND_MAX density t m = Some (m', t') ->
  one_entry_one_exit ROWS COLS m'
  /\ forall r c, inb r c ->
       get m' r c = ENTRY \/ get m' r c = EXIT \/ get m' r c = CLOSED.
Proof.
  intros Hwf Hsingle Hpos Hreject Hrun.
  destruct (randomize_matrix_phases _ _ _ _ Hwf Hrun)
    as (m1 & t1 & m2 & Hfill & Hwf2 & Hsame & Hfree & Hplace).
  specialize (Hfree Hsingle).
  pose proof Hfill as (_ & Hsuf & _ & Hdone).
  split.
  { eapply place_entry_exit_points_spec;
      [done|done|by eapply Forall_suffix_of|done]. }
  intros r c Hb.
  destruct (place_entry_exit_points_writes _ _ _ _ Hwf2 Hplace r c)
    as [Heq|[?|?]]; [|auto..].
  right. right. rewrite Heq.
  destruct (Hsame r c) as [Heq1|[? _]]; [|done].
  destruct (Hdone r c Hb (scanned_end _ _ Hb))
    as [(_ & _ & r0 & Hr0 & Hq)|[Hcl|(_ & Heq2 & Hmk)]].
  - rewrite Forall_forall in Hreject. by rewrite (Hreject r0) in Hq.
  - by rewrite Heq1.
  - destruct (Hfree r c Hb) as [Hne Hnx].
    rewrite Heq1, Heq2 in Hne, Hnx. by destruct Hmk.
Qed.

End Generator.

(** C1, as the code has it.  With at least two rows and two columns, the
    first pass ([generate_matrix], which resets the matrix) leaves exactly
    one entry and exactly one exit, both on the edge and in two different
    cells, whatever the matrix held before; a later pass
    ([randomize_matrix]) does so over a matrix that holds at most one entry
    marker and at most one exit marker on its edge.  Both passes return on
    every tape long enough whose consecutive draws differ modulo the
    perimeter length. *)
Theorem regenerate_one_entry_one_exit (ROWS COLS : Z) (RAND_MAX : positive)
    (density : Q) (t : tape) (m : matrix) :
  2 <= ROWS -> 2 <= COLS ->
  well_formed ROWS COLS m = true ->
  Forall (fun r => 0 <= r) t ->
  (forall m' t',
     generate_matrix ROWS COLS RAND_MAX density t m = Some (m', t') ->
     one_entry_one_exit ROWS COLS m')
  /\ (single_markers ROWS COLS m = true ->
      forall m' t',
        randomize_matrix ROWS COLS RAND_MAX density t m = Some (m', t') ->
        one_entry_one_exit ROWS COLS m')
  /\ (ROWS * COLS + 2 <= Z.of_nat (length t) ->
      alternating (2 * (ROWS + COLS) - 4) t ->
      (exists m' t',
         generate_matrix ROWS COLS RAND_MAX density t m = Some (m', t'))
      /\ (exists m' t',
            randomize_matrix ROWS COLS RAND_MAX density t m = Some (m', t'))).
Proof.
  intros HR HC Hwf Hpos.
  assert (HR0 : 0 <= ROWS) by lia. assert (HC0 : 0 <= COLS) by lia.
  destruct (reset_matrix_spec ROWS COLS HR0 HC0 m Hwf) as [Hwf0 _].
  pose proof (reset_matrix_single_markers ROWS COLS HR0 HC0 m Hwf) as Hs0.
  split; [|split].
  - intros m' t' Hrun. rewrite generate_matrix_eq in Hrun.
    by destruct (randomize_matrix_sound ROWS COLS RAND_MAX density
                   HR0 HC0 HR HC t _ m' t' Hwf0 Hs0 Hpos Hrun) as (_ & _ & ?).
  - intros Hs m' t' Hrun.
    by destruct (randomize_matrix_sound ROWS COLS RAND_MAX density
                   HR0 HC0 HR HC t m m' t' Hwf Hs Hpos Hrun) as (_ & _ & ?).
  - intros Hlen Halt. split.
    + rewrite generate_matrix_eq. by apply randomize_matrix_total.
    + by apply randomize_matrix_total.
Qed.

(** C8, as the code has it.  On a 5 by 5 matrix with density 0, a pass
    whose draws are all positive leaves every cell closed except its one
    entry and its one exit: the first pass whatever the matrix held before,
    a later pass over a matrix with at most one entry marker and at most
    one exit marker on its edge. *)
Theorem density_zero_all_closed (RAND_MAX : positive) (t : tape)
    (m : matrix) :
  well_formed 5 5 m = true ->
  Forall (fun r => 0 < r) t ->
  (forall m' t',
     generate_matrix 5 5 RAND_MAX 0 t m = Some (m', t') ->
     one_entry_one_exit 5 5 m'
     /\ forall r c, in_bounds 5 5 r c ->
          get m' r c = ENTRY \/ get m' r c = EXIT \/ get m' r c = CLOSED)
  /\ (single_markers 5 5 m = true ->
      forall m' t',
        randomize_matrix 5 5 RAND_MAX 0 t m = Some (m', t') ->
        one_entry_one_exit 5 5 m'
        /\ forall r c, in_bounds 5 5 r c ->
             get m' r c = ENTRY \/ get m' r c = EXIT \/ get m' r c = CLOSED).
Proof.
  intros Hwf Hpos.
  assert (Hnonneg : Forall (fun r => 0 <= r) t)
    by (eapply Forall_impl; [exact Hpos|]; simpl; lia).
  assert (Hreject : Forall (fun r => Qle_bool (random_value RAND_MAX r) 0
                                     = false) t).
  { eapply Forall_impl; [exact Hpos|]. simpl. intros r Hr.
    unfold random_value, Qle_bool. simpl. apply Z.leb_gt. lia. }
  assert (H0 : 0 <= 5) by lia. assert (H2 : 2 <= 5) by lia.
  destruct (reset_matrix_spec 5 5 H0 H0 m Hwf) as [Hwf0 _].
  pose proof (reset_matrix_single_markers 5 5 H0 H0 m Hwf) as Hs0.
  split.
  - intros m' t' Hrun. rewrite generate_matrix_eq in Hrun.
    by apply (randomize_matrix_all_closed 5 5 RAND_MAX 0 H0 H0 H2 H2
                t (reset_matrix 5 5 m) m' t').
  - intros Hs m' t' Hrun.
    by apply (randomize_matrix_all_closed 5 5 RAND_MAX 0 H0 H0 H2 H2
                t m m' t').
Qed.

(** ** The two workers and the mutex *)

Section Mutex.

Variables ROWS COLS : Z.
Variable RAND_MAX : positive.
Variable density : Q.

Lemma initial_lock_discipline (m : matrix) (t : tape) :
  lock_discipline (initial m t).
Proof. by split. Qed.

Lemma step_lock_discipline (w : worker) (s s' : system) :
  lock_discipline s ->
  step ROWS COLS RAND_MAX density w s = Some s' ->
  lock_discipline s'.
Proof.
  destruct s as [m t mu g p d r]. unfold lock_discipline. simpl.
  intros [Hmu Hex] Hstep.
  destruct w; simpl in Hstep.
  - destruct g; simpl in *;
      repeat match type of Hstep with
             | context [match ?x with _ => _ end] => destruct x eqn:?
             end;
      simplify_eq; simpl in *; try done;
      destruct (pf_holds p); simplify_eq; done.
  - destruct p; simpl in *;
      repeat match type of Hstep with
             | context [match ?x with _ => _ end] => destruct x eqn:?
             end;
      simplify_eq; simpl in *; try done;
      destruct (gen_holds g); simplify_eq; done.
Qed.

Lemma run_lock_discipline (schedule : list worker) :
  forall s s', lock_discipline s ->
    run ROWS COLS RAND_MAX density schedule s = Some s' ->
    lock_discipline s'.
Proof.
  induction schedule as [|w schedule IH]; intros s s' Hs Hrun; simpl in Hrun.
  - by injection Hrun as <-.
  - destruct (step ROWS COLS RAND_MAX density w s) as [s1|] eqn:Hstep; [|done].
    eapply IH; [|done]. by eapply step_lock_discipline.
Qed.

(** C9, as the code has it.  In every state the two workers can reach,
    a worker that is at a pass ([generate_matrix], [randomize_matrix],
    [find_path]) or anywhere else between its lock and its unlock holds
    the mutex, and the two workers are never both between lock and unlock:
    passes never overlap.  ([display_matrix] runs outside this region.) *)
Theorem passes_hold_the_mutex (schedule : list worker) (m : matrix)
    (t : tape) (s : system) :
  run ROWS COLS RAND_MAX density schedule (initial m t) = Some s ->
  (gen_holds (gen_at s) = true -> matrix_mutex s = Some generation_worker)
  /\ (pf_holds (pf_at s) = true -> matrix_mutex s = Some path_finding_worker)
  /\ gen_holds (gen_at s) && pf_holds (pf_at s) = false.
Proof.
  intros Hrun.
  destruct (run_lock_discipline schedule _ _ (initial_lock_discipline m t) Hrun)
    as [Hmu Hex].
  split; [|split; [|done]].
  - intros Hg. by rewrite Hg in Hmu.
  - intros Hp. rewrite Hp in Hmu, Hex.
    destruct (gen_holds (gen_at s)); [done|]. done.
Qed.

(** *** The matrix between the passes *)

Hypothesis ROWS_two : 2 <= ROWS.
Hypothesis COLS_two : 2 <= COLS.

Lemma find_path_marks (m : matrix) (rep : report) (m' : matrix) :
  well_formed ROWS COLS m = true ->
  find_path ROWS COLS m = Some (rep, m') ->
  exists log, marks ROWS COLS m m' log.
Proof.
  intros Hwf Hrun.
  assert (H1R : 1 <= ROWS) by lia. assert (H1C : 1 <= COLS) by lia.
  destruct (find_entry_spec ROWS COLS H1R H1C m)
    as [[_ Hnone]|(er & ec & Hf & _)].
  - rewrite (find_path_without_entry ROWS COLS H1R H1C m Hnone) in Hrun.
    injection Hrun as <- <-. exists []. by apply marks_refl.
  - destruct (find_path_with_entry ROWS COLS H1R H1C m er ec Hwf Hf)
      as (_ & _ & _ & p & m1 & log & Hdfs & Hfp).
    rewrite Hfp in Hrun. injection Hrun as <- <-.
    exists log. by eapply dfs_marks.
Qed.

(** A search writes [VISITED] only: it adds no marker. *)
Lemma single_markers_after_marks (m m' : matrix) (log : list (Z * Z)) :
  marks ROWS COLS m m' log ->
  single_markers ROWS COLS m = true -> single_markers ROWS COLS m' = true.
Proof.
  assert (H0R : 0 <= ROWS) by lia. assert (H0C : 0 <= COLS) by lia.
  intros Hm Hs. apply (single_markers_spec ROWS COLS H0R H0C).
  pose proof (proj1 (single_markers_spec ROWS COLS H0R H0C m) Hs) as Huniq.
  intros ch Hch r c r' c' Hb Hb' He He' Hg Hg'.
  apply (Huniq ch Hch); try done.
  - rewrite (marks_back _ _ _ _ _ _ _ Hm); [done|].
    rewrite Hg. by destruct Hch as [-> | ->].
  - rewrite (marks_back _ _ _ _ _ _ _ Hm); [done|].
    rewrite Hg'. by destruct Hch as [-> | ->].
Qed.

Lemma step_generation_invariant (w : worker) (s s' : system) :
  lock_discipline s -> generation_invariant ROWS COLS s ->
  step ROWS COLS RAND_MAX density w s = Some s' ->
  generation_invariant ROWS COLS s'.
Proof.
  assert (H0R : 0 <= ROWS) by lia. assert (H0C : 0 <= COLS) by lia.
  destruct s as [m t mu g p d r]. unfold lock_discipline, generation_invariant.
  simpl. intros [Hmu Hex] (Hwf & Hpos & Hg) Hstep.
  destruct w; simpl in Hstep.
  - destruct g; simpl in *.
    + destruct mu; simplify_eq. by simpl.
    + destruct (generate_matrix _ _ _ _ t m) as [[m1 t1]|] eqn:Hgen; [|done].
      simplify_eq. simpl. rewrite generate_matrix_eq in Hgen.
      destruct (reset_matrix_spec ROWS COLS H0R H0C m Hwf) as [Hwf0 _].
      by apply (randomize_matrix_sound ROWS COLS RAND_MAX density
                  H0R H0C ROWS_two COLS_two t (reset_matrix ROWS COLS m));
        [|apply reset_matrix_single_markers|..].
    + simplify_eq. simpl. split; [done|]. split; [done|].
      by apply one_entry_one_exit_single_markers.
    + destruct mu; simplify_eq. by simpl.
    + destruct (randomize_matrix _ _ _ _ t m) as [[m1 t1]|] eqn:Hgen; [|done].
      simplify_eq. simpl.
      by apply (randomize_matrix_sound ROWS COLS RAND_MAX density
                  H0R H0C ROWS_two COLS_two t m).
    + simplify_eq. simpl. split; [done|]. split; [done|].
      by apply one_entry_one_exit_single_markers.
    + destruct (row <? ROWS); simplify_eq; by simpl.
    + simplify_eq. by simpl.
  - destruct p; simpl in *.
    + destruct mu; simplify_eq. by simpl.
    + destruct (find_path ROWS COLS m) as [[rep m1]|] eqn:Hfp; [|done].
      simplify_eq. simpl.
      destruct (find_path_marks _ _ _ Hwf Hfp) as [log Hm].
      split; [by eapply marks_wf|]. split; [done|].
      destruct g; simpl in *; try done;
        by eapply single_markers_after_marks.
    + simplify_eq. by simpl.
    + simplify_eq. by simpl.
Qed.

(** In every state the two workers reach, the matrix a pass has just left
    holds exactly one entry and one exit, and the matrix a later pass
    starts from holds at most one marker of each kind on its edge. *)
Lemma run_generation_invariant (schedule : list worker) :
  forall s s', lock_discipline s -> generation_invariant ROWS COLS s ->
    run ROWS COLS RAND_MAX density schedule s = Some s' ->
    generation_invariant ROWS COLS s'.
Proof.
  induction schedule as [|w schedule IH]; intros s s' Hl Hs Hrun;
    simpl in Hrun.
  - by injection Hrun as <-.
  - destruct (step ROWS COLS RAND_MAX density w s) as [s1|] eqn:Hstep; [|done].
    eapply IH; [| |done].
    + by eapply step_lock_discipline.
    + by eapply step_generation_invariant.
Qed.

Lemma workers_generation_invariant (schedule : list worker) (m : matrix)
    (t : tape) (s : system) :
  well_formed ROWS COLS m = true -> Forall (fun r => 0 <= r) t ->
  run ROWS COLS RAND_MAX density schedule (initial m t) = Some s ->
  generation_invariant ROWS COLS s.
Proof.
  intros Hwf Hpos. apply run_generation_invariant.
  - apply initial_lock_discipline.
  - by split.
Qed.

End Mutex.

(** ** What the search finds and what it marks *)

Section Reachability.

Variables ROWS COLS : Z.

Local Abbreviation wf := (well_formed ROWS COLS).
Local Abbreviation inb := (in_bounds ROWS COLS).
Local Abbreviation conn := (connected ROWS COLS).

Lemma connected_head (m : matrix) (r c r2 c2 : Z) :
  conn m r c r2 c2 -> inb r c /\ expandable (get m r c).
Proof. by intros [|]. Qed.

Lemma connected_mono (m m' : matrix) (r c r2 c2 : Z) :
  (forall r c, expandable (get m' r c) -> expandable (get m r c)) ->
  conn m' r c r2 c2 -> conn m r c r2 c2.
Proof.
  intros Hback. induction 1 as [r c Hb He|r c r1 c1 r2 c2 Hb He Ha _ IH].
  - apply connected_here; auto.
  - eapply connected_step; eauto.
Qed.

Lemma first_found_true (row col : Z) (ds : list Path) (d : Path) :
  d ∈ ds -> found d = true -> found (first_found row col ds) = true.
Proof.
  intros Hd Hf. unfold first_found.
  destruct (find found ds) as [d'|] eqn:Hfind; [done|].
  apply list_elem_of_In in Hd.
  pose proof (find_none _ _ Hfind d Hd) as Hnone. congruence.
Qed.

(** A call on an exit cell succeeds at once. *)
Lemma dfs_on_exit (fuel : nat) (m : matrix) (row col : Z) (p : Path)
    (m' : matrix) (log : list (Z * Z)) :
  inb row col -> get m row col = EXIT ->
  dfs ROWS COLS fuel m row col = Some (p, m', log) ->
  found p = true.
Proof.
  intros Hb He Hrun. destruct fuel as [|fuel]; [done|].
  apply dfs_inv in Hrun
    as [(Hout & _)|[(_ & _ & [= -> _ _])
       |[(_ & Hcv & _)|(_ & Hexp & _)]]].
  - done.
  - done.
  - rewrite He in Hcv. by destruct Hcv.
  - rewrite He in Hexp. by destruct Hexp as (? & _).
Qed.

(** The marks of the cell expanded and of the four calls made from it. *)
Lemma dfs_expansion_marks (fuel : nat) (m : matrix) (row col : Z)
    (d0 d1 d2 d3 : Path) (m1 m2 m3 m4 : matrix) (v0 v1 v2 v3 : list (Z * Z)) :
  wf m = true -> inb row col -> expandable (get m row col) ->
  dfs ROWS COLS fuel (set m row col VISITED) (row - 1) col = Some (d0, m1, v0) ->
  dfs ROWS COLS fuel m1 (row + 1) col = Some (d1, m2, v1) ->
  dfs ROWS COLS fuel m2 row (col - 1) = Some (d2, m3, v2) ->
  dfs ROWS COLS fuel m3 row (col + 1) = Some (d3, m4, v3) ->
  marks ROWS COLS m (set m row col VISITED) [(row, col)]
  /\ marks ROWS COLS (set m row col VISITED) m1 v0
  /\ marks ROWS COLS m1 m2 v1
  /\ marks ROWS COLS m2 m3 v2
  /\ marks ROWS COLS m3 m4 v3.
Proof.
  intros Hwf Hin Hexp E0 E1 E2 E3.
  pose proof (marks_set ROWS COLS m row col Hwf Hin Hexp) as K.
  pose proof (dfs_marks _ _ fuel _ _ _ _ _ _ (marks_wf _ _ _ _ _ K) E0) as K0.
  pose proof (dfs_marks _ _ fuel _ _ _ _ _ _ (marks_wf _ _ _ _ _ K0) E1) as K1.
  pose proof (dfs_marks _ _ fuel _ _ _ _ _ _ (marks_wf _ _ _ _ _ K1) E2) as K2.
  pose proof (dfs_marks _ _ fuel _ _ _ _ _ _ (marks_wf _ _ _ _ _ K2) E3) as K3.
  done.
Qed.

Lemma marks_keeps_settled (ma mb : matrix) (lg : list (Z * Z)) (r c : Z) :
  marks ROWS COLS ma mb lg ->
  ~ expandable (get ma r c) -> ~ expandable (get mb r c).
Proof. intros Hm Hne. by erewrite marks_not_expandable_stays. Qed.

Lemma marks_keeps_exit (ma mb : matrix) (lg : list (Z * Z)) (r c : Z) :
  marks ROWS COLS ma mb lg -> get ma r c = EXIT -> get mb r c = EXIT.
Proof.
  intros Hm He. erewrite marks_not_expandable_stays; [done..|].
  rewrite He. by intros (? & _).
Qed.

Lemma marks_exit_back (ma mb : matrix) (lg : list (Z * Z)) (r c : Z) :
  marks ROWS COLS ma mb lg -> get mb r c = EXIT -> get ma r c = EXIT.
Proof.
  intros Hm He. erewrite marks_back; [done..|]. by rewrite He.
Qed.

(** Every cell the call marks is connected to its start. *)
Lemma dfs_log_connected (fuel : nat) :
  forall (m : matrix) (row col : Z) (p : Path) (m' : matrix)
         (log : list (Z * Z)),
    wf m = true ->
    dfs ROWS COLS fuel m row col = Some (p, m', log) ->
    forall r2 c2, (r2, c2) ∈ log -> conn m row col r2 c2.
Proof.
  induction fuel as [|fuel IH]; intros m row col p m' log Hwf Hrun; [done|].
  apply dfs_inv in Hrun
    as [(_ & [= -> -> ->])|[(_ & _ & [= -> -> ->])
       |[(_ & _ & [= -> -> ->])|(Hin & Hexp & Hrec)]]];
    try (by intros r2 c2 ?%elem_of_nil).
  destruct Hrec as (d0 & m1 & v0 & d1 & m2 & v1 & d2 & m3 & v2 & d3 & m4 & v3
                    & E0 & E1 & E2 & E3 & [= -> -> ->]).
  destruct (dfs_expansion_marks _ _ _ _ _ _ _ _ _ _ _ _ _ _ _ _
              Hwf Hin Hexp E0 E1 E2 E3) as (K & K0 & K1 & K2 & K3).
  pose proof (marks_trans _ _ _ _ _ _ _ K K0) as T0.
  pose proof (marks_trans _ _ _ _ _ _ _ T0 K1) as T1.
  pose proof (marks_trans _ _ _ _ _ _ _ T1 K2) as T2.
  intros r2 c2 Hl.
  apply elem_of_cons in Hl as [[= -> ->]|Hl]; [by apply connected_here|].
  assert (Hvia : forall mi lg ri ci,
            marks ROWS COLS m mi lg -> adjacent row col ri ci ->
            conn mi ri ci r2 c2 -> conn m row col r2 c2).
  { intros mi lg ri ci Hm Ha Hc. eapply connected_step; [done..|].
    eapply connected_mono; [|done].
    intros r c. by eapply marks_expandable_back. }
  repeat (apply elem_of_app in Hl as [Hl|Hl]).
  - eapply (Hvia _ _ _ _ K); [|by eapply IH; [eapply marks_wf|..]].
    unfold adjacent. tauto.
  - eapply (Hvia _ _ _ _ T0); [|by eapply IH; [eapply marks_wf|..]].
    unfold adjacent. tauto.
  - eapply (Hvia _ _ _ _ T1); [|by eapply IH; [eapply marks_wf|..]].
    unfold adjacent. tauto.
  - eapply (Hvia _ _ _ _ T2); [|by eapply IH; [eapply marks_wf|..]].
    unfold adjacent. tauto.
Qed.

(** After the call, no neighbour of a cell it marked is left expandable. *)
Lemma dfs_closed (fuel : nat) :
  forall (m : matrix) (row col : Z) (p : Path) (m' : matrix)
         (log : list (Z * Z)),
    wf m = true ->
    dfs ROWS COLS fuel m row col = Some (p, m', log) ->
    forall r0 c0 r1 c1, (r0, c0) ∈ log -> adjacent r0 c0 r1 c1 ->
      inb r1 c1 -> ~ expandable (get m' r1 c1).
Proof.
  induction fuel as [|fuel IH]; intros m row col p m' log Hwf Hrun; [done|].
  apply dfs_inv in Hrun
    as [(_ & [= -> -> ->])|[(_ & _ & [= -> -> ->])
       |[(_ & _ & [= -> -> ->])|(Hin & Hexp & Hrec)]]];
    try (by intros r0 c0 r1 c1 ?%elem_of_nil).
  destruct Hrec as (d0 & m1 & v0 & d1 & m2 & v1 & d2 & m3 & v2 & d3 & m4 & v3
                    & E0 & E1 & E2 & E3 & [= -> -> ->]).
  destruct (dfs_expansion_marks _ _ _ _ _ _ _ _ _ _ _ _ _ _ _ _
              Hwf Hin Hexp E0 E1 E2 E3) as (K & K0 & K1 & K2 & K3).
  intros r0 c0 r1 c1 Hl Ha Hb.
  apply elem_of_cons in Hl as [[= -> ->]|Hl].
  { destruct Ha as [[-> ->]|[[-> ->]|[[-> ->]|[-> ->]]]].
    - eapply marks_keeps_settled; [exact K3|].
      eapply marks_keeps_settled; [exact K2|].
      eapply marks_keeps_settled; [exact K1|].
      eapply dfs_settles; [eapply marks_wf; exact K|done|exact E0].
    - eapply marks_keeps_settled; [exact K3|].
      eapply marks_keeps_settled; [exact K2|].
      eapply dfs_settles; [eapply marks_wf; exact K0|done|exact E1].
    - eapply marks_keeps_settled; [exact K3|].
      eapply dfs_settles; [eapply marks_wf; exact K1|done|exact E2].
    - eapply dfs_settles; [eapply marks_wf; exact K2|done|exact E3]. }
  repeat (apply elem_of_app in Hl as [Hl|Hl]).
  - eapply marks_keeps_settled; [exact K3|].
    eapply marks_keeps_settled; [exact K2|].
    eapply marks_keeps_settled; [exact K1|].
    eapply (IH _ _ _ _ _ _ (marks_wf _ _ _ _ _ K) E0); eauto.
  - eapply marks_keeps_settled; [exact K3|].
    eapply marks_keeps_settled; [exact K2|].
    eapply (IH _ _ _ _ _ _ (marks_wf _ _ _ _ _ K0) E1); eauto.
  - eapply marks_keeps_settled; [exact K3|].
    eapply (IH _ _ _ _ _ _ (marks_wf _ _ _ _ _ K1) E2); eauto.
  - eapply (IH _ _ _ _ _ _ (marks_wf _ _ _ _ _ K2) E3); eauto.
Qed.

(** A marked cell next to an exit makes the call succeed. *)
Lemma dfs_exit_neighbour (fuel : nat) :
  forall (m : matrix) (row col : Z) (p : Path) (m' : matrix)
         (log : list (Z * Z)),
    wf m = true ->
    dfs ROWS COLS fuel m row col = Some (p, m', log) ->
    forall r0 c0 r1 c1, (r0, c0) ∈ log -> adjacent r0 c0 r1 c1 ->
      inb r1 c1 -> get m r1 c1 = EXIT -> found p = true.
Proof.
  induction fuel as [|fuel IH]; intros m row col p m' log Hwf Hrun; [done|].
  apply dfs_inv in Hrun
    as [(_ & [= -> -> ->])|[(_ & _ & [= -> -> ->])
       |[(_ & _ & [= -> -> ->])|(Hin & Hexp & Hrec)]]];
    try (by intros r0 c0 r1 c1 ?%elem_of_nil).
  destruct Hrec as (d0 & m1 & v0 & d1 & m2 & v1 & d2 & m3 & v2 & d3 & m4 & v3
                    & E0 & E1 & E2 & E3 & [= -> -> ->]).
  destruct (dfs_expansion_marks _ _ _ _ _ _ _ _ _ _ _ _ _ _ _ _
              Hwf Hin Hexp E0 E1 E2 E3) as (K & K0 & K1 & K2 & K3).
  pose proof (marks_trans _ _ _ _ _ _ _ K K0) as T0.
  pose proof (marks_trans _ _ _ _ _ _ _ T0 K1) as T1.
  pose proof (marks_trans _ _ _ _ _ _ _ T1 K2) as T2.
  intros r0 c0 r1 c1 Hl Ha Hb He.
  pose proof (marks_keeps_exit _ _ _ _ _ K He) as He0.
  pose proof (marks_keeps_exit _ _ _ _ _ T0 He) as He1.
  pose proof (marks_keeps_exit _ _ _ _ _ T1 He) as He2.
  pose proof (marks_keeps_exit _ _ _ _ _ T2 He) as He3.
  assert (Hany : found d0 = true \/ found d1 = true
                 \/ found d2 = true \/ found d3 = true).
  { apply elem_of_cons in Hl as [[= -> ->]|Hl].
    { destruct Ha as [[-> ->]|[[-> ->]|[[-> ->]|[-> ->]]]].
      - left. exact (dfs_on_exit _ _ _ _ _ _ _ Hb He0 E0).
      - right; left. exact (dfs_on_exit _ _ _ _ _ _ _ Hb He1 E1).
      - right; right; left. exact (dfs_on_exit _ _ _ _ _ _ _ Hb He2 E2).
      - right; right; right. exact (dfs_on_exit _ _ _ _ _ _ _ Hb He3 E3). }
    repeat (apply elem_of_app in Hl as [Hl|Hl]).
    - left.
      eapply (IH _ _ _ _ _ _ (marks_wf _ _ _ _ _ K) E0); eauto.
    - right; left.
      eapply (IH _ _ _ _ _ _ (marks_wf _ _ _ _ _ K0) E1); eauto.
    - right; right; left.
      eapply (IH _ _ _ _ _ _ (marks_wf _ _ _ _ _ K1) E2); eauto.
    - right; right; right.
      eapply (IH _ _ _ _ _ _ (marks_wf _ _ _ _ _ K2) E3); eauto. }
  destruct Hany as [Hf|[Hf|[Hf|Hf]]];
    (eapply first_found_true; [|exact Hf]); rewrite !elem_of_cons; tauto.
Qed.

(** A call that succeeds has reached the exit it reports. *)
Lemma dfs_sound (fuel : nat) :
  forall (m : matrix) (row col : Z) (p : Path) (m' : matrix)
         (log : list (Z * Z)),
    wf m = true ->
    dfs ROWS COLS fuel m row col = Some (p, m', log) ->
    found p = true ->
    reaches_exit ROWS COLS m row col (end_x p) (end_y p).
Proof.
  induction fuel as [|fuel IH]; intros m row col p m' log Hwf Hrun; [done|].
  apply dfs_inv in Hrun
    as [(_ & [= -> -> ->])|[(Hin & Hex & [= -> -> ->])
       |[(_ & _ & [= -> -> ->])|(Hin & Hexp & Hrec)]]]; [done| |done|].
  { intros _. simpl. split; [done|]. split; [done|]. by left. }
  destruct Hrec as (d0 & m1 & v0 & d1 & m2 & v1 & d2 & m3 & v2 & d3 & m4 & v3
                    & E0 & E1 & E2 & E3 & [= -> -> ->]).
  destruct (dfs_expansion_marks _ _ _ _ _ _ _ _ _ _ _ _ _ _ _ _
              Hwf Hin Hexp E0 E1 E2 E3) as (K & K0 & K1 & K2 & K3).
  pose proof (marks_trans _ _ _ _ _ _ _ K K0) as T0.
  pose proof (marks_trans _ _ _ _ _ _ _ T0 K1) as T1.
  pose proof (marks_trans _ _ _ _ _ _ _ T1 K2) as T2.
  intros Hf.
  destruct (first_found_inv row col [d0; d1; d2; d3]) as [Hyes _].
  destruct (Hyes Hf) as (d & Hd & Hfd & ->). simpl.
  assert (Hvia : forall mi lg ri ci,
            marks ROWS COLS m mi lg -> adjacent row col ri ci ->
            reaches_exit ROWS COLS mi ri ci (end_x d) (end_y d) ->
            reaches_exit ROWS COLS m row col (end_x d) (end_y d)).
  { intros mi lg ri ci Hm Ha (Hb & He & Hfrom).
    split; [done|]. split; [by eapply marks_exit_back|]. right.
    destruct Hfrom as [[= -> ->]|(r1 & c1 & Hc & Ha1)].
    - exists row, col. split; [by apply connected_here|done].
    - exists r1, c1. split; [|done].
      eapply connected_step; [done..|].
      eapply connected_mono; [|done].
      intros r c. by eapply marks_expandable_back. }
  repeat (apply elem_of_cons in Hd as [->|Hd]).
  - apply (Hvia _ _ (row - 1) col K); [unfold adjacent; tauto|].
    by apply (IH _ _ _ _ _ _ (marks_wf _ _ _ _ _ K) E0).
  - apply (Hvia _ _ (row + 1) col T0); [unfold adjacent; tauto|].
    by apply (IH _ _ _ _ _ _ (marks_wf _ _ _ _ _ K0) E1).
  - apply (Hvia _ _ row (col - 1) T1); [unfold adjacent; tauto|].
    by apply (IH _ _ _ _ _ _ (marks_wf _ _ _ _ _ K1) E2).
  - apply (Hvia _ _ row (col + 1) T2); [unfold adjacent; tauto|].
    by apply (IH _ _ _ _ _ _ (marks_wf _ _ _ _ _ K2) E3).
  - by apply elem_of_nil in Hd.
Qed.

(** A call on an expandable cell of the matrix marks that cell. *)
Lemma dfs_logs_start (fuel : nat) (m : matrix) (row col : Z) (p : Path)
    (m' : matrix) (log : list (Z * Z)) :
  inb row col -> expandable (get m row col) ->
  dfs ROWS COLS fuel m row col = Some (p, m', log) ->
  (row, col) ∈ log.
Proof.
  intros Hb He Hrun. destruct fuel as [|fuel]; [done|].
  apply dfs_inv in Hrun
    as [(Hout & _)|[(_ & Hex & _)|[(_ & Hcv & _)|(_ & _ & Hrec)]]].
  - done.
  - rewrite Hex in He. by destruct He as (? & _).
  - destruct He as (_ & ? & ?). by destruct Hcv.
  - destruct Hrec as (d0 & m1 & v0 & d1 & m2 & v1 & d2 & m3 & v2 & d3 & m4
                      & v3 & _ & _ & _ & _ & [= -> -> ->]).
    by left.
Qed.

(** The marked cells are closed under connection. *)
Lemma dfs_log_closed (fuel : nat) (m : matrix) (row col : Z) (p : Path)
    (m' : matrix) (log : list (Z * Z)) :
  wf m = true ->
  dfs ROWS COLS fuel m row col = Some (p, m', log) ->
  forall r c r2 c2, conn m r c r2 c2 -> (r, c) ∈ log -> (r2, c2) ∈ log.
Proof.
  intros Hwf Hrun.
  pose proof (dfs_marks _ _ _ _ _ _ _ _ _ Hwf Hrun) as (_ & _ & _ & Hout).
  induction 1 as [r c Hb He|r c r1 c1 r2 c2 Hb He Ha Hc IH]; [done|].
  intros Hl. apply IH.
  destruct (connected_head _ _ _ _ _ Hc) as [Hb1 He1].
  destruct (decide ((r1, c1) ∈ log)) as [|Hnot]; [done|].
  exfalso.
  apply (dfs_closed _ _ _ _ _ _ _ Hwf Hrun r c r1 c1 Hl Ha Hb1).
  by rewrite Hout.
Qed.

(** An exit that can be reached is found. *)
Lemma dfs_complete (fuel : nat) (m : matrix) (row col : Z) (p : Path)
    (m' : matrix) (log : list (Z * Z)) (er ec : Z) :
  wf m = true ->
  dfs ROWS COLS fuel m row col = Some (p, m', log) ->
  reaches_exit ROWS COLS m row col er ec -> found p = true.
Proof.
  intros Hwf Hrun (Hb & He & [[= -> ->]|(r1 & c1 & Hc & Ha)]).
  - by eapply dfs_on_exit.
  - destruct (connected_head _ _ _ _ _ Hc) as [Hb0 He0].
    eapply dfs_exit_neighbour; [done..| |done|done|done].
    eapply dfs_log_closed; [done..|]. by eapply dfs_logs_start.
Qed.

Lemma dfs_component (fuel : nat) (m : matrix) (row col : Z) (p : Path)
    (m' : matrix) (log : list (Z * Z)) :
  wf m = true ->
  dfs ROWS COLS fuel m row col = Some (p, m', log) ->
  forall r c,
    (conn m row col r c -> get m' r c = VISITED)
    /\ (~ conn m row col r c -> get m' r c = get m r c).
Proof.
  intros Hwf Hrun r c.
  pose proof (dfs_marks _ _ _ _ _ _ _ _ _ Hwf Hrun) as (_ & _ & Hin & Hout).
  split.
  - intros Hc. destruct (connected_head _ _ _ _ _ Hc) as [Hb He].
    apply Hin. eapply dfs_log_closed; [done..|]. by eapply dfs_logs_start.
  - intros Hnot. apply Hout. intros Hl. apply Hnot.
    by eapply dfs_log_connected.
Qed.

Hypothesis ROWS_pos : 1 <= ROWS.
Hypothesis COLS_pos : 1 <= COLS.

(** X1.  From any cell of any matrix [dfs] returns, and it reports success
    exactly when an exit can be reached from its start through cells that
    are neither closed nor visited, moving up, down, left or right; the
    end it reports is such an exit. *)
Theorem dfs_finds_reachable_exit (m : matrix) (row col : Z) :
  wf m = true ->
  exists p m' log,
    (forall fuel, (dfs_fuel ROWS COLS <= fuel)%nat ->
       dfs ROWS COLS fuel m row col = Some (p, m', log))
    /\ (found p = true
        <-> exists er ec, reaches_exit ROWS COLS m row col er ec)
    /\ (found p = true ->
        reaches_exit ROWS COLS m row col (end_x p) (end_y p)).
Proof.
  intros Hwf.
  destruct (dfs_terminates ROWS COLS ROWS_pos COLS_pos m row col Hwf)
    as (p & m' & log & Hrun).
  exists p, m', log.
  split; [intros fuel Hle; by eapply dfs_fuel_enough|].
  split; [split|].
  - intros Hf. eexists _, _. by eapply dfs_sound.
  - intros (er & ec & Hb & He & [[= -> ->]|(r1 & c1 & Hc & Ha)]).
    + by eapply dfs_on_exit.
    + destruct (connected_head _ _ _ _ _ Hc) as [Hb0 He0].
      eapply dfs_exit_neighbour; [done..| |done|done|done].
      eapply dfs_log_closed; [done..|]. by eapply dfs_logs_start.
  - by eapply dfs_sound.
Qed.

(** X2.  Whether it succeeds or not, [dfs] marks exactly the cells
    connected to its start and leaves every other cell as it was: the
    cells that are closed, the exits, and the cells it cannot reach. *)
Theorem dfs_marks_component (m : matrix) (row col : Z) :
  wf m = true ->
  exists p m' log,
    (forall fuel, (dfs_fuel ROWS COLS <= fuel)%nat ->
       dfs ROWS COLS fuel m row col = Some (p, m', log))
    /\ well_formed ROWS COLS m' = true
    /\ forall r c,
         (conn m row col r c -> get m' r c = VISITED)
         /\ (~ conn m row col r c -> get m' r c = get m r c).
Proof.
  intros Hwf.
  destruct (dfs_terminates ROWS COLS ROWS_pos COLS_pos m row col Hwf)
    as (p & m' & log & Hrun).
  exists p, m', log.
  split; [intros fuel Hle; by eapply dfs_fuel_enough|].
  pose proof (dfs_marks _ _ _ _ _ _ _ _ _ Hwf Hrun) as (Hwf' & _ & Hin & Hout).
  split; [done|]. clear Hwf'. intros r c. split.
  - intros Hc. destruct (connected_head _ _ _ _ _ Hc) as [Hb He].
    apply Hin. eapply dfs_log_closed; [done..|]. by eapply dfs_logs_start.
  - intros Hnot. apply Hout. intros Hl. apply Hnot.
    by eapply dfs_log_connected.
Qed.

(** *** find_path *)

(** The scan of [find_path] stops at the first entry marker it meets on
    the edge. *)
Lemma find_entry_first (m : matrix) :
  (find_entry ROWS COLS m = (-1, -1, false)
   /\ forall r c, inb r c -> on_edge ROWS COLS r c = true ->
                  get m r c <> ENTRY)
  \/ (exists er ec,
        find_entry ROWS COLS m = (er, ec, true)
        /\ inb er ec /\ on_edge ROWS COLS er ec = true
        /\ get m er ec = ENTRY
        /\ forall r c, inb r c -> scanned_before r c er ec ->
             on_edge ROWS COLS r c = true -> get m r c <> ENTRY).
Proof.
  unfold find_entry.
  pose (I := fun (row col : Z) (s : Z * Z * bool) =>
    (s = (-1, -1, false)
     /\ forall r c, inb r c -> scanned_before r c row col ->
                    on_edge ROWS COLS r c = true -> get m r c <> ENTRY)
    \/ (exists er ec, s = (er, ec, true)
          /\ inb er ec /\ on_edge ROWS COLS er ec = true
          /\ get m er ec = ENTRY
          /\ forall r c, inb r c -> scanned_before r c er ec ->
               on_edge ROWS COLS r c = true -> get m r c <> ENTRY)).
  assert (Hend : I ROWS 0 (for_cells ROWS COLS (find_entry_step ROWS COLS m)
                                     (-1, -1, false))).
  { apply for_cells_ind; [lia..| | |]; unfold I.
    - left. split; [done|]. intros r c [? ?] [?|[? ?]]; lia.
    - intros row col s Hr Hc [[-> Hnone]|(er & ec & -> & ?)].
      + unfold find_entry_step.
        destruct (on_edge ROWS COLS row col && (get m row col =? ENTRY)%char)
          eqn:Htest.
        * right. exists row, col.
          apply andb_prop in Htest as [He Hg]. apply Ascii.eqb_eq in Hg.
          split; [done|]. split; [by split|]. by split.
        * left. split; [done|]. intros r c Hb Hbefore Hedge Hg.
          destruct (scanned_step _ _ _ _ Hbefore) as [[= -> ->]|Hold].
          -- rewrite Hedge in Htest. simpl in Htest.
             apply Ascii.eqb_neq in Htest. done.
          -- by apply (Hnone r c).
      + right. by exists er, ec.
    - intros row s Hr [[-> Hnone]|?]; [|by right].
      left. split; [done|]. intros r c Hb Hbefore. apply Hnone; [done|].
      by eapply scanned_next_row. }
  destruct Hend as [[-> Hnone]|?]; [|by right].
  left. split; [done|]. intros r c Hb. apply Hnone; [done|].
  by eapply scanned_end.
Qed.

(** X3.  [find_path] searches from the first entry marker on the edge in
    row-major order: an entry marker inside the matrix, or a later one on
    the edge, is not looked at. *)
Theorem find_entry_is_first_edge_entry (m : matrix) (er ec : Z) :
  find_entry ROWS COLS m = (er, ec, true)
  <-> inb er ec /\ on_edge ROWS COLS er ec = true /\ get m er ec = ENTRY
      /\ forall r c, inb r c -> scanned_before r c er ec ->
           on_edge ROWS COLS r c = true -> get m r c <> ENTRY.
Proof.
  split.
  - intros Hf.
    destruct (find_entry_first m) as [[Hno _]|(er' & ec' & Hf' & Hrest)];
      [congruence|].
    rewrite Hf in Hf'. by injection Hf' as <- <-.
  - intros (Hb & He & Hg & Hfirst).
    destruct (find_entry_first m)
      as [[_ Hnone]|(er' & ec' & Hf' & Hb' & He' & Hg' & Hfirst')].
    { by destruct (Hnone er ec). }
    rewrite Hf'. repeat f_equal.
    + destruct (decide (er' = er)) as [|Hne]; [done|]. exfalso.
      destruct (decide (er' < er)).
      * apply (Hfirst er' ec'); [done|by left|done..].
      * apply (Hfirst' er ec); [done|left; lia|done..].
    + destruct (decide (er' = er)) as [->|Hne].
      * destruct (decide (ec' = ec)) as [|Hnc]; [done|]. exfalso.
        destruct (decide (ec' < ec)).
        -- apply (Hfirst er ec'); [done|by right|done..].
        -- apply (Hfirst' er ec); [done|right; lia|done..].
      * exfalso. destruct (decide (er' < er)).
        -- apply (Hfirst er' ec'); [done|by left|done..].
        -- apply (Hfirst' er ec); [done|left; lia|done..].
Qed.

(** X4.  [find_path] always returns, and its three reports are exact:
    "Entry point not found" when there is no entry marker on the edge
    (the matrix is left as it is); a path from the entry to the exit it
    names when an exit can be reached from the entry; "No path found" when
    none can.  In the last two cases the cells connected to the entry are
    marked visited and all the others are left as they were. *)
Theorem find_path_reports (m : matrix) :
  wf m = true ->
  exists rep m',
    find_path ROWS COLS m = Some (rep, m')
    /\ match rep with
       | EntryPointNotFound =>
           m' = m
           /\ forall r c, inb r c -> on_edge ROWS COLS r c = true ->
                get m r c <> ENTRY
       | NoPathFound =>
           exists er ec,
             find_entry ROWS COLS m = (er, ec, true)
             /\ (forall xr xc, ~ reaches_exit ROWS COLS m er ec xr xc)
             /\ forall r c,
                  (conn m er ec r c -> get m' r c = VISITED)
                  /\ (~ conn m er ec r c -> get m' r c = get m r c)
       | PartialPathFound sx sy ex ey =>
           find_entry ROWS COLS m = (sx, sy, true)
           /\ reaches_exit ROWS COLS m sx sy ex ey
           /\ forall r c,
                (conn m sx sy r c -> get m' r c = VISITED)
                /\ (~ conn m sx sy r c -> get m' r c = get m r c)
       end.
Proof.
  intros Hwf.
  destruct (find_entry_spec ROWS COLS ROWS_pos COLS_pos m)
    as [[_ Hnone]|(er & ec & Hf & _)].
  - exists EntryPointNotFound, m. split; [|done].
    by apply find_path_without_entry.
  - destruct (find_path_with_entry ROWS COLS ROWS_pos COLS_pos m er ec Hwf Hf)
      as (_ & _ & _ & p & m' & log & Hrun & Hfp).
    pose proof (dfs_component _ _ _ _ _ _ _ Hwf Hrun) as Hcomp.
    destruct (found p) eqn:Hfound.
    + exists (PartialPathFound (start_x p) (start_y p) (end_x p) (end_y p)), m'.
      split; [done|].
      pose proof (dfs_sound _ _ _ _ _ _ _ Hwf Hrun Hfound) as Hreach.
      destruct (dfs_path _ _ _ _ _ _ _ _ _ Hwf Hrun) as [Hyes _].
      destruct (Hyes Hfound) as (-> & -> & _). done.
    + exists NoPathFound, m'. split; [done|].
      exists er, ec. split; [done|]. split; [|done].
      intros xr xc Hreach.
      pose proof (dfs_complete _ _ _ _ _ _ _ _ _ Hwf Hrun Hreach). congruence.
Qed.

End Reachability.

(** ** What a pass writes *)

Section Passes.

Variables ROWS COLS : Z.
Variable RAND_MAX : positive.
Variable density : Q.
Hypothesis ROWS_nonneg : 0 <= ROWS.
Hypothesis COLS_nonneg : 0 <= COLS.

Local Abbreviation wf := (well_formed ROWS COLS).
Local Abbreviation inb := (in_bounds ROWS COLS).
Local Abbreviation edge := (on_edge ROWS COLS).

(** The placement scan writes markers, and writes them on the edge. *)
Lemma place_entry_exit_points_edge (t : tape) (m : matrix) (m' : matrix)
    (t' : tape) :
  wf m = true ->
  place_entry_exit_points ROWS COLS t m = Some (m', t') ->
  wf m' = true
  /\ forall r c, get m' r c = get m r c
                 \/ (inb r c /\ edge r c = true
                     /\ (get m' r c = ENTRY \/ get m' r c = EXIT)).
Proof.
  intros Hwf Hrun. unfold place_entry_exit_points in Hrun.
  destruct t as [|r0 t1]; [done|].
  destruct (draw_exit_position _ _ t1) as [[x t2]|]; [|done].
  set (e := Z.rem r0 (2 * (ROWS + COLS) - 4)) in *.
  pose (I := fun (_ _ : Z) (s : place_state) =>
          wf s.1.1.1 = true
          /\ forall r c, get s.1.1.1 r c = get m r c
               \/ (inb r c /\ edge r c = true
                   /\ (get s.1.1.1 r c = ENTRY \/ get s.1.1.1 r c = EXIT))).
  assert (Hend : I ROWS 0 (for_cells ROWS COLS (place_step ROWS COLS e x)
                                     (m, 0, false, false))).
  { apply for_cells_ind; [done..| | |]; unfold I.
    - simpl. split; [done|]. by left.
    - intros row col [[[ma counter] ep] xp] Hr Hc [Hwfa Ha]. simpl in *.
      unfold place_step.
      destruct (on_edge ROWS COLS row col) eqn:Hedge; [|done].
      destruct ((counter =? e) && negb ep).
      { simpl. split; [by apply well_formed_set|].
        intros r c. rewrite (get_set ROWS COLS) by done.
        destruct (decide _) as [[= -> ->]|]; [|done].
        right. split; [done|]. split; [done|]. by left. }
      destruct ((counter =? x) && negb xp); [|done].
      simpl. split; [by apply well_formed_set|].
      intros r c. rewrite (get_set ROWS COLS) by done.
      destruct (decide _) as [[= -> ->]|]; [|done].
      right. split; [done|]. split; [done|]. by right.
    - done. }
  destruct (for_cells ROWS COLS (place_step ROWS COLS e x)
                      (m, 0, false, false)) as [[[m1 counter] ep] xp].
  injection Hrun as <- <-. apply Hend.
Qed.

(** X5.  Whatever the matrix held before (the marks of a search, stale
    markers, any character), after a pass of [randomize_matrix] every
    cell inside the edge is open or closed, and a cell of the edge is
    open, closed, the entry or the exit.  The dimensions are those for
    which [edge_length] is positive, so that [rand() % edge_length] is
    defined. *)
Theorem randomize_matrix_cells (t : tape) (m : matrix) (m' : matrix)
    (t' : tape) :
  0 < 2 * (ROWS + COLS) - 4 ->
  wf m = true ->
  randomize_matrix ROWS COLS RAND_MAX density t m = Some (m', t') ->
  wf m' = true
  /\ forall r c, inb r c ->
       get m' r c = OPEN \/ get m' r c = CLOSED
       \/ (edge r c = true /\ (get m' r c = ENTRY \/ get m' r c = EXIT)).
Proof.
  intros _ Hwf Hrun.
  destruct (randomize_matrix_phases ROWS COLS RAND_MAX density
              ROWS_nonneg COLS_nonneg _ _ _ _ Hwf Hrun)
    as (m1 & t1 & m2 & Hfill & Hwf2 & Hsame & _ & Hplace).
  destruct (place_entry_exit_points_edge _ _ _ _ Hwf2 Hplace)
    as [Hwf' Hwrites].
  split; [done|]. intros r c Hb.
  destruct (Hwrites r c) as [Heq|(_ & He & Hmk)]; [|by right; right].
  rewrite Heq.
  destruct (Hsame r c) as [Heq1|[-> _]]; [|by right; left].
  rewrite Heq1.
  destruct Hfill as (_ & _ & _ & Hdone).
  destruct (Hdone r c Hb (scanned_end _ _ _ _ Hb))
    as [(Ho & _)|[Hcl|(He & Heq2 & Hmk)]].
  - by left.
  - by right; left.
  - right; right. split; [done|]. by rewrite Heq2.
Qed.

(** No draw of [rand] is below a negative density. *)
Lemma negative_density_rejects (r : Z) :
  (density < 0)%Q -> 0 <= r ->
  Qle_bool (random_value RAND_MAX r) density = false.
Proof.
  intros Hd Hr. destruct (Qle_bool _ _) eqn:Hq; [|done].
  apply Qle_bool_iff in Hq. unfold random_value, Qle, Qlt in *.
  simpl in *. nia.
Qed.

(** X6.  With a negative density, which [main] does not refuse, a pass
    leaves no open cell, whatever the matrix held before. *)
Theorem negative_density_no_open_cell (t : tape) (m : matrix) (m' : matrix)
    (t' : tape) :
  0 < 2 * (ROWS + COLS) - 4 ->
  (density < 0)%Q ->
  wf m = true ->
  Forall (fun r => 0 <= r) t ->
  randomize_matrix ROWS COLS RAND_MAX density t m = Some (m', t') ->
  forall r c, inb r c -> get m' r c <> OPEN.
Proof.
  intros _ Hd Hwf Hpos Hrun r c Hb.
  destruct (randomize_matrix_phases ROWS COLS RAND_MAX density
              ROWS_nonneg COLS_nonneg _ _ _ _ Hwf Hrun)
    as (m1 & t1 & m2 & Hfill & Hwf2 & Hsame & _ & Hplace).
  destruct (place_entry_exit_points_edge _ _ _ _ Hwf2 Hplace)
    as [_ Hwrites].
  destruct (Hwrites r c) as [Heq|(_ & _ & [-> | ->])]; [|done..].
  rewrite Heq.
  destruct (Hsame r c) as [Heq1|[-> _]]; [|done].
  rewrite Heq1.
  destruct Hfill as (_ & _ & _ & Hdone).
  destruct (Hdone r c Hb (scanned_end _ _ _ _ Hb))
    as [(_ & _ & r0 & Hr0 & Hq)|[-> |(_ & -> & [-> | ->])]]; [|done..].
  rewrite Forall_forall in Hpos.
  by rewrite (negative_density_rejects r0 Hd (Hpos r0 Hr0)) in Hq.
Qed.

(** X7.  In a matrix of one row or of one column every cell is on the
    edge, and there are fewer of them than [edge_length] candidates: when
    the position drawn for the entry is not below the number of cells,
    [place_entry_exit_points] places no entry. *)
Theorem thin_matrix_entry_not_placed (r0 : Z) (t : tape) (m : matrix)
    (m' : matrix) (t' : tape) :
  ROWS = 1 \/ COLS = 1 ->
  0 < 2 * (ROWS + COLS) - 4 ->
  wf m = true ->
  (forall r c, inb r c -> get m r c <> ENTRY) ->
  0 <= r0 ->
  ROWS * COLS <= Z.rem r0 (2 * (ROWS + COLS) - 4) ->
  place_entry_exit_points ROWS COLS (r0 :: t) m = Some (m', t') ->
  forall r c, inb r c -> get m' r c <> ENTRY.
Proof.
  intros Hthin _ Hwf Hfree _ He Hrun. unfold place_entry_exit_points in Hrun.
  destruct (draw_exit_position _ _ t) as [[x t2]|]; [|done].
  set (e := Z.rem r0 (2 * (ROWS + COLS) - 4)) in *.
  pose (I := fun (row col : Z) (s : place_state) =>
          wf s.1.1.1 = true
          /\ s.1.1.2 = row * COLS + col
          /\ forall r c, inb r c -> get s.1.1.1 r c <> ENTRY).
  assert (Hend : I ROWS 0 (for_cells ROWS COLS (place_step ROWS COLS e x)
                                     (m, 0, false, false))).
  { apply for_cells_ind; [done..| | |]; unfold I.
    - simpl. split; [done|]. split; [lia|done].
    - intros row col [[[ma counter] ep] xp] Hr Hc (Hwfa & Hcount & Ha).
      simpl in *. unfold place_step.
      assert (Hedge : on_edge ROWS COLS row col = true).
      { unfold on_edge. destruct Hthin.
        - by replace (row =? 0) with true by (symmetry; apply Z.eqb_eq; lia).
        - replace (col =? 0) with true by (symmetry; apply Z.eqb_eq; lia).
          by rewrite orb_true_r. }
      rewrite Hedge.
      replace (counter =? e) with false
        by (symmetry; apply Z.eqb_neq; nia).
      simpl.
      destruct ((counter =? x) && negb xp); simpl.
      + split; [by apply well_formed_set|]. split; [lia|].
        intros r c Hb. rewrite (get_set ROWS COLS) by done.
        destruct (decide _); [done|by apply Ha].
      + split; [done|]. split; [lia|done].
    - intros row [[[ma counter] ep] xp] Hr (Hwfa & Hcount & Ha). simpl in *.
      split; [done|]. split; [lia|done]. }
  destruct (for_cells ROWS COLS (place_step ROWS COLS e x)
                      (m, 0, false, false)) as [[[m1 counter] ep] xp].
  injection Hrun as <- <-. apply Hend.
Qed.

End Passes.

(** ** Where the markers go *)

Section Ranks.

Variables ROWS COLS : Z.
Hypothesis ROWS_two : 2 <= ROWS.
Hypothesis COLS_two : 2 <= COLS.

Local Abbreviation wf := (well_formed ROWS COLS).
Local Abbreviation inb := (in_bounds ROWS COLS).
Local Abbreviation edge := (on_edge ROWS COLS).
Local Abbreviation before := (edges_before ROWS COLS).

Lemma scanned_before_b_spec (r c row col : Z) :
  scanned_before_b r c row col = true <-> scanned_before r c row col.
Proof.
  unfold scanned_before_b, scanned_before.
  rewrite orb_true_iff, andb_true_iff, !Z.ltb_lt, Z.eqb_eq. tauto.
Qed.

Lemma before_step (row col : Z) :
  inb row col ->
  before row (col + 1) = before row col + (if edge row col then 1 else 0).
Proof.
  intros [Hr Hc]. destruct (edge row col) eqn:He.
  - apply edges_before_edge; first [done | lia].
  - rewrite Z.add_0_r. apply edges_before_inner; first [done | lia].
Qed.

Lemma before_next_row (row : Z) :
  0 <= row < ROWS -> before (row + 1) 0 = before row COLS.
Proof. intros Hr. apply edges_before_next_row; first [done | lia]. Qed.

(** The closed form [edges_before] counts the edge cells scanned before a
    cell. *)
Lemma edge_rank_eq (row col : Z) :
  inb row col -> edge_rank ROWS COLS row col = before row col.
Proof.
  intros [Hrow Hcol]. unfold edge_rank, count_cells.
  pose (I := fun (r c : Z) (n : Z) =>
          n = if scanned_before_b r c row col then before r c
              else before row col).
  assert (Hend : I ROWS 0
            (for_cells ROWS COLS
               (fun r c n =>
                  if on_edge ROWS COLS r c && scanned_before_b r c row col
                  then n + 1 else n) 0)).
  { apply for_cells_ind; [lia..| | |]; unfold I.
    - destruct (scanned_before_b 0 0 row col) eqn:Hb; [done|].
      assert (~ scanned_before 0 0 row col) as Hn
        by (rewrite <- scanned_before_b_spec; congruence).
      unfold scanned_before in Hn.
      assert (row = 0) as -> by lia. assert (col = 0) as -> by lia. done.
    - intros r c n Hr Hc ->.
      pose proof (before_step r c (conj Hr Hc)) as Hstep.
      destruct (scanned_before_b r c row col) eqn:Hb.
      + rewrite andb_true_r.
        apply scanned_before_b_spec in Hb.
        destruct (scanned_before_b r (c + 1) row col) eqn:Hb'.
        * rewrite Hstep. destruct (on_edge ROWS COLS r c); lia.
        * assert (~ scanned_before r (c + 1) row col) as Hn
            by (rewrite <- scanned_before_b_spec; congruence).
          unfold scanned_before in Hb, Hn.
          assert (r = row) as -> by lia. assert (col = c + 1) as -> by lia.
          rewrite Hstep. destruct (on_edge ROWS COLS row c); lia.
      + rewrite andb_false_r.
        destruct (scanned_before_b r (c + 1) row col) eqn:Hb'; [|done].
        apply scanned_before_b_spec in Hb'.
        assert (~ scanned_before r c row col) as Hn
          by (rewrite <- scanned_before_b_spec; congruence).
        unfold scanned_before in Hb', Hn.
        assert (r = row) as -> by lia. assert (col = c + 1) as -> by lia.
        done.
    - intros r n Hr ->. rewrite before_next_row by done.
      destruct (scanned_before_b r COLS row col) eqn:Hb.
      + apply scanned_before_b_spec in Hb.
        destruct (scanned_before_b (r + 1) 0 row col) eqn:Hb'; [done|].
        assert (~ scanned_before (r + 1) 0 row col) as Hn
          by (rewrite <- scanned_before_b_spec; congruence).
        unfold scanned_before in Hb, Hn.
        assert (row = r + 1) as -> by lia. assert (col = 0) as -> by lia.
        by rewrite before_next_row.
      + destruct (scanned_before_b (r + 1) 0 row col) eqn:Hb'; [|done].
        apply scanned_before_b_spec in Hb'.
        assert (~ scanned_before r COLS row col) as Hn
          by (rewrite <- scanned_before_b_spec; congruence).
        unfold scanned_before in Hb', Hn. lia. }
  unfold I in Hend. rewrite Hend.
  destruct (scanned_before_b ROWS 0 row col) eqn:Hb; [|done].
  apply scanned_before_b_spec in Hb. unfold scanned_before in Hb. lia.
Qed.

Lemma scanned_before_b_self (row col : Z) :
  scanned_before_b row col row (col + 1) = true
  /\ scanned_before_b row col row col = false.
Proof.
  split.
  - apply scanned_before_b_spec. unfold scanned_before. lia.
  - apply not_true_is_false. rewrite scanned_before_b_spec.
    unfold scanned_before. lia.
Qed.

Lemma scanned_before_b_step (r c row col : Z) :
  (r, c) <> (row, col) ->
  scanned_before_b r c row (col + 1) = scanned_before_b r c row col.
Proof.
  intros Hne.
  assert (~ (r = row /\ c = col)) as Hne' by (intros [-> ->]; done).
  apply eq_true_iff_eq. rewrite !scanned_before_b_spec.
  unfold scanned_before. lia.
Qed.

Lemma scanned_before_b_next_row (r c row : Z) :
  0 <= c < COLS ->
  scanned_before_b r c (row + 1) 0 = scanned_before_b r c row COLS.
Proof.
  intros Hc. apply eq_true_iff_eq. rewrite !scanned_before_b_spec.
  unfold scanned_before. lia.
Qed.

(** The placement scan, cell by cell. *)
Lemma place_scan_by_rank (m : matrix) (e x : Z) :
  wf m = true -> 0 <= e -> 0 <= x -> e <> x ->
  let m' := (for_cells ROWS COLS (place_step ROWS COLS e x)
                       (m, 0, false, false)).1.1.1 in
  wf m' = true
  /\ forall r c, inb r c ->
       get m' r c = if edge r c && (before r c =? e) then ENTRY
                    else if edge r c && (before r c =? x) then EXIT
                    else get m r c.
Proof.
  intros Hwf He Hx Hex.
  pose (I := fun (row col : Z) (s : place_state) =>
          wf s.1.1.1 = true
          /\ s.1.1.2 = before row col
          /\ s.1.2 = (e <? s.1.1.2)
          /\ s.2 = (x <? s.1.1.2)
          /\ forall r c, inb r c ->
               get s.1.1.1 r c =
                 if scanned_before_b r c row col
                 then (if edge r c && (before r c =? e) then ENTRY
                       else if edge r c && (before r c =? x) then EXIT
                       else get m r c)
                 else get m r c).
  assert (Hend : I ROWS 0 (for_cells ROWS COLS (place_step ROWS COLS e x)
                                     (m, 0, false, false))).
  { apply for_cells_ind; [lia..| | |]; unfold I.
    - simpl. split; [done|]. split; [done|].
      split; [symmetry; apply Z.ltb_ge; lia|].
      split; [symmetry; apply Z.ltb_ge; lia|].
      intros r c [Hr Hc].
      replace (scanned_before_b r c 0 0) with false; [done|].
      symmetry. apply not_true_is_false. rewrite scanned_before_b_spec.
      unfold scanned_before. lia.
    - intros row col [[[ma counter] ep] xp] Hr Hc
        (Hwfa & Hcount & Hep & Hxp & Hcells).
      simpl in *. subst counter ep xp.
      pose proof (before_step row col (conj Hr Hc)) as Hstep.
      destruct (scanned_before_b_self row col) as [Hself Hnot].
      assert (Hhere : get ma row col = get m row col).
      { rewrite Hcells by done. by rewrite Hnot. }
      unfold place_step.
      destruct (on_edge ROWS COLS row col) eqn:Hedge; simpl.
      + destruct (Z.eqb_spec (before row col) e) as [Heq|Hne].
        { replace (e <? before row col) with false
            by (symmetry; apply Z.ltb_ge; lia).
          simpl. split; [by apply well_formed_set|]. split; [lia|].
          split; [symmetry; apply Z.ltb_lt; lia|].
          split; [apply eq_true_iff_eq; rewrite !Z.ltb_lt; lia|].
          intros r c Hb. rewrite (get_set ROWS COLS) by done.
          destruct (decide _) as [[= -> ->]|Hother].
          - rewrite Hself, Hedge. simpl.
            by replace (before row col =? e) with true
              by (symmetry; apply Z.eqb_eq; lia).
          - rewrite scanned_before_b_step by done. by apply Hcells. }
        simpl.
        destruct (Z.eqb_spec (before row col) x) as [Heqx|Hnex].
        { replace (x <? before row col) with false
            by (symmetry; apply Z.ltb_ge; lia).
          simpl. split; [by apply well_formed_set|]. split; [lia|].
          split; [apply eq_true_iff_eq; rewrite !Z.ltb_lt; lia|].
          split; [symmetry; apply Z.ltb_lt; lia|].
          intros r c Hb. rewrite (get_set ROWS COLS) by done.
          destruct (decide _) as [[= -> ->]|Hother].
          - rewrite Hself, Hedge. simpl.
            replace (before row col =? e) with false
              by (symmetry; apply Z.eqb_neq; lia).
            by replace (before row col =? x) with true
              by (symmetry; apply Z.eqb_eq; lia).
          - rewrite scanned_before_b_step by done. by apply Hcells. }
        simpl. split; [done|]. split; [lia|].
        split; [apply eq_true_iff_eq; rewrite !Z.ltb_lt; lia|].
        split; [apply eq_true_iff_eq; rewrite !Z.ltb_lt; lia|].
        intros r c Hb.
        destruct (decide ((r, c) = (row, col))) as [[= -> ->]|Hother].
        * rewrite Hself, Hedge, Hhere. simpl.
          replace (before row col =? e) with false
            by (symmetry; apply Z.eqb_neq; lia).
          by replace (before row col =? x) with false
            by (symmetry; apply Z.eqb_neq; lia).
        * rewrite scanned_before_b_step by done. by apply Hcells.
      + split; [done|]. split; [lia|]. split; [done|]. split; [done|].
        intros r c Hb.
        destruct (decide ((r, c) = (row, col))) as [[= -> ->]|Hother].
        * by rewrite Hself, Hedge, Hhere.
        * rewrite scanned_before_b_step by done. by apply Hcells.
    - intros row [[[ma counter] ep] xp] Hr
        (Hwfa & Hcount & Hep & Hxp & Hcells).
      simpl in *. split; [done|].
      split; [by rewrite before_next_row|]. split; [done|]. split; [done|].
      intros r c Hb. rewrite scanned_before_b_next_row by apply Hb.
      by apply Hcells. }
  destruct Hend as (Hwf' & _ & _ & _ & Hcells).
  split; [done|]. intros r c Hb. rewrite Hcells by done.
  replace (scanned_before_b r c ROWS 0) with true; [done|].
  symmetry. apply scanned_before_b_spec. unfold scanned_before.
  destruct Hb. lia.
Qed.

(** X8.  [place_entry_exit_points] writes the entry in the edge cell
    preceded by [entry_position] edge cells in the order of the scan, the
    exit in the one preceded by [exit_position] edge cells, and nothing
    else, whatever the matrix held. *)
Theorem place_entry_exit_points_by_rank (r0 : Z) (t : tape) (m : matrix)
    (m' : matrix) (t' : tape) :
  wf m = true -> 0 <= r0 -> Forall (fun r => 0 <= r) t ->
  place_entry_exit_points ROWS COLS (r0 :: t) m = Some (m', t') ->
  exists x,
    draw_exit_position (2 * (ROWS + COLS) - 4)
                       (Z.rem r0 (2 * (ROWS + COLS) - 4)) t = Some (x, t')
    /\ 0 <= x < 2 * (ROWS + COLS) - 4
    /\ x <> Z.rem r0 (2 * (ROWS + COLS) - 4)
    /\ wf m' = true
    /\ forall r c, inb r c ->
         get m' r c =
           if edge r c && (edge_rank ROWS COLS r c
                           =? Z.rem r0 (2 * (ROWS + COLS) - 4))
           then ENTRY
           else if edge r c && (edge_rank ROWS COLS r c =? x) then EXIT
           else get m r c.
Proof.
  intros Hwf Hr0 Hpos Hrun. unfold place_entry_exit_points in Hrun.
  set (n := 2 * (ROWS + COLS) - 4) in *.
  set (e := Z.rem r0 n) in *.
  destruct (draw_exit_position n e t) as [[x t2]|] eqn:Hdraw; [|done].
  assert (0 <= e < n) as He by (apply Z.rem_bound_pos; lia).
  pose proof Hdraw as Hspec.
  apply draw_exit_position_spec in Hspec as (Hx & Hne & _); [|lia|done].
  assert (Hex : e <> x) by congruence.
  pose proof (place_scan_by_rank m e x Hwf ltac:(lia) ltac:(lia) Hex)
    as Hscan.
  destruct (for_cells ROWS COLS (place_step ROWS COLS e x)
                      (m, 0, false, false)) as [[[m1 counter] ep] xp].
  injection Hrun as <- <-. simpl in Hscan. destruct Hscan as [Hwf' Hcells].
  exists x. split; [done|]. split; [done|]. split; [done|].
  split; [done|].
  intros r c Hb. rewrite (edge_rank_eq r c Hb). by apply Hcells.
Qed.

(** X9.  [edge_length] is the number of cells that pass the edge test of
    the scan: every position drawn designates one cell of the edge. *)
Theorem edge_length_counts_the_edge :
  count_cells ROWS COLS (on_edge ROWS COLS) = 2 * (ROWS + COLS) - 4.
Proof.
  unfold count_cells.
  pose (I := fun (row col : Z) (n : Z) => n = before row col).
  assert (Hend : I ROWS 0
            (for_cells ROWS COLS
               (fun row col n => if on_edge ROWS COLS row col
                                 then n + 1 else n) 0)).
  { apply for_cells_ind; [lia..| | |]; unfold I.
    - done.
    - intros row col n Hr Hc ->.
      rewrite (before_step row col (conj Hr Hc)).
      destruct (on_edge ROWS COLS row col); lia.
    - intros row n Hr ->. by rewrite before_next_row. }
  unfold I in Hend. rewrite Hend. apply edges_before_end; lia.
Qed.

End Ranks.

(** ** The two workers together *)

Section WorkersTogether.

Variables ROWS COLS : Z.
Variable RAND_MAX : positive.
Variable density : Q.
Hypothesis ROWS_two : 2 <= ROWS.
Hypothesis COLS_two : 2 <= COLS.

Lemma find_path_total (m : matrix) :
  well_formed ROWS COLS m = true ->
  exists rep m', find_path ROWS COLS m = Some (rep, m').
Proof.
  intros Hwf.
  assert (H1R : 1 <= ROWS) by lia. assert (H1C : 1 <= COLS) by lia.
  destruct (find_entry_spec ROWS COLS H1R H1C m)
    as [[_ Hnone]|(er & ec & Hf & _)].
  - eexists _, _. by apply find_path_without_entry.
  - destruct (find_path_with_entry ROWS COLS H1R H1C m er ec Hwf Hf)
      as (_ & _ & _ & p & m1 & log & _ & Hfp).
    by eexists _, _.
Qed.

Lemma searched_cell_after_marks (m m' : matrix) (log : list (Z * Z)) :
  marks ROWS COLS m m' log ->
  (forall r c, in_bounds ROWS COLS r c -> searched_cell (get m r c)) ->
  forall r c, in_bounds ROWS COLS r c -> searched_cell (get m' r c).
Proof.
  intros Hm Hcells r c Hb.
  destruct (ascii_dec (get m' r c) VISITED) as [Hv|Hv]; [by right|].
  rewrite <- (marks_back _ _ _ _ _ _ _ Hm Hv). by apply Hcells.
Qed.

Lemma generated_cells_after_pass (t : tape) (m : matrix) (m' : matrix)
    (t' : tape) :
  well_formed ROWS COLS m = true ->
  randomize_matrix ROWS COLS RAND_MAX density t m = Some (m', t') ->
  forall r c, in_bounds ROWS COLS r c -> searched_cell (get m' r c).
Proof.
  intros Hwf Hrun r c Hb.
  assert (H0R : 0 <= ROWS) by lia. assert (H0C : 0 <= COLS) by lia.
  destruct (randomize_matrix_phases ROWS COLS RAND_MAX density H0R H0C
              _ _ _ _ Hwf Hrun)
    as (m1 & t1 & m2 & Hfill & Hwf2 & Hsame & _ & Hplace).
  left. unfold generated_cell.
  destruct (place_entry_exit_points_writes ROWS COLS H0R H0C _ _ _ _
              Hwf2 Hplace r c) as [Heq|[?|?]]; [|tauto..].
  rewrite Heq.
  destruct (Hsame r c) as [Heq1|[-> _]]; [|tauto].
  rewrite Heq1.
  destruct Hfill as (_ & _ & _ & Hdone).
  destruct (Hdone r c Hb (scanned_end _ _ _ _ Hb))
    as [(Ho & _)|[Hcl|(_ & -> & Hmk)]]; tauto.
Qed.

Lemma display_row_cells (m : matrix) (row : Z) :
  0 <= row < ROWS ->
  (forall r c, in_bounds ROWS COLS r c -> searched_cell (get m r c)) ->
  Forall searched_cell (display_row COLS m row).
Proof.
  intros Hrow Hcells. unfold display_row.
  apply Forall_forall. intros ch Hch.
  apply list_elem_of_fmap in Hch as (c & -> & Hc).
  apply elem_of_seqZ in Hc. apply Hcells. split; [done|lia].
Qed.

Lemma step_cells_invariant (w : worker) (s s' : system) :
  generation_invariant ROWS COLS s -> cells_invariant ROWS COLS s ->
  step ROWS COLS RAND_MAX density w s = Some s' ->
  cells_invariant ROWS COLS s'.
Proof.
  destruct s as [m t mu g p d r]. unfold generation_invariant, cells_invariant.
  simpl. intros (Hwf & _ & _) [Hcells Hshown] Hstep.
  destruct w; simpl in Hstep.
  - destruct g; simpl in *.
    + destruct mu; simplify_eq. by simpl.
    + destruct (generate_matrix _ _ _ _ t m) as [[m1 t1]|] eqn:Hgen; [|done].
      simplify_eq. simpl. split; [|done].
      rewrite generate_matrix_eq in Hgen.
      eapply generated_cells_after_pass; [|done].
      apply reset_matrix_spec; [lia|lia|done].
    + simplify_eq. by simpl.
    + destruct mu; simplify_eq. by simpl.
    + destruct (randomize_matrix _ _ _ _ t m) as [[m1 t1]|] eqn:Hgen; [|done].
      simplify_eq. simpl. split; [|done].
      by eapply generated_cells_after_pass.
    + simplify_eq. simpl. split; [|done]. by split.
    + destruct Hcells as [Hrow Hcells].
      destruct (row <? ROWS) eqn:Hlt; simplify_eq; simpl.
      * split; [split; [lia|done]|].
        apply Forall_app. split; [done|]. apply Forall_singleton.
        apply display_row_cells; [|done]. apply Z.ltb_lt in Hlt. lia.
      * by split.
    + simplify_eq. by simpl.
  - destruct p; simpl in *.
    + destruct mu; simplify_eq. by simpl.
    + destruct (find_path ROWS COLS m) as [[rep m1]|] eqn:Hfp; [|done].
      simplify_eq. simpl. split; [|done].
      destruct (find_path_marks ROWS COLS ROWS_two COLS_two _ _ _ Hwf Hfp)
        as [log Hm].
      destruct g; simpl in *; try done.
      * by eapply searched_cell_after_marks.
      * by eapply searched_cell_after_marks.
      * by eapply searched_cell_after_marks.
      * by eapply searched_cell_after_marks.
      * destruct Hcells as [Hrow Hcells]. split; [done|].
        by eapply searched_cell_after_marks.
      * by eapply searched_cell_after_marks.
    + simplify_eq. by simpl.
    + simplify_eq. by simpl.
Qed.

Lemma run_cells_invariant (schedule : list worker) :
  forall s s', lock_discipline s -> generation_invariant ROWS COLS s ->
    cells_invariant ROWS COLS s ->
    run ROWS COLS RAND_MAX density schedule s = Some s' ->
    cells_invariant ROWS COLS s'.
Proof.
  induction schedule as [|w schedule IH]; intros s s' Hl Hs Hc Hrun;
    simpl in Hrun.
  - by injection Hrun as <-.
  - destruct (step ROWS COLS RAND_MAX density w s) as [s1|] eqn:Hstep; [|done].
    eapply IH; [| | |done].
    + by eapply step_lock_discipline.
    + by eapply step_generation_invariant.
    + by eapply step_cells_invariant.
Qed.

Lemma searched_cell_colour (ch : ascii) :
  searched_cell ch ->
  cell_colour ch <> None /\ cell_colour ch <> Some ANSI_RED.
Proof. by intros [[-> | [-> | [-> | ->]]] | ->]. Qed.


(** X11.  The red square of [display_matrix] is never printed, and every
    cell read gets a square: in every state the two workers reach, each
    cell [display_matrix] has read holds one of the characters for open,
    closed, entry, exit and visited, and so does each cell of the matrix
    once the first pass is done.  No code writes [PATH]. *)
Theorem display_never_red (schedule : list worker) (m : matrix)
    (t : tape) (s : system) :
  well_formed ROWS COLS m = true -> Forall (fun r => 0 <= r) t ->
  run ROWS COLS RAND_MAX density schedule (initial m t) = Some s ->
  (forall line ch, line ∈ displayed s -> ch ∈ line ->
     cell_colour ch <> None /\ cell_colour ch <> Some ANSI_RED)
  /\ (gen_at s <> gen_lock_first -> gen_at s <> gen_generate ->
      forall r c, in_bounds ROWS COLS r c ->
        cell_colour (get (shared_matrix s) r c) <> None
        /\ cell_colour (get (shared_matrix s) r c) <> Some ANSI_RED).
Proof.
  intros Hwf Hpos Hrun.
  assert (Hinit : generation_invariant ROWS COLS (initial m t)) by by split.
  assert (Hcinit : cells_invariant ROWS COLS (initial m t)) by by split.
  pose proof (run_cells_invariant schedule _ _
                (initial_lock_discipline m t) Hinit Hcinit Hrun)
    as [Hcells Hshown].
  split.
  - intros line ch Hline Hch. apply searched_cell_colour.
    rewrite Forall_forall in Hshown. specialize (Hshown line Hline).
    rewrite Forall_forall in Hshown. by apply Hshown.
  - intros Hfirst Hgen r c Hb. apply searched_cell_colour.
    destruct (gen_at s); try done; try by apply Hcells.
Qed.

(** X12.  The search worker cannot go on only when it waits at its lock
    for the mutex the generation worker holds: its pass always returns.
    The two workers are never both stopped, unless the generation worker
    is inside a pass that draws from [rand]. *)
Theorem search_worker_waits_only_for_the_mutex (schedule : list worker)
    (m : matrix) (t : tape) (s : system) :
  well_formed ROWS COLS m = true -> Forall (fun r => 0 <= r) t ->
  run ROWS COLS RAND_MAX density schedule (initial m t) = Some s ->
  (step ROWS COLS RAND_MAX density path_finding_worker s = None
   <-> pf_at s = pf_lock /\ matrix_mutex s = Some generation_worker)
  /\ (step ROWS COLS RAND_MAX density generation_worker s = None ->
      step ROWS COLS RAND_MAX density path_finding_worker s = None ->
      gen_at s = gen_generate \/ gen_at s = gen_randomize).
Proof.
  intros Hwf Hpos Hrun.
  assert (Hinit : generation_invariant ROWS COLS (initial m t)) by by split.
  pose proof (run_generation_invariant ROWS COLS RAND_MAX density
                ROWS_two COLS_two schedule _ _
                (initial_lock_discipline m t) Hinit Hrun)
    as (Hwfs & _ & _).
  destruct (run_lock_discipline ROWS COLS RAND_MAX density schedule _ _
              (initial_lock_discipline m t) Hrun) as [Hmu Hex].
  destruct (find_path_total _ Hwfs) as (rep & m1 & Hfp).
  destruct s as [ms ts mu g p d r]. simpl in *.
  assert (Hsearch : path_finding_step ROWS COLS (mkSystem ms ts mu g p d r)
                      = None
                    <-> p = pf_lock /\ mu = Some generation_worker).
  { split.
    - intros Hnone. simpl in Hnone. destruct p; simpl in *.
      + split; [done|]. destruct mu as [w|]; [|done].
        by destruct (gen_holds g).
      + by rewrite Hfp in Hnone.
      + done.
      + done.
    - by intros [-> ->]. }
  split; [done|].
  intros Hgen Hpf. apply Hsearch in Hpf as [-> ->].
  destruct g; simpl in *; try done; auto.
Qed.

(** X13.  Nothing orders the first generation before the first search:
    the search worker can take the mutex first, and its pass then runs on
    the matrix as [allocate_matrix] left it, before [generate_matrix] has
    written a cell. *)
Theorem search_can_precede_generation (m : matrix) (t : tape) :
  well_formed ROWS COLS m = true ->
  exists rep m',
    find_path ROWS COLS m = Some (rep, m')
    /\ run ROWS COLS RAND_MAX density
           [path_finding_worker; path_finding_worker] (initial m t)
       = Some (mkSystem m' t (Some path_finding_worker) gen_lock_first
                        pf_unlock [] [rep]).
Proof.
  intros Hwf. destruct (find_path_total m Hwf) as (rep & m' & Hfp).
  exists rep, m'. split; [done|]. simpl. by rewrite Hfp.
Qed.

Lemma display_row_shows (m0 m : matrix) (row : Z) (d : list (list ascii)) :
  0 <= row < ROWS ->
  (forall r c, in_bounds ROWS COLS r c ->
     get m r c = get m0 r c \/ get m r c = VISITED) ->
  length d = Z.to_nat row -> shows m0 d ->
  shows m0 (d ++ [display_row COLS m row]).
Proof.
  intros Hrow Hm Hlen Hd i line Hi c ch Hc.
  apply lookup_app_Some in Hi as [Hi|[Hge Hi]]; [by eapply Hd|].
  apply list_lookup_singleton_Some in Hi as [Hi <-].
  assert (Z.of_nat i = row) as -> by lia.
  unfold display_row in Hc. rewrite list_lookup_fmap in Hc.
  apply fmap_Some in Hc as (col & Hcol & ->).
  apply lookup_seqZ in Hcol as [-> Hlt].
  rewrite Z.add_0_l. apply Hm. split; [done|lia].
Qed.

Lemma step_display_invariant (m0 : matrix) (w : worker)
    (schedule : list worker) (s s' : system) :
  display_invariant ROWS COLS m0 (generation_steps (w :: schedule)) s ->
  step ROWS COLS RAND_MAX density w s = Some s' ->
  display_invariant ROWS COLS m0 (generation_steps schedule) s'.
Proof.
  destruct s as [m t mu g p d r]. unfold display_invariant. simpl.
  intros (Hwf & Hm & Hg) Hstep.
  destruct w; simpl in Hstep.
  - destruct g; simpl in *; try done.
    + destruct mu; simplify_eq. lia.
    + simplify_eq. simpl. split; [done|]. split; [done|].
      split; [lia|]. split; [lia|]. split; [done|].
      intros i line Hi. by rewrite lookup_nil in Hi.
    + destruct Hg as (Hrow & Hk & Hlen & Hd).
      destruct (row <? ROWS) eqn:Hlt; simplify_eq; simpl.
      * apply Z.ltb_lt in Hlt. split; [done|]. split; [done|].
        split; [lia|]. split; [lia|].
        split; [rewrite length_app; simpl; lia|].
        apply display_row_shows; [lia|done..].
      * apply Z.ltb_ge in Hlt. split; [done|]. split; [done|].
        split; [lia|]. split; [|done]. rewrite Hlen. f_equal. lia.
    + destruct Hg as (Hk & Hlen & Hd). simplify_eq. simpl.
      split; [done|]. split; [done|]. split; [lia|done].
  - destruct p; simpl in *.
    + destruct mu; simplify_eq. by simpl.
    + destruct (find_path ROWS COLS m) as [[rep m1]|] eqn:Hfp; [|done].
      simplify_eq. simpl.
      destruct (find_path_marks ROWS COLS ROWS_two COLS_two _ _ _ Hwf Hfp)
        as [log Hmarks].
      split; [by eapply marks_wf|]. split; [|done].
      intros r0 c0 Hb.
      destruct (ascii_dec (get m1 r0 c0) VISITED) as [Hv|Hv]; [by right|].
      rewrite <- (marks_back _ _ _ _ _ _ _ Hmarks Hv). by apply Hm.
    + simplify_eq. by simpl.
    + simplify_eq. by simpl.
Qed.

Lemma run_display_invariant (m0 : matrix) (schedule : list worker) :
  forall s s',
    display_invariant ROWS COLS m0 (generation_steps schedule) s ->
    run ROWS COLS RAND_MAX density schedule s = Some s' ->
    display_invariant ROWS COLS m0 O s'.
Proof.
  induction schedule as [|w schedule IH]; intros s s' Hs Hrun;
    simpl in Hrun.
  - by injection Hrun as <-.
  - destruct (step ROWS COLS RAND_MAX density w s) as [s1|] eqn:Hstep; [|done].
    eapply IH; [|done]. by eapply step_display_invariant.
Qed.

(** X14.  What a display can show.  From the unlock that follows a pass
    until the generation worker comes back to its lock (at most
    [ROWS + 3] of its steps), however the search worker interleaves, each
    cell [display_matrix] has read is the cell of the matrix that was
    unlocked or a visited mark, and so is each cell of the matrix: a
    display torn by a search differs from the generated matrix by visited
    marks only. *)
Theorem display_shows_pass_or_visited (schedule : list worker)
    (s0 s : system) :
  well_formed ROWS COLS (shared_matrix s0) = true ->
  gen_at s0 = gen_unlock ->
  (generation_steps schedule <= Z.to_nat ROWS + 3)%nat ->
  run ROWS COLS RAND_MAX density schedule s0 = Some s ->
  (gen_at s <> gen_unlock ->
   forall (i : nat) (line : list ascii), displayed s !! i = Some line ->
     forall (c : nat) (ch : ascii), line !! c = Some ch ->
       ch = get (shared_matrix s0) (Z.of_nat i) (Z.of_nat c)
       \/ ch = VISITED)
  /\ (gen_at s = gen_sleep -> length (displayed s) = Z.to_nat ROWS)
  /\ (forall r c, in_bounds ROWS COLS r c ->
        get (shared_matrix s) r c = get (shared_matrix s0) r c
        \/ get (shared_matrix s) r c = VISITED).
Proof.
  intros Hwf Hat Hk Hrun.
  assert (Hinit : display_invariant ROWS COLS (shared_matrix s0)
                    (generation_steps schedule) s0).
  { split; [done|]. split; [by left|]. rewrite Hat. lia. }
  destruct (run_display_invariant _ schedule _ _ Hinit Hrun)
    as (_ & Hm & Hg).
  split; [|split; [|done]].
  - intros Hnot i line Hi c ch Hc.
    destruct (gen_at s); try done.
    + destruct Hg as (_ & _ & Hd). by eapply Hd.
    + destruct Hg as (_ & _ & _ & Hd). by eapply Hd.
    + destruct Hg as (_ & _ & Hd). by eapply Hd.
  - intros Hsleep. rewrite Hsleep in Hg. by destruct Hg as (_ & ? & _).
Qed.

End WorkersTogether.

(** ** Worked examples *)

(** *** C1 *)

Lemma regenerate_one_entry_one_exit_witness :
  well_formed 3 3 small_result = true
  /\ single_markers 3 3 small_result = true
  /\ generate_matrix 3 3 RAND_MAX_31 (1 # 2) second_tape small_result
     = Some (rows_of [" XX"; "XXX"; "XSE"]%string, [])
  /\ one_entry_one_exit 3 3 (rows_of [" XX"; "XXX"; "XSE"]%string)
  /\ randomize_matrix 3 3 RAND_MAX_31 (1 # 2) second_tape small_result
     = Some (rows_of ["XXX"; "XXX"; "XSE"]%string, [high6; high7])
  /\ one_entry_one_exit 3 3 (rows_of ["XXX"; "XXX"; "XSE"]%string).
Proof.
  split; [reflexivity|]. split; [reflexivity|]. split; [reflexivity|].
  destruct (regenerate_one_entry_one_exit 3 3 RAND_MAX_31 (1 # 2)
              second_tape small_result ltac:(lia) ltac:(lia) eq_refl
              ltac:(repeat constructor; by vm_compute)) as (Hfirst & Hlater & _).
  split; [|split; [reflexivity|]].
  - apply (Hfirst (rows_of [" XX"; "XXX"; "XSE"]%string) []). reflexivity.
  - apply (Hlater eq_refl (rows_of ["XXX"; "XXX"; "XSE"]%string)
                  [high6; high7]). reflexivity.
Defined.

(** A pass over a matrix with two entry markers on its edge erases one of
    them only: the result holds the entry it placed and the stale one. *)
Lemma randomize_matrix_keeps_stale_entry :
  well_formed 3 3 two_entries = true
  /\ randomize_matrix 3 3 RAND_MAX_31 (1 # 2) two_entries_tape two_entries
     = Some (rows_of ["SXX"; "XXX"; "XSE"]%string, [])
  /\ get (rows_of ["SXX"; "XXX"; "XSE"]%string) 0 0 = ENTRY
  /\ get (rows_of ["SXX"; "XXX"; "XSE"]%string) 2 1 = ENTRY.
Proof. repeat split; vm_compute; reflexivity. Qed.

(** *** C2 *)

Lemma open_cells_after_randomize_witness :
  well_formed 5 5 (closed_matrix 5 5) = true
  /\ randomize_matrix 5 5 RAND_MAX_31 (1 # 2) corner_tape (closed_matrix 5 5)
     = Some (corner_result, [])
  /\ get corner_result 2 2 = OPEN
  /\ ~ (get corner_result (2 - 1) 2 = OPEN /\ get corner_result 2 (2 - 1) = OPEN)
  /\ ~ (get corner_result (2 - 1) 2 = OPEN /\ get corner_result (2 + 1) 2 = OPEN)
  /\ ~ (get corner_result 2 (2 - 1) = OPEN /\ get corner_result 2 (2 + 1) = OPEN)
  /\ ~ (get corner_result (2 - 1) 2 = OPEN /\ get corner_result (2 - 2) 2 = OPEN)
  /\ ~ (get corner_result (2 + 1) 2 = OPEN /\ get corner_result (2 + 2) 2 = OPEN)
  /\ ~ (get corner_result 2 (2 - 1) = OPEN /\ get corner_result 2 (2 - 2) = OPEN)
  /\ ~ (get corner_result 2 (2 + 1) = OPEN /\ get corner_result 2 (2 + 2) = OPEN).
Proof.
  split; [reflexivity|]. split; [reflexivity|]. split; [reflexivity|].
  apply (open_cells_after_randomize 5 5 RAND_MAX_31 (1 # 2) ltac:(lia) ltac:(lia)
           corner_tape (closed_matrix 5 5) corner_result []
           eq_refl eq_refl 2 2).
  - split; lia.
  - reflexivity.
Defined.

(** The open cell (2,1) of this generated matrix has two open neighbours,
    above and to its right, and none of its neighbours is a marker; the open
    cells (1,1), (2,2) and (3,3) lie on one diagonal. *)
Lemma open_cell_with_two_open_neighbours :
  randomize_matrix 5 5 RAND_MAX_31 (1 # 2) corner_tape (closed_matrix 5 5)
  = Some (corner_result, [])
  /\ get corner_result 2 1 = OPEN
  /\ get corner_result 1 1 = OPEN
  /\ get corner_result 2 2 = OPEN
  /\ get corner_result 3 1 = CLOSED
  /\ get corner_result 2 0 = CLOSED
  /\ count_adjacent_open_cells 5 5 corner_result 2 1 = 2
  /\ get corner_result 3 3 = OPEN.
Proof. repeat split; vm_compute; reflexivity. Qed.

(** *** C3 *)

Lemma generate_matrix_ignores_previous_cells_witness :
  well_formed 3 3 (closed_matrix 3 3) = true
  /\ well_formed 3 3 small_result = true
  /\ (forall r c, in_bounds 3 3 r c ->
        get (reset_matrix 3 3 (closed_matrix 3 3)) r c = CLOSED)
  /\ generate_matrix 3 3 RAND_MAX_31 (1 # 2) second_tape (closed_matrix 3 3)
     = generate_matrix 3 3 RAND_MAX_31 (1 # 2) second_tape small_result.
Proof.
  split; [reflexivity|]. split; [reflexivity|].
  apply (generate_matrix_ignores_previous_cells 3 3 RAND_MAX_31 (1 # 2)
           ltac:(lia) ltac:(lia) second_tape (closed_matrix 3 3) small_result);
    reflexivity.
Defined.

(** A second pass over a generated matrix, as the generation worker runs
    it, closes the cell (0,0) although its draw passes the density test and
    no cell is scanned before it: the cells (0,1) and (1,0), still open from
    the previous pass, are counted.  The same pass after a reset opens it. *)
Lemma second_pass_reads_previous_cells :
  generate_matrix 3 3 RAND_MAX_31 (1 # 2) small_tape (closed_matrix 3 3)
  = Some (small_result, [])
  /\ randomize_matrix 3 3 RAND_MAX_31 (1 # 2) second_tape small_result
     = Some (rows_of ["XXX"; "XXX"; "XSE"]%string, [high6; high7])
  /\ generate_matrix 3 3 RAND_MAX_31 (1 # 2) second_tape small_result
     = Some (rows_of [" XX"; "XXX"; "XSE"]%string, []).
Proof. repeat split; vm_compute; reflexivity. Qed.

(** *** C4 *)

Lemma find_path_start_is_entry_witness :
  well_formed 3 3 corridor = true
  /\ find_path 3 3 corridor
     = Some (PartialPathFound 0 0 0 2, rows_of ["..E"; "XXX"; "XXX"]%string)
  /\ find_entry 3 3 corridor = (0, 0, true)
  /\ get corridor 0 0 = ENTRY
  /\ get corridor 0 2 = EXIT.
Proof.
  split; [reflexivity|]. split; [reflexivity|].
  apply (proj2 (find_path_start_is_entry 3 3 ltac:(lia) ltac:(lia) corridor
                  eq_refl)
               0 0 0 2 (rows_of ["..E"; "XXX"; "XXX"]%string)).
  reflexivity.
Defined.

(** On the corridor the inner call on cell (0,1) returns its own cell as
    start, and the search pass reports the entry (0,0). *)
Lemma reported_start_is_the_entry :
  find_entry 3 3 corridor = (0, 0, true)
  /\ dfs 3 3 9 (set corridor 0 0 VISITED) 0 1
     = Some (mkPath 0 1 0 2 true, rows_of ["..E"; "XXX"; "XXX"]%string,
             [(0, 1)])
  /\ find_path 3 3 corridor
     = Some (PartialPathFound 0 0 0 2, rows_of ["..E"; "XXX"; "XXX"]%string).
Proof. repeat split; vm_compute; reflexivity. Qed.

(** *** C5 *)

Lemma dfs_explores_all_directions_witness :
  well_formed 3 4 exit_on_the_left = true
  /\ dfs 3 4 (S 12) exit_on_the_left 0 1
     = Some (mkPath 0 1 0 0 true, rows_of ["E..X"; "XXXX"; "XXXX"]%string,
             [(0, 1); (0, 2)])
  /\ (exists d0 m1 v0 d1 m2 v1 d2 m3 v2 d3 v3,
        dfs 3 4 12 (set exit_on_the_left 0 1 VISITED) (0 - 1) 1
          = Some (d0, m1, v0)
        /\ dfs 3 4 12 m1 (0 + 1) 1 = Some (d1, m2, v1)
        /\ dfs 3 4 12 m2 0 (1 - 1) = Some (d2, m3, v2)
        /\ dfs 3 4 12 m3 0 (1 + 1)
           = Some (d3, rows_of ["E..X"; "XXXX"; "XXXX"]%string, v3)
        /\ mkPath 0 1 0 0 true = first_found 0 1 [d0; d1; d2; d3]
        /\ [(0, 1); (0, 2)] = (0, 1) :: v0 ++ v1 ++ v2 ++ v3)
  /\ (forall r c, in_bounds 3 4 r c ->
        (r, c) ∈ [(0 - 1, 1); (0 + 1, 1); (0, 1 - 1); (0, 1 + 1)] ->
        ~ expandable (get (rows_of ["E..X"; "XXXX"; "XXXX"]%string) r c)).
Proof.
  split; [reflexivity|]. split; [reflexivity|].
  apply (dfs_explores_all_directions 3 4 12 exit_on_the_left 0 1).
  - reflexivity.
  - split; lia.
  - repeat split; discriminate.
  - reflexivity.
Defined.

(** The call on the left neighbour, the exit, succeeds; the open cell to
    the right is expanded and marked all the same. *)
Lemma right_explored_after_left_succeeded :
  dfs 3 4 12 (set exit_on_the_left 0 1 VISITED) 0 0
  = Some (mkPath 0 0 0 0 true, set exit_on_the_left 0 1 VISITED, [])
  /\ get exit_on_the_left 0 2 = OPEN
  /\ dfs 3 4 (dfs_fuel 3 4) exit_on_the_left 0 1
     = Some (mkPath 0 1 0 0 true, rows_of ["E..X"; "XXXX"; "XXXX"]%string,
             [(0, 1); (0, 2)])
  /\ get (rows_of ["E..X"; "XXXX"; "XXXX"]%string) 0 2 = VISITED.
Proof. repeat split; vm_compute; reflexivity. Qed.

(** *** C6 *)

Lemma dfs_never_revisits_witness :
  well_formed 3 3 dead_end = true
  /\ exists p m' log,
       (forall fuel, (dfs_fuel 3 3 <= fuel)%nat ->
          dfs 3 3 fuel dead_end 0 0 = Some (p, m', log))
       /\ NoDup log
       /\ (length log <= Z.to_nat (3 * 3))%nat
       /\ forall r c, (r, c) ∈ log ->
            in_bounds 3 3 r c /\ get dead_end r c <> VISITED
            /\ get m' r c = VISITED.
Proof.
  split; [reflexivity|].
  apply (dfs_never_revisits 3 3 ltac:(lia) ltac:(lia) dead_end 0 0).
  reflexivity.
Defined.

(** *** C7 *)

Lemma find_path_entry_not_found_witness :
  well_formed 3 3 (closed_matrix 3 3) = true
  /\ find_path 3 3 (closed_matrix 3 3)
     = Some (EntryPointNotFound, closed_matrix 3 3)
  /\ well_formed 3 3 dead_end = true
  /\ exists rep m', find_path 3 3 dead_end = Some (rep, m')
       /\ (rep = NoPathFound
           \/ exists sx sy ex ey, rep = PartialPathFound sx sy ex ey)
       /\ rep <> EntryPointNotFound.
Proof.
  split; [reflexivity|]. split; [|split; [reflexivity|]].
  - apply (proj1 (find_path_entry_not_found 3 3 ltac:(lia) ltac:(lia)
                    (closed_matrix 3 3) eq_refl)).
    intros r c [Hr Hc].
    assert (Hr' : r = 0 \/ r = 1 \/ r = 2) by lia.
    assert (Hc' : c = 0 \/ c = 1 \/ c = 2) by lia.
    destruct Hr' as [-> | [-> | ->]], Hc' as [-> | [-> | ->]]; discriminate.
  - apply (proj2 (find_path_entry_not_found 3 3 ltac:(lia) ltac:(lia)
                    dead_end eq_refl) 0 0); [split; lia|reflexivity..].
Defined.

(** *** C8 *)

Lemma density_zero_all_closed_witness :
  well_formed 5 5 (closed_matrix 5 5) = true
  /\ single_markers 5 5 (closed_matrix 5 5) = true
  /\ randomize_matrix 5 5 RAND_MAX_31 0 positive_tape (closed_matrix 5 5)
     = Some (rows_of ["XXXXX"; "XXXXX"; "XXXXS"; "EXXXX"; "XXXXX"]%string, [])
  /\ one_entry_one_exit 5 5
       (rows_of ["XXXXX"; "XXXXX"; "XXXXS"; "EXXXX"; "XXXXX"]%string)
  /\ forall r c, in_bounds 5 5 r c ->
       get (rows_of ["XXXXX"; "XXXXX"; "XXXXS"; "EXXXX"; "XXXXX"]%string) r c
         = ENTRY
       \/ get (rows_of ["XXXXX"; "XXXXX"; "XXXXS"; "EXXXX"; "XXXXX"]%string) r c
          = EXIT
       \/ get (rows_of ["XXXXX"; "XXXXX"; "XXXXS"; "EXXXX"; "XXXXX"]%string) r c
          = CLOSED.
Proof.
  split; [reflexivity|]. split; [reflexivity|]. split; [reflexivity|].
  apply (proj2 (density_zero_all_closed RAND_MAX_31 positive_tape
                  (closed_matrix 5 5) eq_refl
                  ltac:(repeat constructor; by vm_compute))
               eq_refl
               (rows_of ["XXXXX"; "XXXXX"; "XXXXS"; "EXXXX"; "XXXXX"]%string)
               []).
  reflexivity.
Defined.

(** With density 0 a draw of 0 passes the test
    [random_value <= density]: the cell (2,2) is opened. *)
Lemma density_zero_opens_on_zero_draw :
  randomize_matrix 5 5 RAND_MAX_31 0 zero_draw_tape (closed_matrix 5 5)
  = Some (rows_of ["XXXXX"; "XXXXX"; "XX XS"; "EXXXX"; "XXXXX"]%string, [])
  /\ get (rows_of ["XXXXX"; "XXXXX"; "XX XS"; "EXXXX"; "XXXXX"]%string) 2 2
     = OPEN.
Proof. repeat split; vm_compute; reflexivity. Qed.

(** *** C9 *)

Lemma passes_hold_the_mutex_witness :
  run 3 3 RAND_MAX_31 (1 # 2) search_during_display
      (initial (closed_matrix 3 3) torn_tape)
  = Some (mkSystem (rows_of ["SXX"; " XX"; "EXX"]%string) []
                   (Some path_finding_worker) (gen_display 1) pf_find_path
                   (rows_of ["SXX"]%string) [])
  /\ (gen_holds (gen_display 1) = true ->
      Some path_finding_worker = Some generation_worker)
  /\ (pf_holds pf_find_path = true ->
      Some path_finding_worker = Some path_finding_worker)
  /\ gen_holds (gen_display 1) && pf_holds pf_find_path = false.
Proof.
  split; [reflexivity|].
  apply (passes_hold_the_mutex 3 3 RAND_MAX_31 (1 # 2) search_during_display
           (closed_matrix 3 3) torn_tape
           (mkSystem (rows_of ["SXX"; " XX"; "EXX"]%string) []
                     (Some path_finding_worker) (gen_display 1) pf_find_path
                     (rows_of ["SXX"]%string) [])).
  reflexivity.
Defined.

(** The generation worker is inside [display_matrix], one row read, when
    the search worker takes the mutex and runs its pass; the rows it then
    reads are those the search has marked, so that what it displays is
    neither the matrix before the search nor the matrix after it. *)
Lemma display_overlaps_search :
  run 3 3 RAND_MAX_31 (1 # 2) search_during_display
      (initial (closed_matrix 3 3) torn_tape)
  = Some (mkSystem (rows_of ["SXX"; " XX"; "EXX"]%string) []
                   (Some path_finding_worker) (gen_display 1) pf_find_path
                   (rows_of ["SXX"]%string) [])
  /\ gen_reads (gen_display 1) = true
  /\ pf_holds pf_find_path = true
  /\ run 3 3 RAND_MAX_31 (1 # 2) torn_display (initial (closed_matrix 3 3) torn_tape)
     = Some (mkSystem (rows_of [".XX"; ".XX"; "EXX"]%string) [] None
                      gen_sleep pf_sleep
                      (rows_of ["SXX"; ".XX"; "EXX"]%string)
                      [PartialPathFound 0 0 2 0]).
Proof. repeat split; vm_compute; reflexivity. Qed.

(** *** C10 *)

Lemma search_consumes_entry_witness :
  well_formed 3 3 dead_end = true
  /\ find_entry 3 3 dead_end = (0, 0, true)
  /\ (forall r c, in_bounds 3 3 r c -> get dead_end r c = ENTRY ->
        (r, c) = (0, 0))
  /\ exists rep m',
       find_path 3 3 dead_end = Some (rep, m')
       /\ rep <> EntryPointNotFound
       /\ get m' 0 0 = VISITED
       /\ (forall r c, get dead_end r c = EXIT <-> get m' r c = EXIT)
       /\ (forall r c, in_bounds 3 3 r c -> get m' r c <> ENTRY)
       /\ find_path 3 3 m' = Some (EntryPointNotFound, m').
Proof.
  split; [reflexivity|]. split; [reflexivity|].
  assert (Honly : forall r c, in_bounds 3 3 r c -> get dead_end r c = ENTRY ->
                    (r, c) = (0, 0)).
  { intros r c [Hr Hc].
    assert (Hr' : r = 0 \/ r = 1 \/ r = 2) by lia.
    assert (Hc' : c = 0 \/ c = 1 \/ c = 2) by lia.
    destruct Hr' as [-> | [-> | ->]], Hc' as [-> | [-> | ->]];
      (reflexivity || discriminate). }
  split; [exact Honly|].
  destruct (search_consumes_entry 3 3 ltac:(lia) ltac:(lia) dead_end 0 0
              eq_refl eq_refl)
    as (rep & m' & Hrun & Hrep & Hv & Hexit & Hrest).
  exists rep, m'. destruct (Hrest Honly) as [Hnone Hagain].
  repeat (split; [assumption|]). assumption.
Defined.

(** With two entry markers on the edge the search consumes the first one
    only: the second is still there after the pass, and a second pass
    starts from it and reports "No path found", not "Entry point not
    found". *)
Lemma second_entry_survives_the_search :
  well_formed 3 3 two_entries = true
  /\ find_entry 3 3 two_entries = (0, 0, true)
  /\ find_path 3 3 two_entries
     = Some (NoPathFound, rows_of [".XS"; "XXX"; "XXE"]%string)
  /\ get (rows_of [".XS"; "XXX"; "XXE"]%string) 0 2 = ENTRY
  /\ find_path 3 3 (rows_of [".XS"; "XXX"; "XXE"]%string)
     = Some (NoPathFound, rows_of [".X."; "XXX"; "XXE"]%string).
Proof. repeat split; vm_compute; reflexivity. Qed.

(** *** The search *)

Lemma dfs_finds_reachable_exit_witness :
  well_formed 3 3 corridor = true
  /\ exists p m' log,
       (forall fuel, (dfs_fuel 3 3 <= fuel)%nat ->
          dfs 3 3 fuel corridor 0 0 = Some (p, m', log))
       /\ (found p = true
           <-> exists er ec, reaches_exit 3 3 corridor 0 0 er ec)
       /\ (found p = true ->
           reaches_exit 3 3 corridor 0 0 (end_x p) (end_y p)).
Proof.
  split; [reflexivity|].
  apply (dfs_finds_reachable_exit 3 3 ltac:(lia) ltac:(lia) corridor 0 0).
  reflexivity.
Defined.

Lemma dfs_marks_component_witness :
  well_formed 3 3 dead_end = true
  /\ exists p m' log,
       (forall fuel, (dfs_fuel 3 3 <= fuel)%nat ->
          dfs 3 3 fuel dead_end 0 0 = Some (p, m', log))
       /\ well_formed 3 3 m' = true
       /\ forall r c,
            (connected 3 3 dead_end 0 0 r c -> get m' r c = VISITED)
            /\ (~ connected 3 3 dead_end 0 0 r c ->
                get m' r c = get dead_end r c).
Proof.
  split; [reflexivity|].
  apply (dfs_marks_component 3 3 ltac:(lia) ltac:(lia) dead_end 0 0).
  reflexivity.
Defined.

Lemma find_entry_is_first_edge_entry_witness :
  find_entry 3 3 two_entries = (0, 0, true)
  /\ (find_entry 3 3 two_entries = (0, 0, true)
      <-> in_bounds 3 3 0 0 /\ on_edge 3 3 0 0 = true
          /\ get two_entries 0 0 = ENTRY
          /\ forall r c, in_bounds 3 3 r c -> scanned_before r c 0 0 ->
               on_edge 3 3 r c = true -> get two_entries r c <> ENTRY).
Proof.
  split; [reflexivity|].
  apply (find_entry_is_first_edge_entry 3 3 ltac:(lia) ltac:(lia)
           two_entries 0 0).
Defined.

Lemma find_path_reports_witness :
  well_formed 3 3 corridor = true
  /\ exists rep m',
       find_path 3 3 corridor = Some (rep, m')
       /\ match rep with
          | EntryPointNotFound =>
              m' = corridor
              /\ forall r c, in_bounds 3 3 r c -> on_edge 3 3 r c = true ->
                   get corridor r c <> ENTRY
          | NoPathFound =>
              exists er ec,
                find_entry 3 3 corridor = (er, ec, true)
                /\ (forall xr xc, ~ reaches_exit 3 3 corridor er ec xr xc)
                /\ forall r c,
                     (connected 3 3 corridor er ec r c ->
                      get m' r c = VISITED)
                     /\ (~ connected 3 3 corridor er ec r c ->
                         get m' r c = get corridor r c)
          | PartialPathFound sx sy ex ey =>
              find_entry 3 3 corridor = (sx, sy, true)
              /\ reaches_exit 3 3 corridor sx sy ex ey
              /\ forall r c,
                   (connected 3 3 corridor sx sy r c ->
                    get m' r c = VISITED)
                   /\ (~ connected 3 3 corridor sx sy r c ->
                       get m' r c = get corridor r c)
          end.
Proof.
  split; [reflexivity|].
  apply (find_path_reports 3 3 ltac:(lia) ltac:(lia) corridor).
  reflexivity.
Defined.

(** *** The passes *)

Lemma randomize_matrix_cells_witness :
  well_formed 3 3 searched = true
  /\ randomize_matrix 3 3 RAND_MAX_31 (1 # 2) searched_tape searched
     = Some (searched_result, [])
  /\ well_formed 3 3 searched_result = true
  /\ forall r c, in_bounds 3 3 r c ->
       get searched_result r c = OPEN \/ get searched_result r c = CLOSED
       \/ (on_edge 3 3 r c = true
           /\ (get searched_result r c = ENTRY
               \/ get searched_result r c = EXIT)).
Proof.
  split; [reflexivity|]. split; [reflexivity|].
  apply (randomize_matrix_cells 3 3 RAND_MAX_31 (1 # 2)
           ltac:(lia) ltac:(lia) searched_tape searched searched_result []);
    [lia|reflexivity|reflexivity].
Defined.

Lemma negative_density_no_open_cell_witness :
  (-1 # 2 < 0)%Q
  /\ well_formed 3 3 searched = true
  /\ Forall (fun r => 0 <= r) searched_tape
  /\ randomize_matrix 3 3 RAND_MAX_31 (-1 # 2) searched_tape searched
     = Some (rows_of ["ESX"; "XXX"; "XXX"]%string, [])
  /\ forall r c, in_bounds 3 3 r c ->
       get (rows_of ["ESX"; "XXX"; "XXX"]%string) r c <> OPEN.
Proof.
  assert (Hpos : Forall (fun r => 0 <= r) searched_tape)
    by (repeat constructor; by vm_compute).
  split; [reflexivity|]. split; [reflexivity|]. split; [exact Hpos|].
  split; [reflexivity|].
  apply (negative_density_no_open_cell 3 3 RAND_MAX_31 (-1 # 2)
           ltac:(lia) ltac:(lia) searched_tape searched
           (rows_of ["ESX"; "XXX"; "XXX"]%string) []);
    [lia|reflexivity|reflexivity|exact Hpos|reflexivity].
Defined.

Lemma thin_matrix_entry_not_placed_witness :
  well_formed 1 4 single_row = true
  /\ 1 * 4 <= Z.rem 4 (2 * (1 + 4) - 4)
  /\ place_entry_exit_points 1 4 single_row_tape single_row
     = Some (rows_of ["XEXX"]%string, [])
  /\ forall r c, in_bounds 1 4 r c ->
       get (rows_of ["XEXX"]%string) r c <> ENTRY.
Proof.
  split; [reflexivity|]. split; [by vm_compute|]. split; [reflexivity|].
  apply (thin_matrix_entry_not_placed 1 4 ltac:(lia) ltac:(lia)
           4 [1] single_row (rows_of ["XEXX"]%string) []).
  - left. reflexivity.
  - lia.
  - reflexivity.
  - intros r c [Hr Hc]. assert (r = 0) as -> by lia.
    assert (c = 0 \/ c = 1 \/ c = 2 \/ c = 3) as [-> | [-> | [-> | ->]]]
      by lia; by vm_compute.
  - lia.
  - by vm_compute.
  - reflexivity.
Defined.

Lemma place_entry_exit_points_by_rank_witness :
  well_formed 3 3 searched = true
  /\ Forall (fun r => 0 <= r) [0]
  /\ place_entry_exit_points 3 3 [1; 0] searched
     = Some (rows_of ["ES "; "XSP"; "E.X"]%string, [])
  /\ exists x,
       draw_exit_position (2 * (3 + 3) - 4) (Z.rem 1 (2 * (3 + 3) - 4)) [0]
       = Some (x, [])
       /\ 0 <= x < 2 * (3 + 3) - 4
       /\ x <> Z.rem 1 (2 * (3 + 3) - 4)
       /\ well_formed 3 3 (rows_of ["ES "; "XSP"; "E.X"]%string) = true
       /\ forall r c, in_bounds 3 3 r c ->
            get (rows_of ["ES "; "XSP"; "E.X"]%string) r c =
              if on_edge 3 3 r c
                 && (edge_rank 3 3 r c =? Z.rem 1 (2 * (3 + 3) - 4))
              then ENTRY
              else if on_edge 3 3 r c && (edge_rank 3 3 r c =? x) then EXIT
              else get searched r c.
Proof.
  assert (Hpos : Forall (fun r => 0 <= r) [0])
    by (repeat constructor; by vm_compute).
  split; [reflexivity|]. split; [exact Hpos|]. split; [reflexivity|].
  apply (place_entry_exit_points_by_rank 3 3 ltac:(lia) ltac:(lia)
           1 [0] searched (rows_of ["ES "; "XSP"; "E.X"]%string) []);
    [reflexivity|lia|exact Hpos|reflexivity].
Defined.

Lemma edge_length_counts_the_edge_witness :
  count_cells 5 7 (on_edge 5 7) = 2 * (5 + 7) - 4.
Proof.
  apply (edge_length_counts_the_edge 5 7); lia.
Defined.

(** *** The two workers together *)


Lemma display_never_red_witness :
  well_formed 3 3 (closed_matrix 3 3) = true
  /\ Forall (fun r => 0 <= r) torn_tape
  /\ run 3 3 RAND_MAX_31 (1 # 2) torn_display
         (initial (closed_matrix 3 3) torn_tape)
     = Some after_torn_display
  /\ (forall line ch, line ∈ displayed after_torn_display -> ch ∈ line ->
        cell_colour ch <> None /\ cell_colour ch <> Some ANSI_RED)
  /\ (gen_at after_torn_display <> gen_lock_first ->
      gen_at after_torn_display <> gen_generate ->
      forall r c, in_bounds 3 3 r c ->
        cell_colour (get (shared_matrix after_torn_display) r c) <> None
        /\ cell_colour (get (shared_matrix after_torn_display) r c)
           <> Some ANSI_RED).
Proof.
  assert (Hpos : Forall (fun r => 0 <= r) torn_tape)
    by (repeat constructor; by vm_compute).
  split; [reflexivity|]. split; [exact Hpos|]. split; [reflexivity|].
  apply (display_never_red 3 3 RAND_MAX_31 (1 # 2)
           ltac:(lia) ltac:(lia) torn_display (closed_matrix 3 3) torn_tape
           after_torn_display);
    [reflexivity|exact Hpos|reflexivity].
Defined.

Lemma search_worker_waits_only_for_the_mutex_witness :
  well_formed 3 3 (closed_matrix 3 3) = true
  /\ Forall (fun r => 0 <= r) torn_tape
  /\ run 3 3 RAND_MAX_31 (1 # 2) first_pass
         (initial (closed_matrix 3 3) torn_tape)
     = Some after_first_pass
  /\ (step 3 3 RAND_MAX_31 (1 # 2) path_finding_worker after_first_pass
      = None
      <-> pf_at after_first_pass = pf_lock
          /\ matrix_mutex after_first_pass = Some generation_worker)
  /\ (step 3 3 RAND_MAX_31 (1 # 2) generation_worker after_first_pass
      = None ->
      step 3 3 RAND_MAX_31 (1 # 2) path_finding_worker after_first_pass
      = None ->
      gen_at after_first_pass = gen_generate
      \/ gen_at after_first_pass = gen_randomize).
Proof.
  assert (Hpos : Forall (fun r => 0 <= r) torn_tape)
    by (repeat constructor; by vm_compute).
  split; [reflexivity|]. split; [exact Hpos|]. split; [reflexivity|].
  apply (search_worker_waits_only_for_the_mutex 3 3 RAND_MAX_31 (1 # 2)
           ltac:(lia) ltac:(lia) first_pass (closed_matrix 3 3) torn_tape
           after_first_pass);
    [reflexivity|exact Hpos|reflexivity].
Defined.

Lemma search_can_precede_generation_witness :
  well_formed 3 3 two_entries = true
  /\ exists rep m',
       find_path 3 3 two_entries = Some (rep, m')
       /\ run 3 3 RAND_MAX_31 (1 # 2)
              [path_finding_worker; path_finding_worker]
              (initial two_entries torn_tape)
          = Some (mkSystem m' torn_tape (Some path_finding_worker)
                           gen_lock_first pf_unlock [] [rep]).
Proof.
  split; [reflexivity|].
  apply (search_can_precede_generation 3 3 RAND_MAX_31 (1 # 2)
           ltac:(lia) ltac:(lia) two_entries torn_tape).
  reflexivity.
Defined.

Lemma display_shows_pass_or_visited_witness :
  run 3 3 RAND_MAX_31 (1 # 2) second_pass
      (initial (closed_matrix 3 3) torn_tape)
  = Some after_second_pass
  /\ well_formed 3 3 (shared_matrix after_second_pass) = true
  /\ gen_at after_second_pass = gen_unlock
  /\ (generation_steps display_and_search <= Z.to_nat 3 + 3)%nat
  /\ run 3 3 RAND_MAX_31 (1 # 2) display_and_search after_second_pass
     = Some after_torn_display
  /\ (gen_at after_torn_display <> gen_unlock ->
      forall (i : nat) (line : list ascii),
        displayed after_torn_display !! i = Some line ->
        forall (c : nat) (ch : ascii), line !! c = Some ch ->
          ch = get (shared_matrix after_second_pass)
                   (Z.of_nat i) (Z.of_nat c)
          \/ ch = VISITED)
  /\ (gen_at after_torn_display = gen_sleep ->
      length (displayed after_torn_display) = Z.to_nat 3)
  /\ (forall r c, in_bounds 3 3 r c ->
        get (shared_matrix after_torn_display) r c
        = get (shared_matrix after_second_pass) r c
        \/ get (shared_matrix after_torn_display) r c = VISITED).
Proof.
  split; [reflexivity|]. split; [reflexivity|]. split; [reflexivity|].
  split; [vm_compute; lia|]. split; [reflexivity|].
  apply (display_shows_pass_or_visited 3 3 RAND_MAX_31 (1 # 2)
           ltac:(lia) ltac:(lia) display_and_search after_second_pass
           after_torn_display);
    [reflexivity|reflexivity|vm_compute; lia|reflexivity].
Defined.
